(** * mqAudio: McAulay-Quatieri peak detection, partial tracking and synthesis

    A shallow embedding of [src/js/app/mqAudio.js] and the properties of its
    three exported functions [detectPeaks], [trackPartials] and [synthesize].

    Numbers.  A JavaScript number is an IEEE 754 double.  A finite double is
    a rational number, and the model holds it as one ([Q]); the result of an
    arithmetic operation is the exact result rounded to the nearest double,
    ties to even ([round64]).  The synthesizer, whose arithmetic can leave
    the finite numbers (an overflow, an empty maximum that is -Infinity, 0/0
    that is NaN), works on [num], the finite numbers extended with NaN and
    the two infinities.  The sign of a zero is not kept.

    Library.  The source calls lodash 2.x ([_.pull], [_.last (array, n)],
    chainable [max]); each helper it uses is transcribed below from that
    library's code, next to the place that calls it. *)

From Stdlib Require Import List Arith Bool ZArith QArith Qabs Qround Qpower.
From Stdlib Require Import Floats Lia Lqa.
From Stdlib Require Import Sorted Permutation.
Import ListNotations.

Local Open Scope Q_scope.

(** ** Comparisons of numbers as the source writes them *)

(** [a <= b] *)
Definition Qleb (a b : Q) : bool := Qle_bool a b.

(** [a < b] *)
Definition Qltb (a b : Q) : bool := negb (Qle_bool b a).

(** [a > b] *)
Definition Qgtb (a b : Q) : bool := Qltb b a.

(** [a == b] on two numbers *)
Definition Qeqb (a b : Q) : bool := Qeq_bool a b.

(** ** Double-precision arithmetic *)

(** [2^z] *)
Definition pow2 (z : Z) : Q := 2 ^ z.

(** The exponent of a positive number: [2^e <= a < 2^(e+1)]. *)
Definition floorLog2 (a : Q) : Z :=
  let e0 := (Z.log2 (Qnum a) - Z.log2 (Zpos (Qden a)))%Z in
  if Qltb a (pow2 e0) then (e0 - 1)%Z else e0.

(** The integer nearest to [x]; of two equally near, the even one. *)
Definition nearestEven (x : Q) : Z :=
  let f := Qfloor x in
  match Qcompare (x - inject_Z f) (1 # 2) with
  | Lt => f
  | Gt => (f + 1)%Z
  | Eq => if Z.even f then f else (f + 1)%Z
  end.

(** The exponent of the last place of the doubles around [a]: 53 significant
    bits, and no exponent below -1074 (the subnormal numbers). *)
Definition ulpExponent (a : Q) : Z := Z.max (floorLog2 a - 52) (-1074).

Definition roundPos (a : Q) : Q :=
  let u := ulpExponent a in
  inject_Z (nearestEven (a / pow2 u)) * pow2 u.

(** The double nearest to [q], ties to even, were the exponent unbounded
    above; [toDouble] below adds the overflow. *)
Definition round64 (q : Q) : Q :=
  if Qltb q 0 then - roundPos (- q) else roundPos q.

(** [a - b], [a * b] and [a / b] on two finite doubles, where the result is
    only compared or cannot overflow.  The tracker subtracts frequencies
    and compares the magnitude of the difference, with the radius and with
    other differences that are within the radius: a difference beyond the
    largest double, Infinity in the source, is here the number it rounds
    to, which every such comparison treats alike ([absDifference_radius],
    [absDifference_less]).  In [detectPeaks] neither the quotient nor the
    product overflows ([detectPeaks_in_range]). *)
Definition sub64 (a b : Q) : Q := round64 (a - b).

Definition mul64 (a b : Q) : Q := round64 (a * b).

Definition div64 (a b : Q) : Q := round64 (a / b).

(** ** The helpers of lodash that [findCandidateIndex] calls *)

(** [var matchingThreshold = 200;] *)
Definition matchingThreshold : Q := 200.

(** [_.sortedIndex (array, value)]: lodash's binary search

      while (low < high) {
        var mid = (low + high) >>> 1;
        (array[mid] < value) ? low = mid + 1 : high = mid;
      }
      return low;

    The interval [high - low] shrinks at every turn, so [length array] turns
    are enough ([sortedIndex_loop_fuel]). *)
Fixpoint sortedIndex_loop (fuel : nat) (array : list Q) (value : Q)
    (low high : nat) : nat :=
  match fuel with
  | O => low
  | S fuel' =>
      if (low <? high)%nat then
        let mid := Nat.div2 (low + high) in
        if Qltb (nth mid array 0) value
        then sortedIndex_loop fuel' array value (mid + 1) high
        else sortedIndex_loop fuel' array value low mid
      else low
  end.

Definition sortedIndex (array : list Q) (value : Q) : nat :=
  sortedIndex_loop (length array) array value 0 (length array).

(** [_.min (collection, callback)]:

      var computed = Infinity, result = computed;
      forEach (collection, function (value) {
        var current = callback (value);
        if (current < computed) { computed = current; result = value; }
      });
      return result;

    [min_loop] is the loop once [computed] is a number.  The first candidate
    [findCandidateIndex] pushes is within the radius ([candidatesOf_head]),
    so its [current] is below Infinity and always sets [computed]; on an
    empty collection the result stays Infinity ([None]). *)
Fixpoint min_loop (callback : nat -> Q) (collection : list nat)
    (computed : Q) (result : nat) : nat :=
  match collection with
  | [] => result
  | value :: rest =>
      let current := callback value in
      if Qltb current computed
      then min_loop callback rest current value
      else min_loop callback rest computed result
  end.

Definition lodash_min (collection : list nat) (callback : nat -> Q)
    : option nat :=
  match collection with
  | [] => None
  | value :: rest => Some (min_loop callback rest (callback value) value)
  end.

(** ** findCandidateIndex *)

(** [abs (nextPeaks[i] - curPeak) <= matchingThreshold] *)
Definition withinThreshold (curPeak : Q) (nextPeaks : list Q) (i : nat) : bool :=
  Qleb (Qabs (sub64 (nth i nextPeaks 0) curPeak)) matchingThreshold.

(** The array [candidates] after the three [if]s.  The third one tests
    [nextPeaks[m]], as the source does, and pushes [m+1]. *)
Definition candidatesOf (curPeak : Q) (nextPeaks : list Q) : list nat :=
  let m := sortedIndex nextPeaks curPeak in
  (if (m <? length nextPeaks)%nat && withinThreshold curPeak nextPeaks m
   then [m] else [])
  ++ (if (0 <? m)%nat && withinThreshold curPeak nextPeaks (m - 1)
      then [(m - 1)%nat] else [])
  ++ (if (m + 1 <? length nextPeaks)%nat && withinThreshold curPeak nextPeaks m
      then [(m + 1)%nat] else []).

(** [null] is [None]. *)
Definition findCandidateIndex (curPeak : Q) (nextPeaks : list Q) : option nat :=
  let candidates := candidatesOf curPeak nextPeaks in
  if (length candidates =? 0)%nat then None
  else lodash_min candidates
         (fun val => Qabs (sub64 (nth val nextPeaks 0) curPeak)).

(** ** Peaks and tracks *)

(** Which object a peak is.  [_.pull] compares peaks with [===], that is by
    identity and not by their fields, so the model names objects.  An object
    the caller built is [Given n]; the literal [detectPeaks] builds for bin
    [bin] of frame [frame] is [AtBin frame bin]; the zero-amplitude literals
    of [trackPartials] are [Synth]: they are only ever appended to a track,
    and no identity test reaches them. *)
Inductive Ident : Type :=
| Given (n : nat)
| AtBin (frame bin : nat)
| Synth.

(** [Peak = { freq:frequency, amp:magnitude }] *)
Record Peak : Type := mkPeak { ident : Ident; freq : Q; amp : Q }.

(** [Track = { birth:frameNumber, peaks:ArrayOfPeaks }] *)
Record Track : Type := mkTrack { birth : nat; peaks : list Peak }.

Definition Ident_eqb (a b : Ident) : bool :=
  match a, b with
  | Given n, Given n' => (n =? n')%nat
  | AtBin f i, AtBin f' i' => (f =? f')%nat && (i =? i')%nat
  | Synth, Synth => true
  | _, _ => false
  end.

(** [a === b] on two peak objects *)
Definition sameObject (a b : Peak) : bool := Ident_eqb (ident a) (ident b).

(** [{ freq: f, amp: 0 }] *)
Definition fade (f : Q) : Peak := mkPeak Synth f 0.

(** What indexing past the end of an array of peaks would read; every index
    the tracker uses is in range. *)
Definition noPeak : Peak := mkPeak Synth 0 0.

(** [_.pull (array, value)]: removes every element that is [=== value]. *)
Definition pull (array : list Peak) (value : Peak) : list Peak :=
  filter (fun x => negb (sameObject x value)) array.

(** [_.sortBy (collection, callback)]: ascending by the callback's value,
    elements of equal value in their original order (the comparator falls
    back on the index). *)
Fixpoint insertBy {A : Type} (key : A -> Q) (x : A) (sorted : list A) : list A :=
  match sorted with
  | [] => [x]
  | y :: rest =>
      if Qleb (key x) (key y) then x :: y :: rest
      else y :: insertBy key x rest
  end.

Definition sortBy {A : Type} (key : A -> Q) (collection : list A) : list A :=
  fold_right (insertBy key) [] collection.

(** [_.last (array, n)] with a number [n]:
    [slice (array, nativeMax (0, length - n))]. *)
Definition lastN {A : Type} (array : list A) (n : nat) : list A :=
  skipn (length array - n) array.

(** ** detectPeaks *)

(** The [for] loop over the bins of one frame: [i] is the bin of [curMag],
    [rest] holds [frame[i+1]] onwards. *)
Fixpoint scanBins (idx : nat) (binFactor threshold : Q) (i : nat)
    (prevMag curMag : Q) (rest : list Q) : list Peak :=
  match rest with
  | [] => []
  | nextMag :: rest' =>
      (if Qgtb curMag prevMag && Qgtb curMag nextMag && Qgtb curMag threshold
       then [mkPeak (AtBin idx i) (mul64 (inject_Z (Z.of_nat i)) binFactor) curMag]
       else [])
      ++ scanBins idx binFactor threshold (S i) curMag nextMag rest'
  end.

(** The body of the [forEach] for the frame at index [idx]. *)
Definition detectFrame (sampleRate threshold : Q) (maxPeaks : option nat)
    (idx : nat) (frame : list Q) : list Peak :=
  let bins := length frame in
  let binFactor := div64 sampleRate (inject_Z (Z.of_nat bins) * 2) in
  let framePeaks :=
    match frame with
    | prevMag :: curMag :: rest =>
        scanBins idx binFactor threshold 1 prevMag curMag rest
    | _ => []
    end in
  let framePeaks := sortBy freq framePeaks in
  match maxPeaks with
  | Some n => lastN framePeaks n
  | None => framePeaks
  end.

Fixpoint detectFrom (sampleRate threshold : Q) (maxPeaks : option nat)
    (idx : nat) (spectrogram : list (list Q)) : list (list Peak) :=
  match spectrogram with
  | [] => []
  | frame :: rest =>
      detectFrame sampleRate threshold maxPeaks idx frame
      :: detectFrom sampleRate threshold maxPeaks (S idx) rest
  end.

(** [maxPeaks] is [None] when the caller leaves it out ([undefined]). *)
Definition detectPeaks (spectrogram : list (list Q)) (sampleRate threshold : Q)
    (maxPeaks : option nat) : list (list Peak) :=
  detectFrom sampleRate threshold maxPeaks 0 spectrogram.

(** ** trackPartials *)

(** [_.last (track.peaks)['freq']] *)
Definition lastFreq (track : Track) : Q := freq (last (peaks track) noPeak).

(** [track.peaks.push (peak)] *)
Definition pushPeak (track : Track) (peak : Peak) : Track :=
  mkTrack (birth track) (peaks track ++ [peak]).

(** The test of line 136, [unmatchedTrackFreqs[possibleTrackIdx] == curFreq];
    indexing with [null] reads [undefined], which equals no number. *)
Definition definitiveMatch (curFreq candidateFreq : Q)
    (unmatchedTrackFreqs : list Q) : bool :=
  match findCandidateIndex candidateFreq unmatchedTrackFreqs with
  | Some possibleTrackIdx => Qeqb (nth possibleTrackIdx unmatchedTrackFreqs 0) curFreq
  | None => false
  end.

(** The state the inner [forEach] works on. *)
Record Matching : Type := mkMatching {
  nextPeaks : list Peak;      (* the pool of the frame's peaks *)
  tracks : list Track;        (* the finalized tracks *)
  curTracks : list Track      (* the tracks that stay active *)
}.

(** Death of [track]:

      track.peaks.push({ freq: curFreq, amp: 0 });
      tracks.push(track);
      _.pull(curTracks, track);

    Every track is an object of its own, so the pull removes just that
    track; the model gathers in [curTracks] the tracks that are not pulled,
    in the snapshot's order, which is the array the source is left with. *)
Definition die (st : Matching) (track : Track) : Matching :=
  mkMatching (nextPeaks st)
             (tracks st ++ [pushPeak track (fade (lastFreq track))])
             (curTracks st).

(** [track] takes the peak at index [k] of the pool:

      track.peaks.push(nextPeaks[k]);
      _.pull(nextPeaks, nextPeaks[k]); *)
Definition takePeak (st : Matching) (track : Track) (k : nat) : Matching :=
  let peak := nth k (nextPeaks st) noPeak in
  mkMatching (pull (nextPeaks st) peak)
             (tracks st)
             (curTracks st ++ [pushPeak track peak]).

(** The body of the inner [forEach] for [track], [later] being the tracks
    of the snapshot after it: [_(collection).rest(trackIdx)] is
    [track :: later]. *)
Definition matchTrack (track : Track) (later : list Track) (st : Matching)
    : Matching :=
  let curFreq := lastFreq track in
  let nextFreqs := map freq (nextPeaks st) in
  match findCandidateIndex curFreq nextFreqs with
  | None => die st track
  | Some candidateIdx =>
      let unmatchedTrackFreqs := map lastFreq (track :: later) in
      if definitiveMatch curFreq (nth candidateIdx nextFreqs 0)
           unmatchedTrackFreqs
      then takePeak st track candidateIdx
      else
        match candidateIdx with
        | O => die st track                       (* lowerIndex < 0 *)
        | S lowerIndex =>
            if Qgtb (Qabs (sub64 (nth lowerIndex nextFreqs 0) curFreq))
                    matchingThreshold
            then die st track
            else takePeak st track lowerIndex
        end
  end.

(** The inner [forEach] over the sorted snapshot, from [collection] on. *)
Fixpoint matchTracks (collection : list Track) (st : Matching) : Matching :=
  match collection with
  | [] => st
  | track :: later => matchTracks later (matchTrack track later st)
  end.

(** [{ birth: frameIdx, peaks: [{freq:peak.freq, amp:0}, peak] }] *)
Definition bornAt (frameIdx : nat) (peak : Peak) : Track :=
  mkTrack frameIdx [fade (freq peak); peak].

(** The body of the outer [forEach]: [frameIdx] is the index lodash passes,
    the position of [frame] in [_(peaksFrames).rest ()]. *)
Definition processFrame (frameIdx : nat) (frame : list Peak)
    (tracks0 curTracks0 : list Track) : list Track * list Track :=
  let st := matchTracks (sortBy lastFreq curTracks0)
                        (mkMatching frame tracks0 []) in
  (tracks st, curTracks st ++ map (bornAt frameIdx) (nextPeaks st)).

Fixpoint processFrames (frameIdx : nat) (frames : list (list Peak))
    (tracks0 curTracks0 : list Track) : list Track * list Track :=
  match frames with
  | [] => (tracks0, curTracks0)
  | frame :: rest =>
      let '(tracks1, curTracks1) := processFrame frameIdx frame tracks0 curTracks0 in
      processFrames (S frameIdx) rest tracks1 curTracks1
  end.

(** [trackPartials (peaksFrames, maxPeaks)]; the body never reads
    [maxPeaks].  [peaksFrames[0]] of an empty array is [undefined], over
    which [forEach] does nothing. *)
Definition trackPartials (peaksFrames : list (list Peak)) : list Track :=
  let firstTracks := map (fun peak => mkTrack 0 [peak]) (nth 0 peaksFrames []) in
  let '(tracks1, curTracks1) := processFrames 0 (tl peaksFrames) [] firstTracks in
  tracks1 ++ curTracks1.

(** ** Numbers of the synthesizer *)

(** A JavaScript number: a finite double, NaN or an infinity. *)
Inductive num : Type :=
| Fin (q : Q)
| PosInf
| NegInf
| NaN.

(** The sign of a number that is not NaN, as an integer. *)
Definition signOf (a : num) : Z :=
  match a with
  | Fin q => match Qcompare q 0 with Lt => (-1)%Z | Eq => 0%Z | Gt => 1%Z end
  | PosInf => 1%Z
  | NegInf => (-1)%Z
  | NaN => 0%Z
  end.

(** The infinity of sign [s]; NaN when [s] is 0 (Infinity * 0, 0 / 0). *)
Definition infinityOf (s : Z) : num :=
  match s with
  | Z0 => NaN
  | Zpos _ => PosInf
  | Zneg _ => NegInf
  end.

(** The largest double, [2^1024 - 2^971]. *)
Definition maxDouble : Q := inject_Z (2 ^ 1024 - 2 ^ 971).

(** The double an exact finite result [q] is delivered as: [q] rounded, and
    an infinity when that is beyond the largest double. *)
Definition toDouble (q : Q) : num :=
  let r := round64 q in
  if Qgtb (Qabs r) maxDouble then (if Qltb r 0 then NegInf else PosInf)
  else Fin r.

Definition num_add (a b : num) : num :=
  match a, b with
  | NaN, _ | _, NaN => NaN
  | Fin x, Fin y => toDouble (x + y)
  | PosInf, NegInf | NegInf, PosInf => NaN
  | PosInf, _ | _, PosInf => PosInf
  | NegInf, _ | _, NegInf => NegInf
  end.

Definition num_sub (a b : num) : num :=
  match a, b with
  | NaN, _ | _, NaN => NaN
  | Fin x, Fin y => toDouble (x - y)
  | PosInf, PosInf | NegInf, NegInf => NaN
  | PosInf, _ | _, NegInf => PosInf
  | NegInf, _ | _, PosInf => NegInf
  end.

Definition num_mul (a b : num) : num :=
  match a, b with
  | NaN, _ | _, NaN => NaN
  | Fin x, Fin y => toDouble (x * y)
  | _, _ => infinityOf (signOf a * signOf b)
  end.

(** Division: a finite number over zero is an infinity of its sign, and 0/0
    is NaN (the zero divisor is taken as +0). *)
Definition num_div (a b : num) : num :=
  match a, b with
  | NaN, _ | _, NaN => NaN
  | Fin x, Fin y =>
      if Qeqb y 0 then infinityOf (signOf a) else toDouble (x / y)
  | Fin _, _ => Fin 0
  | _, Fin y => infinityOf (signOf a * (if Qltb y 0 then (-1)%Z else 1%Z))
  | _, _ => NaN
  end.

(** [Math.abs] *)
Definition num_abs (a : num) : num :=
  match a with
  | Fin q => Fin (Qabs q)
  | PosInf | NegInf => PosInf
  | NaN => NaN
  end.

(** [a > b]; false as soon as one side is NaN. *)
Definition num_gtb (a b : num) : bool :=
  match a, b with
  | NaN, _ | _, NaN => false
  | Fin x, Fin y => Qgtb x y
  | PosInf, PosInf | NegInf, _ => false
  | PosInf, _ => true
  | Fin _, NegInf => true
  | Fin _, PosInf => false
  end.

Definition num_of_nat (n : nat) : num := Fin (inject_Z (Z.of_nat n)).

(** [_.max (array)] without a callback:

      var result = -Infinity;
      while (++index < length) {
        var value = collection[index];
        if (value > result) { result = value; }
      }
      return result; *)
Fixpoint max_loop (collection : list num) (result : num) : num :=
  match collection with
  | [] => result
  | value :: rest =>
      max_loop rest (if num_gtb value result then value else result)
  end.

Definition lodash_max (collection : list num) : num := max_loop collection NegInf.

(** ** synthesize *)

(** What a call of [synthesize] ends in: the buffer it returns, or the
    RangeError that [new Float64Array] throws. *)
Inductive Outcome : Type :=
| Returned (audioBuffer : list num)
| RangeError.

(** [new Float64Array (bufferSize)]: the length is the number truncated to an
    integer, NaN counting as 0.  A negative or infinite length, or one above
    [2^53 - 1], is a RangeError; so is a length the engine does not grant,
    and [maxLength] is the largest one it grants.  The new array holds
    zeros. *)
Definition newFloat64Array (maxLength : nat) (bufferSize : num)
    : option (list num) :=
  match bufferSize with
  | NaN => Some []
  | PosInf | NegInf => None
  | Fin q =>
      let n := Z.quot (Qnum q) (Zpos (Qden q)) in
      if (n <? 0)%Z || (2 ^ 53 - 1 <? n)%Z || (Z.of_nat maxLength <? n)%Z
      then None
      else Some (repeat (Fin 0) (Z.to_nat n))
  end.

(** [audioBuffer[i] += v]; a write past the end of a typed array is dropped. *)
Fixpoint addAt (audioBuffer : list num) (i : nat) (v : num) : list num :=
  match audioBuffer, i with
  | [], _ => []
  | x :: rest, O => num_add x v :: rest
  | x :: rest, S i' => x :: addAt rest i' v
  end.

(** [Math.PI]: the double nearest to pi, which is this rational exactly. *)
Definition PI : Q := 884279719003555 # 281474976710656.

Section Synthesizer.

(** [Math.sin], which the model leaves open: no property below depends on the
    values it takes. *)
Variable sin : num -> num.

(** The largest length [new Float64Array] grants. *)
Variable maxLength : nat.

(** The [while (i < end)] loop of one segment, [n] samples still to write;
    [i], [instAmp] and [t] are the loop's variables. *)
Fixpoint renderSamples (n : nat) (FREQ_FACTOR peakFreq stepFreq stepAmp : num)
    (audioBuffer : list num) (i : nat) (instAmp : num) (t : nat) : list num :=
  match n with
  | O => audioBuffer
  | S n' =>
      let tn := num_of_nat t in
      let sample :=
        num_mul (num_mul (Fin 2) instAmp)
          (sin (num_mul (num_mul FREQ_FACTOR tn)
                  (num_add peakFreq (num_mul (num_mul stepFreq (Fin (1#2))) tn)))) in
      renderSamples n' FREQ_FACTOR peakFreq stepFreq stepAmp
        (addAt audioBuffer i sample) (S i) (num_add instAmp stepAmp) (S t)
  end.

(** The [forEach] over [track.peaks]: every peak but the last starts a
    segment of [frameLen] samples at [i], towards the peak that follows it.
    ([instPhase] stays 0 and [instFreq] is never read: both are left out.) *)
Fixpoint renderPeaks (frameLen : nat) (FREQ_FACTOR : num) (colp : list Peak)
    (audioBuffer : list num) (i : nat) : list num :=
  match colp with
  | peak :: ((next :: _) as rest) =>
      let stepFreq := num_div (num_sub (Fin (freq next)) (Fin (freq peak)))
                              (num_of_nat frameLen) in
      let stepAmp := num_div (num_sub (Fin (amp next)) (Fin (amp peak)))
                             (num_of_nat frameLen) in
      renderPeaks frameLen FREQ_FACTOR rest
        (renderSamples frameLen FREQ_FACTOR (Fin (freq peak)) stepFreq stepAmp
           audioBuffer i (Fin (amp peak)) 0)
        (i + frameLen)
  | _ => audioBuffer
  end.

(** The [forEach] over the tracks. *)
Definition renderTracks (frameLen : nat) (FREQ_FACTOR : num)
    (tracks0 : list Track) (audioBuffer : list num) : list num :=
  fold_left
    (fun buf track =>
       renderPeaks frameLen FREQ_FACTOR (peaks track) buf (birth track * frameLen))
    tracks0 audioBuffer.

(** The buffer before the normalization pass. *)
Definition rendered (tracks0 : list Track) (frameLen : nat) (samplingRate : Q)
    : option (list num) :=
  let numFrames :=
    lodash_max (map (fun track => num_of_nat (birth track + length (peaks track)))
                    tracks0) in
  let FREQ_FACTOR := num_div (num_mul (Fin 2) (Fin PI)) (Fin samplingRate) in
  let bufferSize := num_mul numFrames (num_of_nat frameLen) in
  match newFloat64Array maxLength bufferSize with
  | None => None
  | Some audioBuffer => Some (renderTracks frameLen FREQ_FACTOR tracks0 audioBuffer)
  end.

(** [_(audioBuffer).map (abs).max ().value ()] *)
Definition maxAmpOf (audioBuffer : list num) : num :=
  lodash_max (map num_abs audioBuffer).

(** The last loop: [audioBuffer[i] /= maxAmp] at every index. *)
Definition normalize (audioBuffer : list num) : list num :=
  let maxAmp := maxAmpOf audioBuffer in
  map (fun x => num_div x maxAmp) audioBuffer.

Definition synthesize (tracks0 : list Track) (frameLen : nat) (samplingRate : Q)
    : Outcome :=
  match rendered tracks0 frameLen samplingRate with
  | None => RangeError
  | Some audioBuffer => Returned (normalize audioBuffer)
  end.

End Synthesizer.

(** ** Predicates the statements use *)

(** An array of numbers in ascending order, as a test. *)
Fixpoint ascendingb (l : list Q) : bool :=
  match l with
  | x :: ((y :: _) as rest) => Qleb x y && ascendingb rest
  | _ => true
  end.

(** Position [i] is one of the three the search looks at around [m]. *)
Definition examined (m i : nat) : Prop :=
  (i + 1 = m \/ i = m \/ i = m + 1)%nat.

(** [abs (l[i] - c)], as the source computes it. *)
Definition distance (c : Q) (l : list Q) (i : nat) : Q :=
  Qabs (sub64 (nth i l 0) c).

(** Bin [i] of [frame] exceeds both its neighbours and the threshold. *)
Definition isLocalPeak (frame : list Q) (threshold : Q) (i : nat) : bool :=
  Qgtb (nth i frame 0) (nth (i - 1) frame 0)
  && Qgtb (nth i frame 0) (nth (i + 1) frame 0)
  && Qgtb (nth i frame 0) threshold.

(** The peak [detectPeaks] builds for bin [i] of the frame at [idx]. *)
Definition peakAtBin (sampleRate : Q) (idx : nat) (frame : list Q) (i : nat)
    : Peak :=
  mkPeak (AtBin idx i)
         (mul64 (inject_Z (Z.of_nat i))
                (div64 sampleRate (inject_Z (Z.of_nat (length frame)) * 2)))
         (nth i frame 0).

(** The tracker's two arrays, [(tracks, curTracks)], once the first [n]
    frames after frame 0 have been processed. *)
Definition stateAfter (peaksFrames : list (list Peak)) (n : nat)
    : list Track * list Track :=
  processFrames 0 (firstn n (tl peaksFrames)) []
    (map (fun peak => mkTrack 0 [peak]) (nth 0 peaksFrames [])).

(** The pool of frame [f >= 1] once every active track has been processed:
    the peaks of [frame] that no track took. *)
Definition unmatchedAt (peaksFrames : list (list Peak)) (f : nat)
    (frame : list Peak) : list Peak :=
  let '(tracks0, curTracks0) := stateAfter peaksFrames (f - 1) in
  nextPeaks (matchTracks (sortBy lastFreq curTracks0)
                         (mkMatching frame tracks0 [])).

(** [t'] is [t] after some more pushes on its peaks. *)
Definition extends (t t' : Track) : Prop :=
  birth t' = birth t /\ exists more, peaks t' = peaks t ++ more.

(** The test the claim words: among the tracks other than [T] not yet
    processed, the one nearest to the candidate has a frequency other than
    [c] (or there is none). *)
Definition claimed_definitiveMatch (c candidateFreq : Q) (others : list Q)
    : bool :=
  match findCandidateIndex candidateFreq others with
  | Some j => negb (Qeqb (nth j others 0) c)
  | None => true
  end.

(** The number is a finite zero. *)
Definition isZero (a : num) : bool :=
  match a with
  | Fin q => Qeqb q 0
  | _ => false
  end.

(** [track.birth + track.peaks.length] *)
Definition extent (track : Track) : nat := (birth track + length (peaks track))%nat.

(** The entry of [track] that stands for frame [f]: [peaks[f - birth]]. *)
Definition entryAt (track : Track) (f : nat) : option Peak :=
  if (f <? birth track)%nat then None
  else nth_error (peaks track) (f - birth track).

(** The entries the tracks of [l] hold for frame [f], track by track. *)
Definition column (f : nat) (l : list Track) : list Peak :=
  flat_map (fun t => match entryAt t f with Some q => [q] | None => [] end) l.

(** The peak is an object of the input, not a zero-amplitude literal of the
    tracker. *)
Definition isReal (p : Peak) : bool := negb (Ident_eqb (ident p) Synth).

Definition realEntries (f : nat) (l : list Track) : list Peak :=
  filter isReal (column f l).

(** The peaks of a frame are pairwise distinct objects. *)
Fixpoint distinctPeaks (frame : list Peak) : bool :=
  match frame with
  | [] => true
  | p :: rest => negb (existsb (sameObject p) rest) && distinctPeaks rest
  end.

(** [track] holds the object [p] as its entry for frame [f]. *)
Definition holdsAt (f : nat) (p : Peak) (track : Track) : bool :=
  match entryAt track f with
  | Some q => sameObject q p
  | None => false
  end.

(** The tracks the inner loop has on file, finalized ones first. *)
Definition onFile (st : Matching) : list Track := tracks st ++ curTracks st.

(** What holds of the tracker's two arrays once the frames up to [n] are
    processed. *)
Definition settled (peaksFrames : list (list Peak)) (n : nat)
    (state : list Track * list Track) : Prop :=
  (forall t, In t (snd state) -> extent t = S n)
  /\ (forall t, In t (fst state) -> (extent t <= S n)%nat)
  /\ forall f, (f <= n)%nat ->
       Permutation (realEntries f (fst state ++ snd state))
                   (nth f peaksFrames []).

(** Every frame of the input holds pairwise distinct objects, none of them
    one of the tracker's own literals. *)
Definition distinctInput (peaksFrames : list (list Peak)) : bool :=
  forallb (fun frame => distinctPeaks frame && forallb isReal frame) peaksFrames.

(** Consecutive peaks are within the matching radius of each other. *)
Fixpoint smoothb (ps : list Peak) : bool :=
  match ps with
  | p :: ((q :: _) as rest) =>
      Qleb (Qabs (sub64 (freq q) (freq p))) matchingThreshold && smoothb rest
  | _ => true
  end.

(** [track]'s last two entries are a peak and a zero-amplitude literal at
    that peak's frequency. *)
Definition fadedOut (track : Track) : Prop :=
  exists init p, peaks track = init ++ [p; fade (freq p)].

(** Sample [j] lies in a segment [track] renders: the track has at least
    two peaks and [j] is in [birth * frameLen, (extent - 1) * frameLen). *)
Definition covers (frameLen : nat) (track : Track) (j : nat) : bool :=
  (2 <=? length (peaks track))%nat
  && (birth track * frameLen <=? j)%nat
  && (j <? (extent track - 1) * frameLen)%nat.

(** The rational a finite double of the machine stands for (0 for the
    others). *)
Definition Q_of_float (x : float) : Q :=
  match Prim2SF x with
  | S754_finite s m e =>
      let v := if (0 <=? e)%Z then inject_Z (Zpos m * 2 ^ e)
               else Qmake (Zpos m) (Z.to_pos (2 ^ (- e))) in
      if s then - v else v
  | _ => 0
  end.

(** [round64] gives, on [a] and [b], what the machine's subtraction,
    multiplication and division give. *)
Definition agrees (ab : float * float) : bool :=
  let '(a, b) := ab in
  Qeqb (sub64 (Q_of_float a) (Q_of_float b)) (Q_of_float (a - b)%float)
  && Qeqb (mul64 (Q_of_float a) (Q_of_float b)) (Q_of_float (a * b)%float)
  && Qeqb (div64 (Q_of_float a) (Q_of_float b)) (Q_of_float (a / b)%float).

(** [abs (a - b)] with its overflow: Infinity when the difference is beyond
    the largest double. *)
Definition absDifference (a b : Q) : num := num_abs (num_sub (Fin a) (Fin b)).

(** Rounding on the grid of step [2^u]. *)
Definition onGrid (u : Z) (x : Q) : Q :=
  inject_Z (nearestEven (x / pow2 u)) * pow2 u.

(** * Properties *)

(** ** Comparisons *)

Lemma Qleb_le (a b : Q) : Qleb a b = true <-> a <= b.
Proof. unfold Qleb. apply Qle_bool_iff. Qed.

Lemma Qltb_lt (a b : Q) : Qltb a b = true <-> a < b.
Proof.
  unfold Qltb. rewrite negb_true_iff. split; intro H.
  - apply Qnot_le_lt. intro Hle. apply Qle_bool_iff in Hle. congruence.
  - destruct (Qle_bool b a) eqn:E; [|reflexivity].
    apply Qle_bool_iff in E. exfalso. apply (Qlt_not_le _ _ H E).
Qed.

Lemma Qltb_ge (a b : Q) : Qltb a b = false <-> b <= a.
Proof.
  unfold Qltb. rewrite negb_false_iff. apply Qle_bool_iff.
Qed.

Lemma Qleb_gt (a b : Q) : Qleb a b = false <-> b < a.
Proof.
  split; intro H.
  - apply Qltb_lt. unfold Qltb, Qleb in *. now rewrite H.
  - apply Qltb_lt in H. unfold Qltb, Qleb in *. now apply negb_true_iff in H.
Qed.

Lemma Qgtb_gt (a b : Q) : Qgtb a b = true <-> b < a.
Proof. unfold Qgtb. apply Qltb_lt. Qed.

Lemma Qgtb_le (a b : Q) : Qgtb a b = false <-> a <= b.
Proof. unfold Qgtb. apply Qltb_ge. Qed.

Lemma Qeqb_eq (a b : Q) : Qeqb a b = true <-> a == b.
Proof. unfold Qeqb. apply Qeq_bool_iff. Qed.

(** Turns the boolean tests of the context into (in)equalities. *)
Ltac to_Q :=
  repeat match goal with
  | H : Qleb _ _ = true |- _ => apply Qleb_le in H
  | H : Qleb _ _ = false |- _ => apply Qleb_gt in H
  | H : Qltb _ _ = true |- _ => apply Qltb_lt in H
  | H : Qltb _ _ = false |- _ => apply Qltb_ge in H
  | H : Qgtb _ _ = true |- _ => apply Qgtb_gt in H
  | H : Qgtb _ _ = false |- _ => apply Qgtb_le in H
  | H : Qeqb _ _ = true |- _ => apply Qeqb_eq in H
  end.

(** Splits on the sign of [e] and records what [Qabs e] is. *)
Ltac abs_of e :=
  let H := fresh "Hsign" in
  let Ha := fresh "Habs" in
  destruct (Qlt_le_dec e 0) as [H|H];
  [ pose proof (Qabs_neg e (Qlt_le_weak _ _ H)) as Ha
  | pose proof (Qabs_pos e H) as Ha ].

(** ** Rounding to a double *)

(** *** Powers of two *)

Lemma pow2_pos (z : Z) : 0 < pow2 z.
Proof. apply Qpower_0_lt. reflexivity. Qed.

Lemma pow2_le (x y : Z) : (x <= y)%Z -> pow2 x <= pow2 y.
Proof. intro H. apply Qpower_le_compat_l; [exact H | discriminate]. Qed.

Lemma pow2_lt (x y : Z) : (x < y)%Z -> pow2 x < pow2 y.
Proof. intro H. apply Qpower_lt_compat_l; [exact H | reflexivity]. Qed.

Lemma pow2_lt_inv (x y : Z) : pow2 x < pow2 y -> (x < y)%Z.
Proof. intro H. apply (Qpower_lt_compat_l_inv 2); [exact H | reflexivity]. Qed.

Lemma pow2_add (x y : Z) : pow2 (x + y) == pow2 x * pow2 y.
Proof. apply Qpower_plus. discriminate. Qed.

Lemma pow2_Z (z : Z) : (0 <= z)%Z -> pow2 z == inject_Z (2 ^ z).
Proof. intro H. unfold pow2. rewrite Zpower_Qpower by exact H. reflexivity. Qed.

Lemma pow2_succ (z : Z) : pow2 (z + 1) == 2 * pow2 z.
Proof. rewrite pow2_add. unfold pow2 at 2. simpl. ring. Qed.

Lemma pow2_sub (x y : Z) : pow2 (x - y) == pow2 x / pow2 y.
Proof.
  assert (H : pow2 x == pow2 (x - y) * pow2 y).
  { rewrite <- pow2_add. replace (x - y + y)%Z with x by ring. reflexivity. }
  rewrite H. field. intro E. pose proof (pow2_pos y). lra.
Qed.

(** *** The exponent *)

Lemma Q_as_fraction (a : Q) : a == inject_Z (Qnum a) / inject_Z (Zpos (Qden a)).
Proof.
  destruct a as [n d]. simpl. unfold Qeq, Qdiv, Qmult, Qinv, inject_Z. simpl.
  ring.
Qed.

Lemma floorLog2_spec (a : Q) :
  0 < a -> pow2 (floorLog2 a) <= a /\ a < pow2 (floorLog2 a + 1).
Proof.
  intro Ha.
  set (n := Qnum a). set (d := Zpos (Qden a)).
  assert (Hn : (0 < n)%Z).
  { destruct a as [n' d']. unfold Qlt in Ha. simpl in *. subst n. simpl. lia. }
  assert (Hd : (0 < d)%Z) by (subst d; lia).
  destruct (Z.log2_spec n Hn) as [Hn1 Hn2].
  destruct (Z.log2_spec d Hd) as [Hd1 Hd2].
  set (ln := Z.log2 n) in *. set (ld := Z.log2 d) in *.
  assert (Hln : (0 <= ln)%Z) by apply Z.log2_nonneg.
  assert (Hld : (0 <= ld)%Z) by apply Z.log2_nonneg.
  assert (Qn1 : pow2 ln <= inject_Z n).
  { rewrite pow2_Z by exact Hln. rewrite <- Zle_Qle. exact Hn1. }
  assert (Qn2 : inject_Z n < 2 * pow2 ln).
  { rewrite <- pow2_succ. rewrite pow2_Z by lia. rewrite <- Zlt_Qlt.
    replace (ln + 1)%Z with (Z.succ ln) by lia. exact Hn2. }
  assert (Qd1 : pow2 ld <= inject_Z d).
  { rewrite pow2_Z by exact Hld. rewrite <- Zle_Qle. exact Hd1. }
  assert (Qd2 : inject_Z d < 2 * pow2 ld).
  { rewrite <- pow2_succ. rewrite pow2_Z by lia. rewrite <- Zlt_Qlt.
    replace (ld + 1)%Z with (Z.succ ld) by lia. exact Hd2. }
  assert (Qd : 0 < inject_Z d) by (change 0 with (inject_Z 0); rewrite <- Zlt_Qlt; exact Hd).
  pose proof (pow2_pos ln) as Pn. pose proof (pow2_pos ld) as Pd.
  assert (Ea : a * inject_Z d == inject_Z n).
  { rewrite (Q_as_fraction a) at 1. fold n d. field. lra. }
  assert (E0 : pow2 (ln - ld) * pow2 ld == pow2 ln).
  { rewrite <- pow2_add. replace (ln - ld + ld)%Z with ln by ring. reflexivity. }
  pose proof (pow2_pos (ln - ld)) as P0.
  (* pow2 (e0 - 1) < a < pow2 (e0 + 1) *)
  assert (Hlow : pow2 (ln - ld - 1) < a).
  { assert (E1 : 2 * pow2 (ln - ld - 1) == pow2 (ln - ld)).
    { rewrite <- pow2_succ. replace (ln - ld - 1 + 1)%Z with (ln - ld)%Z by ring.
      reflexivity. }
    apply Qnot_le_lt. intro Hle.
    (* a <= p/2,  a*d = n >= pn = p*pd, d < 2 pd  *)
    assert (a * inject_Z d <= pow2 (ln - ld - 1) * inject_Z d).
    { apply Qmult_le_compat_r; lra. }
    assert (pow2 (ln - ld - 1) * inject_Z d < pow2 (ln - ld - 1) * (2 * pow2 ld)).
    { apply Qmult_lt_l; [apply pow2_pos | exact Qd2]. }
    assert (pow2 (ln - ld - 1) * (2 * pow2 ld) == pow2 ln).
    { rewrite <- E0, <- E1. ring. }
    lra. }
  assert (Hhigh : a < pow2 (ln - ld + 1)).
  { apply Qnot_le_lt. intro Hle.
    assert (pow2 (ln - ld + 1) * inject_Z d <= a * inject_Z d).
    { apply Qmult_le_compat_r; lra. }
    assert (pow2 (ln - ld + 1) * pow2 ld <= pow2 (ln - ld + 1) * inject_Z d).
    { apply Qmult_le_l; [apply pow2_pos | exact Qd1]. }
    assert (pow2 (ln - ld + 1) * pow2 ld == 2 * pow2 ln).
    { rewrite pow2_succ, <- E0. ring. }
    lra. }
  unfold floorLog2. fold n d ln ld.
  destruct (Qltb a (pow2 (ln - ld))) eqn:T.
  - apply Qltb_lt in T. split; [lra|].
    replace (ln - ld - 1 + 1)%Z with (ln - ld)%Z by ring. exact T.
  - apply Qltb_ge in T. split; assumption.
Qed.

Lemma floorLog2_unique (a : Q) (e : Z) :
  pow2 e <= a -> a < pow2 (e + 1) -> floorLog2 a = e.
Proof.
  intros H1 H2.
  assert (Ha : 0 < a) by (pose proof (pow2_pos e); lra).
  destruct (floorLog2_spec a Ha) as [S1 S2].
  assert (floorLog2 a < e + 1)%Z by (apply pow2_lt_inv; lra).
  assert (e < floorLog2 a + 1)%Z by (apply pow2_lt_inv; lra).
  lia.
Qed.

Lemma floorLog2_le (a b : Q) : 0 < a -> a <= b -> (floorLog2 a <= floorLog2 b)%Z.
Proof.
  intros Ha Hab.
  destruct (floorLog2_spec a Ha) as [A1 A2].
  destruct (floorLog2_spec b ltac:(lra)) as [B1 B2].
  assert (floorLog2 a < floorLog2 b + 1)%Z by (apply pow2_lt_inv; lra).
  lia.
Qed.

(** *** The nearest integer *)

Lemma nearestEven_cases (x : Q) :
  let f := Qfloor x in
  inject_Z f <= x /\ x < inject_Z f + 1 /\
  ((x - inject_Z f < 1#2 /\ nearestEven x = f)
   \/ ((1#2) < x - inject_Z f /\ nearestEven x = (f + 1)%Z)
   \/ (x - inject_Z f == 1#2 /\ nearestEven x = if Z.even f then f else (f + 1)%Z)).
Proof.
  intro f. pose proof (Qfloor_le x) as H1. pose proof (Qlt_floor x) as H2.
  fold f in H1, H2. rewrite inject_Z_plus in H2.
  split; [exact H1|]. split; [exact H2|].
  unfold nearestEven. fold f.
  destruct (Qcompare (x - inject_Z f) (1 # 2)) eqn:C.
  - right. right. apply Qeq_alt in C. split; [exact C | reflexivity].
  - left. apply Qlt_alt in C. split; [exact C | reflexivity].
  - right. left. apply Qgt_alt in C. split; [exact C | reflexivity].
Qed.

Lemma nearestEven_le (x y : Q) : x <= y -> (nearestEven x <= nearestEven y)%Z.
Proof.
  intro Hxy.
  pose proof (Qfloor_resp_le x y Hxy) as Hf.
  destruct (nearestEven_cases x) as (X1 & X2 & X3).
  destruct (nearestEven_cases y) as (Y1 & Y2 & Y3).
  cbv zeta in *.
  destruct (Z.eq_dec (Qfloor x) (Qfloor y)) as [E|E].
  - rewrite E in *.
    destruct X3 as [[Xa ->]|[[Xa ->]|[Xa ->]]], Y3 as [[Ya ->]|[[Ya ->]|[Ya ->]]];
      try lia; try lra; destruct (Z.even (Qfloor y)); lia.
  - assert (Qfloor x + 1 <= Qfloor y)%Z by lia.
    assert (nearestEven x <= Qfloor x + 1)%Z.
    { destruct X3 as [[_ ->]|[[_ ->]|[_ ->]]]; try lia.
      destruct (Z.even (Qfloor x)); lia. }
    assert (Qfloor y <= nearestEven y)%Z.
    { destruct Y3 as [[_ ->]|[[_ ->]|[_ ->]]]; try lia.
      destruct (Z.even (Qfloor y)); lia. }
    lia.
Qed.

Lemma nearestEven_comp (x y : Q) : x == y -> nearestEven x = nearestEven y.
Proof.
  intro E. apply Z.le_antisymm; apply nearestEven_le; lra.
Qed.

Lemma nearestEven_Z (z : Z) : nearestEven (inject_Z z) = z.
Proof.
  destruct (nearestEven_cases (inject_Z z)) as (X1 & X2 & X3).
  cbv zeta in *. rewrite Qfloor_Z in *.
  destruct X3 as [[_ ->]|[[Xa _]|[Xa _]]]; [reflexivity | lra | lra].
Qed.

(** *** Rounding a non-negative number *)

Lemma roundPos_nonneg (a : Q) : 0 <= a -> 0 <= roundPos a.
Proof.
  intro Ha. unfold roundPos.
  pose proof (pow2_pos (ulpExponent a)) as P.
  apply Qmult_le_0_compat; [|lra].
  change 0 with (inject_Z 0). rewrite <- Zle_Qle.
  rewrite <- (nearestEven_Z 0). apply nearestEven_le.
  apply Qle_shift_div_l; [exact P|].
  setoid_replace (inject_Z 0 * pow2 (ulpExponent a)) with 0 by (unfold inject_Z; ring).
  exact Ha.
Qed.

Lemma roundPos_zero (a : Q) : a == 0 -> roundPos a == 0.
Proof.
  intro E. unfold roundPos. cbv zeta.
  generalize (pow2 (ulpExponent a)). intro p.
  rewrite (nearestEven_comp _ (inject_Z 0)).
  - rewrite nearestEven_Z. unfold inject_Z. ring.
  - unfold Qdiv. rewrite E. unfold inject_Z. ring.
Qed.

Lemma onGrid_le (u : Z) (x y : Q) : x <= y -> onGrid u x <= onGrid u y.
Proof.
  intro H. unfold onGrid. pose proof (pow2_pos u) as P.
  apply Qmult_le_compat_r; [|lra].
  rewrite <- Zle_Qle. apply nearestEven_le.
  unfold Qdiv. apply Qmult_le_compat_r; [exact H|].
  apply Qlt_le_weak, Qinv_lt_0_compat, P.
Qed.

Lemma onGrid_pow2 (u k : Z) : (u <= k)%Z -> onGrid u (pow2 k) == pow2 k.
Proof.
  intro H. unfold onGrid. pose proof (pow2_pos u) as P.
  rewrite (nearestEven_comp _ (inject_Z (2 ^ (k - u)))).
  - rewrite nearestEven_Z, <- pow2_Z by lia. rewrite <- pow2_add.
    replace (k - u + u)%Z with k by ring. reflexivity.
  - rewrite <- pow2_Z by lia. rewrite pow2_sub. reflexivity.
Qed.

Lemma onGrid_multiple (u z : Z) : onGrid u (inject_Z z * pow2 u) == inject_Z z * pow2 u.
Proof.
  unfold onGrid. pose proof (pow2_pos u) as P.
  rewrite (nearestEven_comp _ (inject_Z z)).
  - rewrite nearestEven_Z. reflexivity.
  - field. lra.
Qed.

Lemma ulpExponent_le (a b : Q) : 0 < a -> a <= b -> (ulpExponent a <= ulpExponent b)%Z.
Proof.
  intros Ha Hab. unfold ulpExponent.
  pose proof (floorLog2_le a b Ha Hab). lia.
Qed.

Lemma roundPos_le (a b : Q) : 0 <= a -> a <= b -> roundPos a <= roundPos b.
Proof.
  intros Ha Hab.
  destruct (Qeq_dec a 0) as [Ea|Na].
  { rewrite (roundPos_zero a Ea). apply roundPos_nonneg. lra. }
  assert (Pa : 0 < a) by lra.
  assert (Pb : 0 < b) by lra.
  pose proof (ulpExponent_le a b Pa Hab) as Hu.
  change (roundPos a) with (onGrid (ulpExponent a) a).
  change (roundPos b) with (onGrid (ulpExponent b) b).
  destruct (Z.eq_dec (ulpExponent a) (ulpExponent b)) as [E|E].
  { rewrite E. apply onGrid_le. exact Hab. }
  destruct (floorLog2_spec a Pa) as [A1 A2].
  destruct (floorLog2_spec b Pb) as [B1 B2].
  unfold ulpExponent in *.
  set (ea := floorLog2 a) in *. set (eb := floorLog2 b) in *.
  set (ua := Z.max (ea - 52) (-1074)) in *.
  set (ub := Z.max (eb - 52) (-1074)) in *.
  set (k := Z.max (ea + 1) ua).
  assert (Hk : (k <= eb)%Z) by lia.
  assert (Hak : a <= pow2 k).
  { apply Qle_trans with (pow2 (ea + 1)); [lra | apply pow2_le; lia]. }
  apply Qle_trans with (pow2 k).
  - rewrite <- (onGrid_pow2 ua k) by lia. apply onGrid_le. exact Hak.
  - apply Qle_trans with (pow2 eb); [apply pow2_le; exact Hk|].
    rewrite <- (onGrid_pow2 ub eb) by lia. apply onGrid_le. exact B1.
Qed.

Lemma roundPos_comp (a b : Q) : 0 <= a -> a == b -> roundPos a == roundPos b.
Proof.
  intros Ha E. apply Qle_antisym; apply roundPos_le; lra.
Qed.

(** *** Rounding is monotone, odd and exact on the integers up to 2^53 *)

Lemma round64_nonneg (q : Q) : 0 <= q -> round64 q = roundPos q.
Proof.
  intro H. unfold round64.
  destruct (Qltb q 0) eqn:T; [|reflexivity].
  apply Qltb_lt in T. lra.
Qed.

Lemma round64_neg (q : Q) : q < 0 -> round64 q = - roundPos (- q).
Proof.
  intro H. unfold round64.
  destruct (Qltb q 0) eqn:T; [reflexivity|].
  apply Qltb_ge in T. lra.
Qed.

Lemma round64_le (x y : Q) : x <= y -> round64 x <= round64 y.
Proof.
  intro H.
  destruct (Qlt_le_dec x 0) as [Hx|Hx], (Qlt_le_dec y 0) as [Hy|Hy].
  - rewrite (round64_neg x Hx), (round64_neg y Hy).
    pose proof (roundPos_le (- y) (- x) ltac:(lra) ltac:(lra)). lra.
  - rewrite (round64_neg x Hx), (round64_nonneg y Hy).
    pose proof (roundPos_nonneg (- x) ltac:(lra)).
    pose proof (roundPos_nonneg y Hy). lra.
  - lra.
  - rewrite (round64_nonneg x Hx), (round64_nonneg y Hy).
    apply roundPos_le; assumption.
Qed.

Lemma round64_comp (x y : Q) : x == y -> round64 x == round64 y.
Proof.
  intro E. apply Qle_antisym; apply round64_le; lra.
Qed.

Lemma round64_opp (x : Q) : round64 (- x) == - round64 x.
Proof.
  destruct (Qlt_le_dec x 0) as [Hx|Hx].
  - rewrite (round64_neg x Hx), (round64_nonneg (- x)) by lra. ring.
  - destruct (Qeq_dec x 0) as [E|N].
    + rewrite (round64_nonneg x Hx), (round64_nonneg (- x)) by lra.
      rewrite (roundPos_zero x E), (roundPos_zero (- x)) by lra. ring.
    + rewrite (round64_nonneg x Hx), (round64_neg (- x)) by lra.
      rewrite (roundPos_comp (- - x) x); [reflexivity | lra | ring].
Qed.

Lemma roundPos_Z (z : Z) : (0 <= z <= 2 ^ 53)%Z -> roundPos (inject_Z z) == inject_Z z.
Proof.
  intros [H0 H1].
  destruct (Z.eq_dec z 0) as [->|Nz]; [apply roundPos_zero; reflexivity|].
  assert (Pz : 0 < inject_Z z).
  { change 0 with (inject_Z 0). rewrite <- Zlt_Qlt. lia. }
  destruct (floorLog2_spec _ Pz) as [A1 A2].
  change (roundPos (inject_Z z)) with (onGrid (ulpExponent (inject_Z z)) (inject_Z z)).
  unfold ulpExponent.
  set (e := floorLog2 (inject_Z z)) in *.
  assert (He : (e <= 53)%Z).
  { assert (e < 53 + 1)%Z; [|lia]. apply pow2_lt_inv.
    apply Qle_lt_trans with (inject_Z z); [exact A1|].
    apply Qle_lt_trans with (pow2 53); [|apply pow2_lt; lia].
    rewrite pow2_Z by lia. rewrite <- Zle_Qle. exact H1. }
  set (u := Z.max (e - 52) (-1074)).
  destruct (Z.le_gt_cases u 0) as [Hu|Hu].
  - (* the grid is finer than the integers *)
    assert (E : inject_Z z == inject_Z (z * 2 ^ (- u)) * pow2 u).
    { rewrite inject_Z_mult, <- pow2_Z by lia.
      rewrite <- Qmult_assoc, <- pow2_add.
      replace (- u + u)%Z with 0%Z by ring. unfold pow2. simpl. ring. }
    unfold onGrid.
    rewrite (nearestEven_comp _ (inject_Z (z * 2 ^ (- u)))).
    + rewrite nearestEven_Z. symmetry. exact E.
    + pose proof (pow2_pos u). rewrite E. field. lra.
  - (* e = 53, that is z = 2^53 *)
    assert (e = 53%Z) by lia.
    assert (z = 2 ^ 53)%Z.
    { apply Z.le_antisymm; [exact H1|].
      rewrite Zle_Qle, <- (pow2_Z 53) by lia. rewrite <- H. exact A1. }
    assert (Ez : inject_Z z == pow2 53) by (subst z; rewrite pow2_Z by lia; reflexivity).
    unfold onGrid. rewrite (nearestEven_comp _ (pow2 53 / pow2 u)).
    + rewrite Ez. apply onGrid_pow2. lia.
    + rewrite Ez. reflexivity.
Qed.

Lemma round64_Z (z : Z) : (Z.abs z <= 2 ^ 53)%Z -> round64 (inject_Z z) == inject_Z z.
Proof.
  intro H.
  destruct (Z.lt_ge_cases z 0) as [Hz|Hz].
  - rewrite round64_neg by (change 0 with (inject_Z 0); rewrite <- Zlt_Qlt; exact Hz).
    rewrite <- inject_Z_opp, roundPos_Z by lia.
    rewrite inject_Z_opp. ring.
  - rewrite round64_nonneg by (change 0 with (inject_Z 0); rewrite <- Zle_Qle; exact Hz).
    apply roundPos_Z. lia.
Qed.

(** ** Ascending arrays *)

Lemma ascendingb_tail (x : Q) (l : list Q) :
  ascendingb (x :: l) = true -> ascendingb l = true.
Proof.
  destruct l as [|y l]; [reflexivity|].
  cbn [ascendingb]. intro H. apply andb_true_iff in H. apply H.
Qed.

Lemma ascendingb_head (x : Q) (l : list Q) (j : nat) :
  ascendingb (x :: l) = true -> (j < length l)%nat -> x <= nth j l 0.
Proof.
  revert x j. induction l as [|y l IH]; intros x j H Hj; [cbn in Hj; lia|].
  cbn [ascendingb] in H. apply andb_true_iff in H. destruct H as [Hxy Hl].
  to_Q. destruct j as [|j]; [exact Hxy|].
  cbn [nth]. cbn [length] in Hj.
  apply Qle_trans with y; [exact Hxy|]. apply IH; [exact Hl|lia].
Qed.

Lemma ascendingb_nth (l : list Q) (i j : nat) :
  ascendingb l = true -> (i <= j)%nat -> (j < length l)%nat ->
  nth i l 0 <= nth j l 0.
Proof.
  revert i j. induction l as [|x l IH]; intros i j H Hij Hj; [cbn in Hj; lia|].
  destruct i as [|i].
  - destruct j as [|j]; [apply Qle_refl|].
    cbn [nth]. cbn [length] in Hj. apply (ascendingb_head x l j H). lia.
  - destruct j as [|j]; [lia|].
    cbn [nth]. cbn [length] in Hj.
    apply IH; [exact (ascendingb_tail _ _ H)|lia|lia].
Qed.

(** ** sortedIndex *)

Lemma div2_between (low high : nat) :
  (low < high)%nat -> (low <= Nat.div2 (low + high) < high)%nat.
Proof.
  intro H. rewrite Nat.div2_div.
  pose proof (Nat.div_mod_eq (low + high) 2) as E.
  pose proof (Nat.mod_upper_bound (low + high) 2). lia.
Qed.

(** Once the fuel covers the interval, more fuel changes nothing: the loop
    has ended on its own test. *)
Lemma sortedIndex_loop_fuel (fuel fuel' : nat) (array : list Q) (value : Q)
    (low high : nat) :
  (high - low <= fuel)%nat -> (high - low <= fuel')%nat ->
  sortedIndex_loop fuel array value low high
  = sortedIndex_loop fuel' array value low high.
Proof.
  revert fuel' low high.
  induction fuel as [|fuel IH]; intros fuel' low high H H'.
  - destruct fuel' as [|fuel']; [reflexivity|].
    cbn [sortedIndex_loop].
    destruct (Nat.ltb_spec low high); [lia|reflexivity].
  - destruct fuel' as [|fuel'].
    + cbn [sortedIndex_loop].
      destruct (Nat.ltb_spec low high); [lia|reflexivity].
    + cbn [sortedIndex_loop].
      destruct (Nat.ltb_spec low high) as [Hlt|]; [|reflexivity].
      pose proof (div2_between low high Hlt).
      cbv zeta. destruct (Qltb _ _); apply IH; lia.
Qed.

(** On an ascending array the binary search returns the insertion point:
    everything before it is below [value], nothing from it on is. *)
Lemma sortedIndex_loop_spec (fuel : nat) (array : list Q) (value : Q)
    (low high : nat) :
  ascendingb array = true ->
  (low <= high <= length array)%nat -> (high - low <= fuel)%nat ->
  (forall i, (i < low)%nat -> nth i array 0 < value) ->
  (forall i, (high <= i < length array)%nat -> value <= nth i array 0) ->
  let m := sortedIndex_loop fuel array value low high in
  (m <= length array)%nat
  /\ (forall i, (i < m)%nat -> nth i array 0 < value)
  /\ (forall i, (m <= i < length array)%nat -> value <= nth i array 0).
Proof.
  intro Hs. revert low high.
  induction fuel as [|fuel IH]; intros low high Hb Hf Hlo Hhi.
  - cbn. assert (low = high) by lia. subst high.
    repeat split; [lia|exact Hlo|exact Hhi].
  - cbn [sortedIndex_loop].
    destruct (Nat.ltb_spec low high) as [Hlt|Hge].
    + pose proof (div2_between low high Hlt) as Hmid.
      cbv zeta. set (mid := Nat.div2 (low + high)) in *.
      destruct (Qltb (nth mid array 0) value) eqn:E; to_Q.
      * apply IH; [lia|lia| |exact Hhi].
        intros i Hi.
        apply Qle_lt_trans with (nth mid array 0); [|exact E].
        apply ascendingb_nth; [exact Hs|lia|lia].
      * apply IH; [lia|lia|exact Hlo|].
        intros i Hi.
        apply Qle_trans with (nth mid array 0); [exact E|].
        apply ascendingb_nth; [exact Hs|lia|lia].
    + assert (low = high) by lia. subst high.
      repeat split; [lia|exact Hlo|exact Hhi].
Qed.

Lemma sortedIndex_spec (array : list Q) (value : Q) :
  ascendingb array = true ->
  let m := sortedIndex array value in
  (m <= length array)%nat
  /\ (forall i, (i < m)%nat -> nth i array 0 < value)
  /\ (forall i, (m <= i < length array)%nat -> value <= nth i array 0).
Proof.
  intro Hs. unfold sortedIndex.
  apply sortedIndex_loop_spec; [exact Hs|lia|lia| |]; intros i Hi; lia.
Qed.

(** Whatever the array, the index found is within [0, length]. *)
Lemma sortedIndex_loop_bound (fuel : nat) (array : list Q) (value : Q)
    (low high : nat) :
  (low <= high)%nat ->
  (low <= sortedIndex_loop fuel array value low high <= high)%nat.
Proof.
  revert low high. induction fuel as [|fuel IH]; intros low high H.
  - cbn. lia.
  - cbn [sortedIndex_loop].
    destruct (Nat.ltb_spec low high) as [Hlt|Hge]; [|lia].
    pose proof (div2_between low high Hlt) as Hmid. cbv zeta.
    destruct (Qltb _ _).
    + specialize (IH (Nat.div2 (low + high) + 1)%nat high). lia.
    + specialize (IH low (Nat.div2 (low + high))). lia.
Qed.

Lemma sortedIndex_bound (array : list Q) (value : Q) :
  (sortedIndex array value <= length array)%nat.
Proof.
  unfold sortedIndex.
  pose proof (sortedIndex_loop_bound (length array) array value 0 (length array)).
  lia.
Qed.

(** ** _.min *)

Lemma min_loop_in (f : nat -> Q) (l : list nat) (c : Q) (r : nat) :
  min_loop f l c r = r \/ In (min_loop f l c r) l.
Proof.
  revert c r. induction l as [|x l IH]; intros c r; cbn [min_loop].
  - now left.
  - destruct (Qltb (f x) c).
    + destruct (IH (f x) x) as [E|Hin]; right; [left; congruence|right; exact Hin].
    + destruct (IH c r) as [E|Hin]; [left; exact E|right; right; exact Hin].
Qed.

(** The result is a least element: no element, and not the starting one,
    has a smaller value. *)
Lemma min_loop_least (f : nat -> Q) (l : list nat) (c : Q) (r : nat) :
  c == f r ->
  f (min_loop f l c r) <= c
  /\ forall x, In x l -> f (min_loop f l c r) <= f x.
Proof.
  revert c r. induction l as [|x l IH]; intros c r Hc; cbn [min_loop].
  - split; [rewrite Hc; apply Qle_refl|intros x []].
  - destruct (Qltb (f x) c) eqn:E; to_Q.
    + destruct (IH (f x) x (Qeq_refl _)) as [H1 H2]. split; [lra|].
      intros y [<-|Hy]; [exact H1|exact (H2 y Hy)].
    + destruct (IH c r Hc) as [H1 H2]. split; [exact H1|].
      intros y [<-|Hy]; [lra|exact (H2 y Hy)].
Qed.

(** The starting element is given up only for a strictly smaller one. *)
Lemma min_loop_start (f : nat -> Q) (l : list nat) (c : Q) (r : nat) :
  min_loop f l c r = r \/ f (min_loop f l c r) < c.
Proof.
  revert c r. induction l as [|x l IH]; intros c r; cbn [min_loop].
  - now left.
  - destruct (Qltb (f x) c) eqn:E; to_Q.
    + right. destruct (min_loop_least f l (f x) x (Qeq_refl _)) as [H1 _]. lra.
    + apply IH.
Qed.

(** Rounding to nearest at most doubles a non-negative number. *)
Lemma nearestEven_double (t : Q) : 0 <= t -> inject_Z (nearestEven t) <= 2 * t.
Proof.
  intro Ht.
  destruct (nearestEven_cases t) as (X1 & X2 & X3). cbv zeta in *.
  assert (0 <= Qfloor t)%Z as Hf.
  { rewrite <- (Qfloor_Z 0). apply Qfloor_resp_le. exact Ht. }
  assert (0 <= inject_Z (Qfloor t)) as Hq.
  { change 0 with (inject_Z 0). rewrite <- Zle_Qle. exact Hf. }
  destruct X3 as [[Xa ->]|[[Xa ->]|[Xa ->]]].
  - lra.
  - rewrite inject_Z_plus. change (inject_Z 1) with 1. lra.
  - destruct (Z.even (Qfloor t)); [lra|].
    rewrite inject_Z_plus. change (inject_Z 1) with 1. lra.
Qed.

Lemma round64_double (x : Q) : 0 <= x -> round64 x <= 2 * x.
Proof.
  intro Hx. rewrite round64_nonneg by exact Hx. unfold roundPos. cbv zeta.
  pose proof (pow2_pos (ulpExponent x)) as P.
  set (p := pow2 (ulpExponent x)) in *.
  assert (0 <= x / p) as Ht by (apply Qle_shift_div_l; lra).
  pose proof (nearestEven_double (x / p) Ht) as H.
  apply Qle_trans with (2 * (x / p) * p).
  - apply Qmult_le_compat_r; lra.
  - assert (2 * (x / p) * p == 2 * x) as -> by (field; lra). apply Qle_refl.
Qed.

Lemma round64_zero (x : Q) : x == 0 -> round64 x == 0.
Proof.
  intro E. rewrite (round64_comp x (inject_Z 0)) by (rewrite E; reflexivity).
  rewrite round64_Z by (cbn; lia). reflexivity.
Qed.

(** *** The range of the doubles *)

Lemma round64_maxDouble : round64 maxDouble == maxDouble.
Proof. vm_compute. reflexivity. Qed.

Lemma maxDouble_radius : matchingThreshold < maxDouble.
Proof. vm_compute. reflexivity. Qed.

Lemma maxDouble_large : 1 <= maxDouble.
Proof. vm_compute. discriminate. Qed.

(** A result within the range of the doubles is delivered rounded. *)
Lemma toDouble_Fin (q : Q) :
  Qabs (round64 q) <= maxDouble -> toDouble q = Fin (round64 q).
Proof.
  intro H. unfold toDouble. cbv zeta.
  destruct (Qgtb (Qabs (round64 q)) maxDouble) eqn:E; [|reflexivity].
  to_Q. lra.
Qed.

(** *** Against the machine's doubles *)

(** On these pairs (inexact results, ties, cancellation, subnormal results)
    the three operations agree with the hardware arithmetic of Rocq's
    primitive floats. *)
Example round64_is_the_machine_rounding :
  forallb agrees
    [ (0x1.999999999999ap-4, 0x1.9033333333333p+6);
      (0x1.9p+7, 0x1.9033333333333p+6);
      (0x1p+0, 0x1p-60);
      (0x1.92p+7, 0x1.fffffffffffffp-1);
      (0x1.8p+1, 0x1.999999999999ap-1);
      (0x1p+3, 0x1.4p+3);
      (0x1p+0, 0x1.8p+1);
      (0x1p-1074, 0x1p+3);
      (0x1.8p-1073, 0x1p+1);
      (0x1.4p-1072, 0x1p+2);
      (0x1.fffffffffffffp+0, 0x1.fffffffffffffp+0);
      (0x1.0000000000001p+0, 0x1.0000000000001p+0);
      (0x1p+53, (-0x1p+0));
      (0x1p+53, (-0x1.8p+1));
      (0x1.5555555555555p-2, 0x1.c71c71c71c71cp-4);
      ((-0x1.3333333333333p-2), 0x1.6666666666666p-1);
      (0x1.b8p+8, 0x1.5888p+15);
      (0x1.2345678p-600, 0x1.fedcba98p-500) ]%float
  = true.
Proof. vm_compute. reflexivity. Qed.

(** ** The difference of two frequencies, as computed *)

Lemma sub64_comp (a a' b b' : Q) : a == a' -> b == b' -> sub64 a b == sub64 a' b'.
Proof. intros Ea Eb. unfold sub64. apply round64_comp. lra. Qed.

Lemma sub64_same (a b : Q) : a == b -> sub64 a b == 0.
Proof. intro E. unfold sub64. apply round64_zero. lra. Qed.

Lemma sub64_nonneg (a b : Q) : b <= a -> 0 <= sub64 a b.
Proof.
  intro H. unfold sub64. rewrite <- (round64_zero 0) by reflexivity.
  apply round64_le. lra.
Qed.

Lemma sub64_nonpos (a b : Q) : a <= b -> sub64 a b <= 0.
Proof.
  intro H. unfold sub64. rewrite <- (round64_zero 0) by reflexivity.
  apply round64_le. lra.
Qed.

Lemma sub64_le (a b c : Q) : a <= b -> sub64 a c <= sub64 b c.
Proof. intro H. unfold sub64. apply round64_le. lra. Qed.

Lemma sub64_swap (a b : Q) : sub64 a b == - sub64 b a.
Proof.
  unfold sub64. rewrite <- round64_opp. apply round64_comp. ring.
Qed.

(** The computed distance is the same in both directions. *)
Lemma absdiff_sym (a b : Q) : Qabs (sub64 a b) == Qabs (sub64 b a).
Proof. rewrite (sub64_swap a b). apply Qabs_opp. Qed.

(** Above [c] the computed distance to [c] never decreases. *)
Lemma absdiff_above (c a b : Q) :
  c <= a -> a <= b -> Qabs (sub64 a c) <= Qabs (sub64 b c).
Proof.
  intros Hca Hab.
  rewrite (Qabs_pos (sub64 a c)) by (apply sub64_nonneg; exact Hca).
  rewrite (Qabs_pos (sub64 b c)) by (apply sub64_nonneg; lra).
  apply sub64_le. exact Hab.
Qed.

(** Below [c] it never increases. *)
Lemma absdiff_below (c a b : Q) :
  a <= b -> b <= c -> Qabs (sub64 b c) <= Qabs (sub64 a c).
Proof.
  intros Hab Hbc.
  rewrite (Qabs_neg (sub64 b c)) by (apply sub64_nonpos; exact Hbc).
  rewrite (Qabs_neg (sub64 a c)) by (apply sub64_nonpos; lra).
  pose proof (sub64_le a b c Hab). lra.
Qed.

Lemma absdiff_same (a b : Q) : a == b -> Qabs (sub64 a b) == 0.
Proof. intro E. rewrite (sub64_same a b E). reflexivity. Qed.

Lemma absdiff_comp (a a' b b' : Q) :
  a == a' -> b == b' -> Qabs (sub64 a b) == Qabs (sub64 a' b').
Proof. intros Ea Eb. rewrite (sub64_comp a a' b b' Ea Eb). reflexivity. Qed.

(** The two comparisons the tracker makes on a difference come out as they
    do when an overflowing difference is Infinity: against the radius, and
    ([current < computed] in [_.min]) against a distance within the
    radius. *)
Lemma absDifference_radius (a b : Q) :
  num_gtb (absDifference a b) (Fin matchingThreshold)
  = Qgtb (Qabs (sub64 a b)) matchingThreshold.
Proof.
  unfold absDifference, num_sub, toDouble, sub64. cbv zeta.
  destruct (Qgtb (Qabs (round64 (a - b))) maxDouble) eqn:E.
  - to_Q. pose proof maxDouble_radius.
    assert (Qgtb (Qabs (round64 (a - b))) matchingThreshold = true) as ->
      by (apply Qgtb_gt; lra).
    destruct (Qltb (round64 (a - b)) 0); reflexivity.
  - reflexivity.
Qed.

Lemma absDifference_less (a b d : Q) :
  d <= matchingThreshold ->
  num_gtb (Fin d) (absDifference a b) = Qltb (Qabs (sub64 a b)) d.
Proof.
  intro Hd. unfold absDifference, num_sub, toDouble, sub64. cbv zeta.
  destruct (Qgtb (Qabs (round64 (a - b))) maxDouble) eqn:E.
  - to_Q. pose proof maxDouble_radius.
    assert (Qltb (Qabs (round64 (a - b))) d = false) as ->
      by (apply Qltb_ge; lra).
    destruct (Qltb (round64 (a - b)) 0); reflexivity.
  - reflexivity.
Qed.

(** ** findCandidateIndex *)

Lemma withinThreshold_distance (c : Q) (l : list Q) (i : nat) :
  withinThreshold c l i = true <-> distance c l i <= matchingThreshold.
Proof. unfold withinThreshold, distance. apply Qleb_le. Qed.

(** The candidates are examined positions inside the array, all within the
    radius but possibly [m+1], which the source pushes on the test of [m]. *)
Lemma candidatesOf_examined (c : Q) (l : list Q) (k : nat) :
  In k (candidatesOf c l) ->
  examined (sortedIndex l c) k /\ (k < length l)%nat.
Proof.
  unfold candidatesOf, examined. pose proof (sortedIndex_bound l c) as Hb.
  set (m := sortedIndex l c) in *. intro H.
  repeat (apply in_app_or in H; destruct H as [H|H]).
  - destruct (Nat.ltb_spec m (length l)); cbn [andb] in H; [|destruct H].
    destruct (withinThreshold c l m); [destruct H as [<-|[]]; lia|destruct H].
  - destruct (Nat.ltb_spec 0 m); cbn [andb] in H; [|destruct H].
    destruct (withinThreshold c l (m - 1)); [destruct H as [<-|[]]; lia|destruct H].
  - destruct (Nat.ltb_spec (m + 1) (length l)); cbn [andb] in H; [|destruct H].
    destruct (withinThreshold c l m); [destruct H as [<-|[]]; lia|destruct H].
Qed.

(** The first candidate is within the radius. *)
Lemma candidatesOf_head (c : Q) (l : list Q) (k : nat) (rest : list nat) :
  candidatesOf c l = k :: rest -> distance c l k <= matchingThreshold.
Proof.
  unfold candidatesOf. set (m := sortedIndex l c).
  destruct ((m <? length l)%nat && withinThreshold c l m) eqn:E1.
  - cbn [app]. intro H. injection H as <- _.
    apply andb_true_iff in E1. now apply withinThreshold_distance.
  - destruct ((0 <? m)%nat && withinThreshold c l (m - 1)) eqn:E2.
    + cbn [app]. intro H. injection H as <- _.
      apply andb_true_iff in E2. now apply withinThreshold_distance.
    + cbn [app].
      destruct ((m + 1 <? length l)%nat && withinThreshold c l m) eqn:E3;
        [|discriminate].
      apply andb_true_iff in E3. destruct E3 as [E3 E4].
      apply Nat.ltb_lt in E3. rewrite E4, andb_true_r in E1.
      apply Nat.ltb_ge in E1. lia.
Qed.

(** What [findCandidateIndex] returns, on any array: [null] exactly when no
    candidate was pushed, and otherwise a candidate within the radius whose
    distance no candidate undercuts. *)
Lemma findCandidateIndex_candidates (c : Q) (l : list Q) :
  match findCandidateIndex c l with
  | Some k =>
      In k (candidatesOf c l)
      /\ distance c l k <= matchingThreshold
      /\ (forall i, In i (candidatesOf c l) -> distance c l k <= distance c l i)
      /\ (forall h rest, candidatesOf c l = h :: rest ->
            k = h \/ distance c l k < distance c l h)
  | None => candidatesOf c l = []
  end.
Proof.
  unfold findCandidateIndex.
  pose proof (candidatesOf_head c l) as Hhead.
  destruct (candidatesOf c l) as [|h rest]; [reflexivity|].
  cbn [length Nat.eqb lodash_min].
  specialize (Hhead h rest eq_refl).
  fold (distance c l h).
  change (fun val : nat => Qabs (sub64 (nth val l 0) c)) with (distance c l).
  destruct (min_loop_least (distance c l) rest (distance c l h) h (Qeq_refl _))
    as [H1 H2].
  repeat split.
  - destruct (min_loop_in (distance c l) rest (distance c l h) h) as [E|Hin];
      [left; symmetry; exact E|right; exact Hin].
  - lra.
  - intros i [<-|Hi]; [exact H1|exact (H2 i Hi)].
  - intros h' rest' E. injection E as <- <-.
    apply min_loop_start.
Qed.

(** On an ascending array every examined position within the radius is a
    candidate. *)
Lemma examined_candidate (c : Q) (l : list Q) (i : nat) :
  ascendingb l = true ->
  examined (sortedIndex l c) i -> (i < length l)%nat ->
  distance c l i <= matchingThreshold ->
  In i (candidatesOf c l).
Proof.
  intros Hs Hex Hi Hd.
  destruct (sortedIndex_spec l c Hs) as (Hb & Hlo & Hhi).
  unfold candidatesOf. set (m := sortedIndex l c) in *.
  destruct Hex as [E|[E|E]].
  - apply in_or_app. right. apply in_or_app. left.
    assert (i = m - 1)%nat as -> by lia.
    apply withinThreshold_distance in Hd. rewrite Hd.
    destruct (Nat.ltb_spec 0 m); [now left|lia].
  - subst i. apply in_or_app. left.
    apply withinThreshold_distance in Hd. rewrite Hd.
    destruct (Nat.ltb_spec m (length l)); [now left|lia].
  - subst i. apply in_or_app. right. apply in_or_app. right.
    assert (distance c l m <= matchingThreshold) as Hm.
    { pose proof (Hhi m ltac:(lia)) as H1.
      pose proof (ascendingb_nth l m (m + 1) Hs ltac:(lia) Hi) as H2.
      pose proof (absdiff_above c _ _ H1 H2) as H3.
      unfold distance in *. lra. }
    apply withinThreshold_distance in Hm. rewrite Hm.
    destruct (Nat.ltb_spec (m + 1) (length l)); [now left|lia].
Qed.

(** On an ascending array the index returned is nearest among the examined
    positions within the radius. *)
Lemma findCandidateIndex_nearest (c : Q) (l : list Q) (k i : nat) :
  ascendingb l = true -> findCandidateIndex c l = Some k ->
  examined (sortedIndex l c) i -> (i < length l)%nat ->
  distance c l i <= matchingThreshold ->
  distance c l k <= distance c l i.
Proof.
  intros Hs Hk Hex Hi Hd.
  pose proof (findCandidateIndex_candidates c l) as Hf. rewrite Hk in Hf.
  destruct Hf as (_ & _ & Hmin & _). apply Hmin.
  now apply examined_candidate.
Qed.

(** A tie leaves the insertion point as the result. *)
Lemma findCandidateIndex_tie (c : Q) (l : list Q) (k i : nat) :
  ascendingb l = true -> findCandidateIndex c l = Some k ->
  examined (sortedIndex l c) i -> (i < length l)%nat -> i <> k ->
  distance c l i == distance c l k ->
  k = sortedIndex l c.
Proof.
  intros Hs Hfk Hex Hi Hik Htie.
  destruct (sortedIndex_spec l c Hs) as (Hb & Hlo & Hhi).
  pose proof (findCandidateIndex_candidates c l) as Hf. rewrite Hfk in Hf.
  destruct Hf as (Hin & Hd & Hmin & Hfirst).
  set (m := sortedIndex l c) in *.
  destruct (Nat.eq_dec k m) as [|Hkm]; [assumption|exfalso].
  destruct (candidatesOf_examined c l k Hin) as [Hexk Hk]. fold m in Hexk.
  (* [m] is no farther than [k]: either it is [i] itself, or [m+1] is
     one of [i], [k], and the array ascends from [c] on *)
  assert ((m < length l)%nat /\ distance c l m <= distance c l k)
    as [Hml Hle].
  { destruct (Nat.eq_dec i m) as [->|Him].
    - split; [exact Hi|rewrite Htie; apply Qle_refl].
    - assert (m + 1 < length l)%nat as Hm1 by (unfold examined in *; lia).
      assert (distance c l (m + 1) == distance c l k) as Hm1k.
      { destruct (Nat.eq_dec k (m + 1)) as [->|]; [reflexivity|].
        assert (i = m + 1)%nat as <- by (unfold examined in *; lia).
        exact Htie. }
      pose proof (Hhi m ltac:(lia)) as H1.
      pose proof (ascendingb_nth l m (m + 1) Hs ltac:(lia) Hm1) as H2.
      split; [lia|]. rewrite <- Hm1k. unfold distance.
      exact (absdiff_above c _ _ H1 H2). }
  assert (exists rest, candidatesOf c l = m :: rest) as [rest Hrest].
  { unfold candidatesOf. fold m.
    assert (withinThreshold c l m = true) as ->.
    { apply withinThreshold_distance. lra. }
    destruct (Nat.ltb_spec m (length l)); [|lia].
    cbn [andb app]. eexists. reflexivity. }
  destruct (Hfirst m rest Hrest) as [E|Hlt]; [contradiction|lra].
Qed.

(** C3 (as amended).  For every frequency [c] and every ascending array [l],
    with [m] the sorted insertion point of [c]: the search pushes only
    positions among [m-1], [m], [m+1]; when it returns an index, that index
    is an examined position within the matching radius (200) whose distance
    to [c] is minimal among the examined positions within the radius, and it
    is [m] itself whenever another examined position ties with it; it
    returns no candidate exactly when no examined position is within the
    radius.  The distance is the one the source computes and compares,
    [abs (l[i] - c)] in double precision. *)
Theorem findCandidateIndex_ascending (c : Q) (l : list Q) :
  ascendingb l = true ->
  let m := sortedIndex l c in
  ((m <= length l)%nat
   /\ (forall i, (i < m)%nat -> nth i l 0 < c)
   /\ (forall i, (m <= i < length l)%nat -> c <= nth i l 0))
  /\ (forall k, In k (candidatesOf c l) -> examined m k /\ (k < length l)%nat)
  /\ match findCandidateIndex c l with
     | Some k =>
         (examined m k /\ (k < length l)%nat)
         /\ distance c l k <= matchingThreshold
         /\ (forall i, examined m i -> (i < length l)%nat ->
               distance c l i <= matchingThreshold ->
               distance c l k <= distance c l i)
         /\ (forall i, examined m i -> (i < length l)%nat -> i <> k ->
               distance c l i == distance c l k -> k = m)
     | None =>
         forall i, examined m i -> (i < length l)%nat ->
           ~ distance c l i <= matchingThreshold
     end.
Proof.
  intros Hs m.
  split; [exact (sortedIndex_spec l c Hs)|].
  split; [intros k Hk; exact (candidatesOf_examined c l k Hk)|].
  pose proof (findCandidateIndex_candidates c l) as Hf.
  destruct (findCandidateIndex c l) as [k|] eqn:Hk.
  - destruct Hf as (Hin & Hd & _).
    split; [exact (candidatesOf_examined c l k Hin)|].
    split; [exact Hd|]. split.
    + intros i. now apply findCandidateIndex_nearest.
    + intros i. now apply findCandidateIndex_tie.
  - intros i Hex Hi Hd.
    pose proof (examined_candidate c l i Hs Hex Hi Hd) as Hin.
    rewrite Hf in Hin. destruct Hin.
Qed.

(** C3, witness: frequency 100 against the ascending array [50; 160]. *)
Lemma findCandidateIndex_ascending_witness :
  let c := 100 in
  let l := [50; 160] in
  let m := sortedIndex l c in
  ((m <= length l)%nat
   /\ (forall i, (i < m)%nat -> nth i l 0 < c)
   /\ (forall i, (m <= i < length l)%nat -> c <= nth i l 0))
  /\ (forall k, In k (candidatesOf c l) -> examined m k /\ (k < length l)%nat)
  /\ match findCandidateIndex c l with
     | Some k =>
         (examined m k /\ (k < length l)%nat)
         /\ distance c l k <= matchingThreshold
         /\ (forall i, examined m i -> (i < length l)%nat ->
               distance c l i <= matchingThreshold ->
               distance c l k <= distance c l i)
         /\ (forall i, examined m i -> (i < length l)%nat -> i <> k ->
               distance c l i == distance c l k -> k = m)
     | None =>
         forall i, examined m i -> (i < length l)%nat ->
           ~ distance c l i <= matchingThreshold
     end.
Proof.
  exact (findCandidateIndex_ascending 100 [50; 160] eq_refl).
Defined.

(** C3, counterexample to the claim as stated: in the ascending array
    [50; 150] the two neighbours of 100 are both examined, both within the
    radius and equally far (50), and the search returns index 1, the
    insertion point, not "no candidate". *)
Lemma findCandidateIndex_tie_is_a_candidate :
  ascendingb [50; 150] = true
  /\ sortedIndex [50; 150] 100 = 1%nat
  /\ candidatesOf 100 [50; 150] = [1%nat; 0%nat]
  /\ distance 100 [50; 150] 0 == distance 100 [50; 150] 1
  /\ distance 100 [50; 150] 0 <= matchingThreshold
  /\ findCandidateIndex 100 [50; 150] = Some 1%nat
  /\ findCandidateIndex 100 [50; 150] <> None.
Proof.
  repeat split; try (vm_compute; reflexivity); vm_compute; discriminate.
Qed.

(** ** The disambiguation step of trackPartials *)

Lemma findCandidateIndex_some (c : Q) (l : list Q) (i : nat) :
  ascendingb l = true ->
  examined (sortedIndex l c) i -> (i < length l)%nat ->
  distance c l i <= matchingThreshold ->
  exists k, findCandidateIndex c l = Some k.
Proof.
  intros Hs Hex Hi Hd.
  pose proof (examined_candidate c l i Hs Hex Hi Hd) as Hin.
  pose proof (findCandidateIndex_candidates c l) as Hf.
  destruct (findCandidateIndex c l) as [k|]; [now exists k|].
  rewrite Hf in Hin. destruct Hin.
Qed.

(** On an ascending array the positions before the insertion point are no
    nearer than the one just before it, and those from it on no nearer than
    the insertion point itself. *)
Lemma distance_outwards (c : Q) (l : list Q) (i : nat) :
  ascendingb l = true -> (i < length l)%nat ->
  let m := sortedIndex l c in
  ((i < m)%nat -> distance c l (m - 1) <= distance c l i)
  /\ ((m <= i)%nat -> distance c l m <= distance c l i).
Proof.
  intros Hs Hi m.
  destruct (sortedIndex_spec l c Hs) as (Hb & Hlo & Hhi). fold m in Hb, Hlo, Hhi.
  split; intro H.
  - pose proof (Hlo (m - 1)%nat ltac:(lia)) as H1.
    pose proof (ascendingb_nth l i (m - 1) Hs ltac:(lia) ltac:(lia)) as H2.
    unfold distance. apply absdiff_below; [exact H2|lra].
  - pose proof (Hhi m ltac:(lia)) as H1.
    pose proof (ascendingb_nth l m i Hs H Hi) as H2.
    unfold distance. apply absdiff_above; [exact H1|exact H2].
Qed.

(** On an ascending array the index returned is nearest in the whole
    array. *)
Lemma findCandidateIndex_global (c : Q) (l : list Q) (k i : nat) :
  ascendingb l = true -> findCandidateIndex c l = Some k ->
  (i < length l)%nat -> distance c l k <= distance c l i.
Proof.
  intros Hs Hk Hi.
  pose proof (sortedIndex_bound l c) as Hb.
  set (m := sortedIndex l c) in *.
  destruct (distance_outwards c l i Hs Hi) as [Hlow Hhigh]. fold m in Hlow, Hhigh.
  pose proof (findCandidateIndex_candidates c l) as Hf. rewrite Hk in Hf.
  destruct Hf as (_ & Hd & _).
  destruct (Nat.lt_ge_cases i m) as [Him|Him].
  - specialize (Hlow Him).
    destruct (Qlt_le_dec matchingThreshold (distance c l (m - 1)))
      as [Hout|Hinr]; [lra|].
    assert (distance c l k <= distance c l (m - 1)); [|lra].
    apply (findCandidateIndex_nearest c l k (m - 1) Hs Hk);
      [unfold examined; fold m; lia|lia|exact Hinr].
  - specialize (Hhigh Him).
    destruct (Qlt_le_dec matchingThreshold (distance c l m))
      as [Hout|Hinr]; [lra|].
    assert (distance c l k <= distance c l m); [|lra].
    apply (findCandidateIndex_nearest c l k m Hs Hk);
      [unfold examined; fold m; lia|lia|exact Hinr].
Qed.

(** The test of line 136 on the sorted snapshot.  When it succeeds, no track
    not yet processed is nearer to the candidate [p] than the track in hand,
    of frequency [c]. *)
Lemma definitiveMatch_near (c p : Q) (others : list Q) :
  ascendingb (c :: others) = true ->
  definitiveMatch c p (c :: others) = true ->
  forall u, In u others -> Qabs (sub64 c p) <= Qabs (sub64 u p).
Proof.
  intros Hs Hdef u Hu. set (l := c :: others) in *.
  unfold definitiveMatch in Hdef.
  destruct (findCandidateIndex p l) as [j|] eqn:Hj; [|discriminate].
  to_Q.
  destruct (In_nth others u 0 Hu) as (i & Hi & <-).
  assert (S i < length l)%nat as HSi by (cbn [l length]; lia).
  pose proof (findCandidateIndex_global p l j (S i) Hs Hj HSi) as Hle.
  unfold distance in Hle. cbn [l nth] in Hle. fold l in Hle.
  rewrite <- (absdiff_comp _ _ p p Hdef (Qeq_refl p)). exact Hle.
Qed.

(** It succeeds when the candidate lies at or below the track in hand, the
    lowest of the snapshot. *)
Lemma definitiveMatch_below (c p : Q) (others : list Q) :
  ascendingb (c :: others) = true ->
  Qabs (sub64 c p) <= matchingThreshold ->
  p <= c ->
  definitiveMatch c p (c :: others) = true.
Proof.
  intros Hs Hc Hpc. set (l := c :: others) in *.
  destruct (sortedIndex_spec l p Hs) as (Hb & Hlo & Hhi).
  set (m := sortedIndex l p) in *.
  assert (m = 0)%nat as Hm.
  { destruct m; [reflexivity|]. pose proof (Hlo 0%nat ltac:(lia)) as H0.
    cbn in H0. lra. }
  assert (exists rest, candidatesOf p l = 0%nat :: rest) as [rest Hrest].
  { unfold candidatesOf. fold m. rewrite Hm.
    assert (withinThreshold p l 0 = true) as ->.
    { apply withinThreshold_distance. exact Hc. }
    cbn [l length Nat.ltb Nat.leb andb app]. eexists. reflexivity. }
  pose proof (findCandidateIndex_candidates p l) as Hf.
  unfold definitiveMatch.
  destruct (findCandidateIndex p l) as [j|] eqn:Hj;
    [|rewrite Hf in Hrest; discriminate].
  destruct Hf as (Hin & _ & _ & Hfirst).
  destruct (Hfirst 0%nat rest Hrest) as [->|Hlt].
  - apply Qeqb_eq. reflexivity.
  - exfalso.
    destruct (candidatesOf_examined p l j Hin) as [_ Hjl].
    destruct (distance_outwards p l j Hs Hjl) as [_ Hhigh].
    fold m in Hhigh. rewrite Hm in Hhigh. specialize (Hhigh ltac:(lia)). lra.
Qed.

(** It succeeds as well when the track in hand is strictly nearer to the
    candidate than every track not yet processed whose frequency is not
    [c]. *)
Lemma definitiveMatch_strict (c p : Q) (others : list Q) :
  ascendingb (c :: others) = true ->
  Qabs (sub64 c p) <= matchingThreshold ->
  (forall u, In u others -> ~ u == c -> Qabs (sub64 c p) < Qabs (sub64 u p)) ->
  definitiveMatch c p (c :: others) = true.
Proof.
  intros Hs Hc Hfar.
  destruct (Qlt_le_dec c p) as [Hcp|Hpc];
    [|now apply definitiveMatch_below].
  set (l := c :: others) in *.
  destruct (sortedIndex_spec l p Hs) as (Hb & Hlo & Hhi).
  set (m := sortedIndex l p) in *.
  assert (length l = S (length others)) as Hlen by reflexivity.
  assert (forall i, (i < length l)%nat -> c <= nth i l 0) as Hge.
  { intros i Hi. apply (ascendingb_nth l 0 i Hs); [lia|exact Hi]. }
  (* the position before the insertion point holds [c] *)
  assert (0 < m)%nat as Hm.
  { destruct m; [|lia]. pose proof (Hhi 0%nat ltac:(lia)) as H0.
    cbn in H0. lra. }
  assert (nth (m - 1) l 0 == c) as Hec.
  { pose proof (Hlo (m - 1)%nat ltac:(lia)) as Hlt.
    pose proof (Hge (m - 1)%nat ltac:(lia)) as Hcm.
    destruct (Qeq_dec (nth (m - 1) l 0) c) as [|Hne]; [assumption|exfalso].
    destruct (m - 1)%nat as [|i] eqn:Em; [apply Hne; reflexivity|].
    assert (i < length others)%nat as Hi by lia.
    pose proof (Hfar (nth i others 0) (nth_In others 0 Hi) Hne) as Hu.
    change (nth (S i) l 0) with (nth i others 0) in *.
    pose proof (absdiff_below p c (nth i others 0) Hcm ltac:(lra)). lra. }
  assert (examined m (m - 1)) as Hex by (unfold examined; lia).
  assert (distance p l (m - 1) == Qabs (sub64 c p)) as Hde.
  { unfold distance. apply absdiff_comp; [exact Hec|reflexivity]. }
  destruct (findCandidateIndex_some p l (m - 1) Hs Hex ltac:(lia) ltac:(lra))
    as [j Hj].
  unfold definitiveMatch. rewrite Hj. apply Qeqb_eq.
  pose proof (findCandidateIndex_nearest p l j (m - 1) Hs Hj Hex ltac:(lia)
                ltac:(lra)) as Hle.
  destruct (Qeq_dec (nth j l 0) c) as [|Hne]; [assumption|exfalso].
  pose proof (findCandidateIndex_candidates p l) as Hf. rewrite Hj in Hf.
  destruct Hf as (Hin & _).
  destruct (candidatesOf_examined p l j Hin) as [_ Hjl].
  destruct j as [|i]; [apply Hne; reflexivity|].
  assert (i < length others)%nat as Hi by lia.
  pose proof (Hfar (nth i others 0) (nth_In others 0 Hi) Hne) as Hu.
  unfold distance in Hle, Hde.
  change (nth (S i) l 0) with (nth i others 0) in *. lra.
Qed.

(** [_.sortBy] leaves the keys in ascending order, so the snapshot the inner
    loop walks, and every tail of it, is ascending by current frequency. *)
Lemma insertBy_ascending {A : Type} (key : A -> Q) (x : A) (l : list A) :
  ascendingb (map key l) = true ->
  ascendingb (map key (insertBy key x l)) = true.
Proof.
  induction l as [|y l IH]; intro H; [reflexivity|].
  cbn [insertBy]. destruct (Qleb (key x) (key y)) eqn:E.
  - cbn [map ascendingb]. rewrite E. exact H.
  - pose proof (IH (ascendingb_tail _ _ H)) as IH'.
    destruct l as [|z l].
    + cbn. to_Q. assert (Qleb (key y) (key x) = true) as ->
        by (apply Qleb_le; lra). reflexivity.
    + cbn [insertBy] in *. cbn [map ascendingb] in H.
      apply andb_true_iff in H. destruct H as [Hyz Hzl].
      destruct (Qleb (key x) (key z)) eqn:E2.
      * cbn [map ascendingb] in *. to_Q.
        assert (Qleb (key y) (key x) = true) as -> by (apply Qleb_le; lra).
        exact IH'.
      * cbn [map ascendingb] in *. rewrite Hyz. exact IH'.
Qed.

Lemma sortBy_ascending {A : Type} (key : A -> Q) (l : list A) :
  ascendingb (map key (sortBy key l)) = true.
Proof.
  induction l as [|x l IH]; [reflexivity|].
  cbn [sortBy fold_right]. apply insertBy_ascending. exact IH.
Qed.

(** C2 (as amended).  When the track in hand, of current frequency [c], has
    found the candidate at index [k] of the pool, the tracker runs the same
    search for the candidate's frequency over the track itself followed by
    the tracks not yet processed, and the track takes [nextPeaks[k]]
    (appended to its peaks, pulled from the pool) exactly when the frequency
    found there equals [c].  On the sorted snapshot that test succeeds only
    if no track not yet processed is nearer to the candidate than the track
    in hand, and it does succeed if the track in hand is strictly nearer
    than every one of them whose frequency differs from [c]; nearer is by
    the distance the source computes, [abs (frequency - candidate)].
    Otherwise the track takes the peak at [k-1] when that index exists and
    is within the matching radius of [c], and dies (zero-amplitude peak
    appended, track finalized) when not. *)
Theorem matchTrack_disambiguation (track : Track) (later : list Track)
    (st : Matching) (k : nat) :
  findCandidateIndex (lastFreq track) (map freq (nextPeaks st)) = Some k ->
  ascendingb (map lastFreq (track :: later)) = true ->
  let c := lastFreq track in
  let nextFreqs := map freq (nextPeaks st) in
  let p := nth k nextFreqs 0 in
  let definitive := definitiveMatch c p (map lastFreq (track :: later)) in
  (definitive = true ->
   forall u, In u (map lastFreq later) ->
     Qabs (sub64 c p) <= Qabs (sub64 u p))
  /\ ((forall u, In u (map lastFreq later) -> ~ u == c ->
         Qabs (sub64 c p) < Qabs (sub64 u p))
      -> definitive = true)
  /\ matchTrack track later st
     = if definitive then takePeak st track k
       else if (1 <=? k)%nat
               && Qleb (Qabs (sub64 (nth (k - 1) nextFreqs 0) c))
                       matchingThreshold
            then takePeak st track (k - 1)
            else die st track.
Proof.
  intros Hk Hs c nextFreqs p definitive.
  assert (Qabs (sub64 c p) <= matchingThreshold) as Hcp.
  { pose proof (findCandidateIndex_candidates c nextFreqs) as Hf.
    unfold c, nextFreqs in Hf. rewrite Hk in Hf. destruct Hf as (_ & Hd & _).
    unfold distance in Hd. fold nextFreqs c p in Hd.
    rewrite absdiff_sym. exact Hd. }
  split; [|split].
  - intro Hdef. apply definitiveMatch_near; [exact Hs|exact Hdef].
  - intro Hfar. apply definitiveMatch_strict; [exact Hs|exact Hcp|exact Hfar].
  - unfold matchTrack. rewrite Hk. fold c nextFreqs p definitive.
    destruct definitive; [reflexivity|].
    destruct k as [|lowerIndex]; [reflexivity|].
    cbn [Nat.leb andb]. replace (S lowerIndex - 1)%nat with lowerIndex by lia.
    unfold Qgtb, Qltb, Qleb.
    destruct (Qle_bool (Qabs (sub64 (nth lowerIndex nextFreqs 0) c))
                matchingThreshold);
      reflexivity.
Qed.

(** C2, witness: a track at 100 before a track at 300, and the pool [120]. *)
Lemma matchTrack_disambiguation_witness :
  let track := mkTrack 0 [mkPeak (Given 0) 100 1] in
  let later := [mkTrack 0 [mkPeak (Given 1) 300 1]] in
  let st := mkMatching [mkPeak (Given 2) 120 1] [] [] in
  let k := 0%nat in
  let c := lastFreq track in
  let nextFreqs := map freq (nextPeaks st) in
  let p := nth k nextFreqs 0 in
  let definitive := definitiveMatch c p (map lastFreq (track :: later)) in
  (definitive = true ->
   forall u, In u (map lastFreq later) ->
     Qabs (sub64 c p) <= Qabs (sub64 u p))
  /\ ((forall u, In u (map lastFreq later) -> ~ u == c ->
         Qabs (sub64 c p) < Qabs (sub64 u p))
      -> definitive = true)
  /\ matchTrack track later st
     = if definitive then takePeak st track k
       else if (1 <=? k)%nat
               && Qleb (Qabs (sub64 (nth (k - 1) nextFreqs 0) c))
                       matchingThreshold
            then takePeak st track (k - 1)
            else die st track.
Proof.
  exact (matchTrack_disambiguation
           (mkTrack 0 [mkPeak (Given 0) 100 1])
           [mkTrack 0 [mkPeak (Given 1) 300 1]]
           (mkMatching [mkPeak (Given 2) 120 1] [] [])
           0%nat eq_refl eq_refl).
Defined.

(** C2, counterexample to the claim as stated.  Tracks at 100 and 300, pool
    [250]: the track at 100 finds the candidate at index 0; among the other
    tracks not yet processed the nearest to 250 is the one at 300, whose
    frequency is not 100, so the claim has the first track take the peak.
    The source searches [100; 300], finds 300, which is not 100, and the
    first track dies; the peak goes to the track at 300. *)
Lemma matchTracks_other_track_nearer :
  let T := mkTrack 0 [mkPeak (Given 0) 100 1] in
  let U := mkTrack 0 [mkPeak (Given 1) 300 1] in
  let peak := mkPeak (Given 2) 250 1 in
  let st := mkMatching [peak] [] [] in
  findCandidateIndex (lastFreq T) (map freq (nextPeaks st)) = Some 0%nat
  /\ findCandidateIndex 250 (map lastFreq [U]) = Some 0%nat
  /\ claimed_definitiveMatch (lastFreq T) 250 (map lastFreq [U]) = true
  /\ definitiveMatch (lastFreq T) 250 (map lastFreq [T; U]) = false
  /\ matchTrack T [U] st = die st T
  /\ matchTrack T [U] st <> takePeak st T 0
  /\ matchTracks [T; U] st
     = mkMatching [] [pushPeak T (fade 100)] [pushPeak U peak].
Proof.
  repeat split; try (vm_compute; reflexivity).
  intro H. vm_compute in H. discriminate H.
Qed.

(** ** Tracks are only ever extended *)

Lemma extends_refl (t : Track) : extends t t.
Proof. split; [reflexivity|]. exists []. now rewrite app_nil_r. Qed.

Lemma extends_trans (t1 t2 t3 : Track) :
  extends t1 t2 -> extends t2 t3 -> extends t1 t3.
Proof.
  intros [Hb (m1 & H1)] [Hb' (m2 & H2)]. split; [congruence|].
  exists (m1 ++ m2). rewrite H2, H1. now rewrite app_assoc.
Qed.

Lemma extends_pushPeak (t : Track) (p : Peak) : extends t (pushPeak t p).
Proof. split; [reflexivity|]. now exists [p]. Qed.

Lemma insertBy_In {A : Type} (key : A -> Q) (x y : A) (l : list A) :
  In y (insertBy key x l) <-> y = x \/ In y l.
Proof.
  induction l as [|z l IH]; cbn [insertBy].
  - cbn. intuition congruence.
  - destruct (Qleb (key x) (key z)); cbn [In] in *; [intuition congruence|].
    rewrite IH. intuition congruence.
Qed.

Lemma sortBy_In {A : Type} (key : A -> Q) (y : A) (l : list A) :
  In y (sortBy key l) <-> In y l.
Proof.
  induction l as [|x l IH]; [reflexivity|].
  cbn [sortBy fold_right]. rewrite insertBy_In. fold (sortBy key l).
  rewrite IH. cbn. intuition congruence.
Qed.

(** One step of the inner loop keeps what both arrays hold and files the
    track in hand, one peak longer, under one of them. *)
Lemma matchTrack_cases (track : Track) (later : list Track) (st : Matching) :
  matchTrack track later st = die st track
  \/ exists k, matchTrack track later st = takePeak st track k.
Proof.
  unfold matchTrack.
  destruct (findCandidateIndex _ _) as [k|]; [|now left].
  destruct (definitiveMatch _ _ _); [right; now exists k|].
  destruct k as [|k]; [now left|].
  destruct (Qgtb _ _); [now left|right; now exists k].
Qed.

Lemma matchTrack_keeps (track : Track) (later : list Track) (st : Matching)
    (t : Track) :
  In t (tracks st ++ curTracks st) ->
  In t (tracks (matchTrack track later st)
        ++ curTracks (matchTrack track later st)).
Proof.
  intro H. apply in_app_or in H.
  destruct (matchTrack_cases track later st) as [->|[k ->]];
    cbn [die takePeak tracks curTracks]; apply in_or_app;
    destruct H as [H|H]; auto using in_or_app.
Qed.

Lemma matchTrack_files (track : Track) (later : list Track) (st : Matching) :
  exists t', In t' (tracks (matchTrack track later st)
                    ++ curTracks (matchTrack track later st))
             /\ extends track t'.
Proof.
  destruct (matchTrack_cases track later st) as [->|[k ->]];
    cbn [die takePeak tracks curTracks];
    eexists; (split; [|apply extends_pushPeak]); apply in_or_app.
  - left. apply in_or_app. right. now left.
  - right. apply in_or_app. right. now left.
Qed.

Lemma matchTracks_keeps (collection : list Track) (st : Matching) (t : Track) :
  In t (tracks st ++ curTracks st) ->
  In t (tracks (matchTracks collection st)
        ++ curTracks (matchTracks collection st)).
Proof.
  revert st. induction collection as [|track later IH]; intros st H; [exact H|].
  cbn [matchTracks]. apply IH. now apply matchTrack_keeps.
Qed.

Lemma matchTracks_files (collection : list Track) (st : Matching) (t : Track) :
  In t collection ->
  exists t', In t' (tracks (matchTracks collection st)
                    ++ curTracks (matchTracks collection st))
             /\ extends t t'.
Proof.
  revert st. induction collection as [|track later IH]; intros st H; [destruct H|].
  cbn [matchTracks]. destruct H as [<-|H]; [|now apply IH].
  destruct (matchTrack_files track later st) as (t' & Hin & Hext).
  exists t'. split; [|exact Hext]. now apply matchTracks_keeps.
Qed.

(** A frame's worth of processing: every track on file is still on file,
    possibly one peak longer. *)
Lemma processFrame_extends (frameIdx : nat) (frame : list Peak)
    (tracks0 curTracks0 : list Track) (t : Track) :
  In t (tracks0 ++ curTracks0) ->
  exists t',
    In t' (fst (processFrame frameIdx frame tracks0 curTracks0)
           ++ snd (processFrame frameIdx frame tracks0 curTracks0))
    /\ extends t t'.
Proof.
  intro H. unfold processFrame. cbn [fst snd].
  set (st0 := mkMatching frame tracks0 []).
  set (snapshot := sortBy lastFreq curTracks0).
  assert (exists t', In t' (tracks (matchTracks snapshot st0)
                            ++ curTracks (matchTracks snapshot st0))
                     /\ extends t t') as (t' & Hin & Hext).
  { apply in_app_or in H. destruct H as [H|H].
    - exists t. split; [|apply extends_refl].
      apply matchTracks_keeps. cbn. rewrite app_nil_r. exact H.
    - apply matchTracks_files. now apply sortBy_In. }
  exists t'. split; [|exact Hext].
  apply in_app_or in Hin. apply in_or_app.
  destruct Hin as [Hin|Hin]; [now left|right].
  apply in_or_app. now left.
Qed.

Lemma processFrames_extends (frames : list (list Peak)) (frameIdx : nat)
    (tracks0 curTracks0 : list Track) (t : Track) :
  In t (tracks0 ++ curTracks0) ->
  exists t',
    In t' (fst (processFrames frameIdx frames tracks0 curTracks0)
           ++ snd (processFrames frameIdx frames tracks0 curTracks0))
    /\ extends t t'.
Proof.
  revert frameIdx tracks0 curTracks0 t.
  induction frames as [|frame rest IH]; intros frameIdx tracks0 curTracks0 t H.
  - exists t. split; [exact H|apply extends_refl].
  - cbn [processFrames].
    destruct (processFrame_extends frameIdx frame tracks0 curTracks0 t H)
      as (t1 & H1 & E1).
    destruct (processFrame frameIdx frame tracks0 curTracks0)
      as [tracks1 curTracks1].
    destruct (IH (S frameIdx) tracks1 curTracks1 t1 H1) as (t2 & H2 & E2).
    exists t2. split; [exact H2|exact (extends_trans _ _ _ E1 E2)].
Qed.

Lemma processFrames_app (a b : list (list Peak)) (frameIdx : nat)
    (tracks0 curTracks0 : list Track) :
  processFrames frameIdx (a ++ b) tracks0 curTracks0
  = processFrames (frameIdx + length a) b
      (fst (processFrames frameIdx a tracks0 curTracks0))
      (snd (processFrames frameIdx a tracks0 curTracks0)).
Proof.
  revert frameIdx tracks0 curTracks0.
  induction a as [|frame a IH]; intros frameIdx tracks0 curTracks0.
  - cbn. now rewrite Nat.add_0_r.
  - cbn [app processFrames length].
    destruct (processFrame frameIdx frame tracks0 curTracks0)
      as [tracks1 curTracks1].
    rewrite IH. now rewrite Nat.add_succ_r.
Qed.

(** The state after [n+1] later frames is the state after [n] of them put
    through the body of the loop, with [n] as [frameIdx]. *)
Lemma stateAfter_step (peaksFrames : list (list Peak)) (n : nat)
    (frame : list Peak) :
  nth_error peaksFrames (S n) = Some frame ->
  stateAfter peaksFrames (S n)
  = processFrame n frame (fst (stateAfter peaksFrames n))
                         (snd (stateAfter peaksFrames n)).
Proof.
  intro H. unfold stateAfter.
  assert (nth_error (tl peaksFrames) n = Some frame) as Hn.
  { destruct peaksFrames; [discriminate|exact H]. }
  assert (firstn (S n) (tl peaksFrames) = firstn n (tl peaksFrames) ++ [frame])
    as ->.
  { clear H. revert Hn. generalize (tl peaksFrames). clear peaksFrames.
    induction n as [|n IH]; intros l Hn.
    - destruct l; [discriminate|]. injection Hn as ->. reflexivity.
    - destruct l as [|x l]; [discriminate|].
      cbn [nth_error] in Hn. specialize (IH l Hn).
      change (firstn (S (S n)) (x :: l)) with (x :: firstn (S n) l).
      rewrite IH. reflexivity. }
  rewrite processFrames_app. cbn [processFrames].
  assert (length (firstn n (tl peaksFrames)) = n) as ->.
  { apply firstn_length_le. apply Nat.lt_le_incl.
    apply nth_error_Some. congruence. }
  cbn [Nat.add].
  destruct (processFrame n frame _ _). reflexivity.
Qed.

(** What [trackPartials] returns extends every track on file at any
    earlier point. *)
Lemma stateAfter_extends (peaksFrames : list (list Peak)) (n : nat) (t : Track) :
  In t (fst (stateAfter peaksFrames n) ++ snd (stateAfter peaksFrames n)) ->
  exists t', In t' (trackPartials peaksFrames) /\ extends t t'.
Proof.
  intro H.
  assert (trackPartials peaksFrames
          = fst (processFrames (0 + length (firstn n (tl peaksFrames)))
                   (skipn n (tl peaksFrames))
                   (fst (stateAfter peaksFrames n))
                   (snd (stateAfter peaksFrames n)))
            ++ snd (processFrames (0 + length (firstn n (tl peaksFrames)))
                      (skipn n (tl peaksFrames))
                      (fst (stateAfter peaksFrames n))
                      (snd (stateAfter peaksFrames n)))) as ->.
  { unfold trackPartials, stateAfter.
    rewrite <- (firstn_skipn n (tl peaksFrames)) at 1.
    rewrite processFrames_app.
    destruct (processFrames _ (skipn n (tl peaksFrames)) _ _). reflexivity. }
  now apply processFrames_extends.
Qed.

(** ** New tracks *)

(** C1 (as amended).  For every input and every frame [f > 0] of it, every
    peak of frame [f] still in the pool after all active tracks are
    processed starts a new active track whose peaks are
    [[{freq: peak.freq, amp: 0}, peak]] and whose birth is [f - 1], the index
    lodash passes for frame [f] of [_(peaksFrames).rest ()]: the
    zero-amplitude entry stands at frame [f - 1] and the real peak at frame
    [f].  The track returned for it keeps that birth and starts with these two
    entries, the second of which is its entry for frame [f]. *)
Theorem unmatched_peak_starts_track (peaksFrames : list (list Peak)) (f : nat)
    (frame : list Peak) (peak : Peak) :
  (1 <= f)%nat ->
  nth_error peaksFrames f = Some frame ->
  In peak (unmatchedAt peaksFrames f frame) ->
  In (mkTrack (f - 1) [fade (freq peak); peak]) (snd (stateAfter peaksFrames f))
  /\ exists t,
       In t (trackPartials peaksFrames)
       /\ birth t = (f - 1)%nat
       /\ (exists more, peaks t = fade (freq peak) :: peak :: more)
       /\ entryAt t (f - 1) = Some (fade (freq peak))
       /\ entryAt t f = Some peak.
Proof.
  intros Hf Hframe Hpeak.
  destruct f as [|n]; [lia|].
  unfold unmatchedAt in Hpeak.
  replace (S n - 1)%nat with n in * by lia.
  assert (In (mkTrack n [fade (freq peak); peak])
             (snd (stateAfter peaksFrames (S n)))) as Hborn.
  { rewrite (stateAfter_step peaksFrames n frame Hframe).
    destruct (stateAfter peaksFrames n) as [tracks0 curTracks0].
    unfold processFrame. cbn [fst snd].
    apply in_or_app. right.
    change (mkTrack n [fade (freq peak); peak]) with (bornAt n peak).
    now apply in_map. }
  split; [exact Hborn|].
  destruct (stateAfter_extends peaksFrames (S n)
              (mkTrack n [fade (freq peak); peak])) as (t & Hin & Hb & more & Hp).
  { apply in_or_app. now right. }
  cbn [birth peaks app] in Hb, Hp.
  exists t. split; [exact Hin|]. split; [exact Hb|].
  split; [now exists more|].
  unfold entryAt. rewrite Hb, Hp, Nat.ltb_irrefl, Nat.sub_diag.
  split; [reflexivity|].
  destruct (Nat.ltb_spec (S n) n); [lia|].
  now replace (S n - n)%nat with 1%nat by lia.
Qed.

(** C1, witness: frame 1 brings a peak at 900 that the track at 100 cannot
    take. *)
Lemma unmatched_peak_starts_track_witness :
  let peaksFrames := [[mkPeak (Given 0) 100 1]; [mkPeak (Given 1) 900 1]] in
  let peak := mkPeak (Given 1) 900 1 in
  In (mkTrack (1 - 1) [fade (freq peak); peak]) (snd (stateAfter peaksFrames 1))
  /\ exists t,
       In t (trackPartials peaksFrames)
       /\ birth t = (1 - 1)%nat
       /\ (exists more, peaks t = fade (freq peak) :: peak :: more)
       /\ entryAt t (1 - 1) = Some (fade (freq peak))
       /\ entryAt t 1 = Some peak.
Proof.
  exact (unmatched_peak_starts_track
           [[mkPeak (Given 0) 100 1]; [mkPeak (Given 1) 900 1]] 1
           [mkPeak (Given 1) 900 1] (mkPeak (Given 1) 900 1)
           (le_n 1) eq_refl (or_introl eq_refl)).
Defined.

(** C1, counterexample to the claim as stated: the peak of frame 1 is left
    unmatched and starts a track, and that track's birth is 0, not 1; no
    track returned has birth 1. *)
Lemma born_in_frame_1_has_birth_0 :
  let peak := mkPeak (Given 1) 900 1 in
  let peaksFrames := [[mkPeak (Given 0) 100 1]; [peak]] in
  unmatchedAt peaksFrames 1 [peak] = [peak]
  /\ trackPartials peaksFrames
     = [mkTrack 0 [mkPeak (Given 0) 100 1; fade 100];
        mkTrack 0 [fade 900; peak]]
  /\ map birth (trackPartials peaksFrames) = [0%nat; 0%nat].
Proof.
  repeat split; reflexivity.
Qed.

(** ** One steady peak *)

Lemma findCandidateIndex_single (v x : Q) :
  x == v -> findCandidateIndex v [x] = Some 0%nat.
Proof.
  intro H.
  assert (Qltb x v = false) as Hlt by (apply Qltb_ge; lra).
  assert (withinThreshold v [x] 0 = true) as Hw.
  { apply withinThreshold_distance. unfold distance. cbn [nth].
    rewrite (absdiff_same x v H). discriminate. }
  unfold findCandidateIndex, candidatesOf, sortedIndex.
  cbn [length sortedIndex_loop Nat.ltb Nat.leb Nat.add Nat.div2 nth].
  rewrite Hlt. cbn [Nat.leb Nat.add Nat.sub andb]. rewrite Hw.
  reflexivity.
Qed.

Lemma Ident_eqb_refl (a : Ident) : Ident_eqb a a = true.
Proof.
  destruct a; cbn; rewrite ?Nat.eqb_refl; reflexivity.
Qed.

Lemma lastFreq_pushPeak (t : Track) (p : Peak) :
  lastFreq (pushPeak t p) = freq p.
Proof. unfold lastFreq, pushPeak. cbn [peaks]. now rewrite last_last. Qed.

(** A lone track whose frequency the lone peak of the frame repeats takes
    that peak: the frame ends with the same lone track, one peak longer, and
    nothing finalized or born. *)
Lemma processFrame_steady (frameIdx : nat) (t : Track) (p : Peak) :
  freq p == lastFreq t ->
  processFrame frameIdx [p] [] [t] = ([], [pushPeak t p]).
Proof.
  intro H. unfold processFrame.
  cbn [sortBy fold_right insertBy matchTracks].
  unfold matchTrack. cbn [nextPeaks map].
  rewrite (findCandidateIndex_single (lastFreq t) (freq p) H).
  unfold definitiveMatch. cbn [nth].
  rewrite (findCandidateIndex_single (freq p) (lastFreq t)) by (symmetry; exact H).
  cbn [nth].
  assert (Qeqb (lastFreq t) (lastFreq t) = true) as -> by (apply Qeqb_eq; reflexivity).
  unfold takePeak, pull. cbn [nextPeaks tracks curTracks nth filter].
  unfold sameObject. rewrite Ident_eqb_refl. reflexivity.
Qed.

Lemma processFrames_steady (c : Q) (ps : list Peak) (frameIdx : nat) (t : Track) :
  lastFreq t == c ->
  forallb (fun p => Qeqb (freq p) c) ps = true ->
  processFrames frameIdx (map (fun p => [p]) ps) [] [t]
  = ([], [mkTrack (birth t) (peaks t ++ ps)]).
Proof.
  revert frameIdx t. induction ps as [|p ps IH]; intros frameIdx t Ht Hps.
  - cbn. rewrite app_nil_r. now destruct t.
  - cbn [forallb] in Hps. apply andb_true_iff in Hps. destruct Hps as [Hp Hps].
    to_Q. cbn [map processFrames].
    rewrite processFrame_steady by (rewrite Hp, Ht; reflexivity).
    rewrite IH; [|rewrite lastFreq_pushPeak; exact Hp|exact Hps].
    cbn [pushPeak birth peaks]. now rewrite <- app_assoc.
Qed.

(** C8.  For every N >= 1 and every input of N frames that each hold exactly
    one peak, all of one frequency and one amplitude, [trackPartials]
    returns exactly one track: its birth is 0 and its peaks are the N peaks
    of the input, in order, with no zero-amplitude death entry appended. *)
Theorem steady_peak_single_track (c a : Q) (first : Peak) (ps : list Peak) :
  forallb (fun p => Qeqb (freq p) c && Qeqb (amp p) a) (first :: ps) = true ->
  let peaksFrames := map (fun p => [p]) (first :: ps) in
  let N := length peaksFrames in
  trackPartials peaksFrames = [mkTrack 0 (first :: ps)]
  /\ (forall t, In t (trackPartials peaksFrames) ->
        birth t = 0%nat /\ length (peaks t) = N
        /\ peaks t = concat peaksFrames).
Proof.
  intros H peaksFrames N.
  assert (trackPartials peaksFrames = [mkTrack 0 (first :: ps)]) as E.
  { cbn [forallb] in H. apply andb_true_iff in H. destruct H as [Hfirst Hps].
    apply andb_true_iff in Hfirst. destruct Hfirst as [Hfirst _]. to_Q.
    unfold trackPartials, peaksFrames. cbn [map nth tl].
    rewrite (processFrames_steady c ps 0 (mkTrack 0 [first])).
    - reflexivity.
    - exact Hfirst.
    - clear -Hps. induction ps as [|p ps IH]; [reflexivity|].
      cbn [forallb] in *. apply andb_true_iff in Hps. destruct Hps as [Hp Hps].
      apply andb_true_iff in Hp. destruct Hp as [Hp _].
      rewrite Hp. cbn [andb]. now apply IH. }
  split; [exact E|].
  intros t Ht. rewrite E in Ht. destruct Ht as [<-|[]].
  cbn [birth peaks]. unfold N, peaksFrames.
  rewrite length_map. split; [reflexivity|]. split; [reflexivity|].
  clear. generalize (first :: ps). intro l.
  induction l as [|p l IH]; [reflexivity|]. cbn. now rewrite <- IH.
Qed.

(** C8, witness: three frames with one peak each at 440 Hz, amplitude 1/2. *)
Lemma steady_peak_single_track_witness :
  let first := mkPeak (Given 0) 440 (1 # 2) in
  let ps := [mkPeak (Given 1) 440 (1 # 2); mkPeak (Given 2) 440 (1 # 2)] in
  let peaksFrames := map (fun p => [p]) (first :: ps) in
  let N := length peaksFrames in
  trackPartials peaksFrames = [mkTrack 0 (first :: ps)]
  /\ (forall t, In t (trackPartials peaksFrames) ->
        birth t = 0%nat /\ length (peaks t) = N
        /\ peaks t = concat peaksFrames).
Proof.
  exact (steady_peak_single_track 440 (1 # 2)
           (mkPeak (Given 0) 440 (1 # 2))
           [mkPeak (Given 1) 440 (1 # 2); mkPeak (Given 2) 440 (1 # 2)]
           eq_refl).
Defined.

(** ** detectPeaks *)

(** The loop over the bins collects the local peaks among the bins it
    visits, in the order of the bins. *)
Lemma scanBins_filter (sampleRate threshold : Q) (idx : nat) (frame : list Q)
    (rest : list Q) :
  forall (i : nat) (prevMag curMag : Q),
  (1 <= i)%nat ->
  nth (i - 1) frame 0 = prevMag -> nth i frame 0 = curMag ->
  (forall j, (j < length rest)%nat -> nth (i + 1 + j) frame 0 = nth j rest 0) ->
  scanBins idx (div64 sampleRate (inject_Z (Z.of_nat (length frame)) * 2))
    threshold i prevMag curMag rest
  = map (peakAtBin sampleRate idx frame)
        (filter (isLocalPeak frame threshold) (seq i (length rest))).
Proof.
  induction rest as [|nextMag rest IH]; intros i prevMag curMag Hi Hp Hc Hr;
    [reflexivity|].
  cbn [scanBins length seq filter].
  assert (nth (i + 1) frame 0 = nextMag) as Hn.
  { specialize (Hr 0%nat ltac:(cbn; lia)). now rewrite Nat.add_0_r in Hr. }
  unfold isLocalPeak at 1. rewrite Hp, Hc, Hn.
  rewrite (IH (S i) curMag nextMag).
  - destruct (Qgtb curMag prevMag && Qgtb curMag nextMag && Qgtb curMag threshold);
      [|reflexivity].
    cbn [map app]. unfold peakAtBin at 2. now rewrite Hc.
  - lia.
  - now replace (S i - 1)%nat with i by lia.
  - now replace (S i) with (i + 1)%nat by lia.
  - intros j Hj. specialize (Hr (S j) ltac:(cbn; lia)).
    now replace (S i + 1 + j)%nat with (i + 1 + S j)%nat by lia.
Qed.





(** [binFactor] is not negative; a small [sampleRate] can round to 0. *)
Lemma binFactor_nonneg (sampleRate : Q) (bins : nat) :
  0 < sampleRate ->
  0 <= div64 sampleRate (inject_Z (Z.of_nat bins) * 2).
Proof.
  intro Hs. unfold div64. rewrite <- (round64_zero 0) by reflexivity.
  apply round64_le. unfold Qdiv.
  apply Qmult_le_0_compat; [lra|]. apply Qinv_le_0_compat.
  assert (inject_Z 0 <= inject_Z (Z.of_nat bins)) as H.
  { rewrite <- Zle_Qle. lia. }
  change (inject_Z 0) with 0 in H. lra.
Qed.


(** Neither [sampleRate / (bins*2)] nor [i * binFactor] overflows, for a
    positive [sampleRate] that is a double. *)
Lemma detectPeaks_in_range (sampleRate : Q) (bins i : nat) :
  0 < sampleRate -> sampleRate <= maxDouble -> (i < bins)%nat ->
  let binFactor := div64 sampleRate (inject_Z (Z.of_nat bins) * 2) in
  toDouble (sampleRate / (inject_Z (Z.of_nat bins) * 2)) = Fin binFactor
  /\ toDouble (inject_Z (Z.of_nat i) * binFactor)
     = Fin (mul64 (inject_Z (Z.of_nat i)) binFactor).
Proof.
  intros Hs Hmax Hi binFactor.
  assert (1 <= inject_Z (Z.of_nat bins)) as Hb.
  { change 1 with (inject_Z 1). rewrite <- Zle_Qle. lia. }
  assert (0 <= inject_Z (Z.of_nat i)) as Hi0.
  { change 0 with (inject_Z 0). rewrite <- Zle_Qle. lia. }
  assert (inject_Z (Z.of_nat i) <= inject_Z (Z.of_nat bins)) as Hib.
  { rewrite <- Zle_Qle. lia. }
  set (b := inject_Z (Z.of_nat bins)) in *. set (n := inject_Z (Z.of_nat i)) in *.
  set (x := sampleRate / (b * 2)) in *.
  assert (0 <= x) as Hx0 by (apply Qle_shift_div_l; lra).
  assert (x * (b * 2) == sampleRate) as Ex by (unfold x; field; lra).
  assert (0 <= binFactor) as Hbf0 by (apply binFactor_nonneg; exact Hs).
  assert (binFactor <= 2 * x) as Hbf by (apply round64_double; exact Hx0).
  assert (x <= maxDouble) as Hxm by nra.
  assert (n * binFactor <= maxDouble) as Hprod.
  { apply Qle_trans with (b * (2 * x)); [|lra].
    apply Qle_trans with (n * (2 * x)).
    - rewrite !(Qmult_comm n). apply Qmult_le_compat_r; lra.
    - apply Qmult_le_compat_r; lra. }
  split; apply toDouble_Fin.
  - fold x. rewrite Qabs_pos by (fold (div64 sampleRate (b * 2)); exact Hbf0).
    rewrite <- round64_maxDouble. apply round64_le. exact Hxm.
  - assert (0 <= n * binFactor) as H0 by (apply Qmult_le_0_compat; lra).
    rewrite Qabs_pos.
    + rewrite <- round64_maxDouble. apply round64_le. exact Hprod.
    + rewrite <- (round64_zero 0) by reflexivity. apply round64_le. exact H0.
Qed.

(** What the loop finds in a frame, before sorting and capping. *)
Lemma detectFrame_scan (sampleRate threshold : Q) (maxPeaks : option nat)
    (idx : nat) (frame : list Q) :
  detectFrame sampleRate threshold maxPeaks idx frame
  = let framePeaks :=
      sortBy freq
        (map (peakAtBin sampleRate idx frame)
             (filter (isLocalPeak frame threshold) (seq 1 (length frame - 2)))) in
    match maxPeaks with
    | Some n => lastN framePeaks n
    | None => framePeaks
    end.
Proof.
  unfold detectFrame.
  destruct frame as [|prevMag [|curMag rest]]; [reflexivity|reflexivity|].
  rewrite (scanBins_filter sampleRate threshold idx (prevMag :: curMag :: rest)
             rest 1 prevMag curMag) by (intros; first [lia|reflexivity]).
  cbn [length]. now replace (S (S (length rest)) - 2)%nat with (length rest) by lia.
Qed.

Lemma detectFrom_nth (sampleRate threshold : Q) (maxPeaks : option nat)
    (spectrogram : list (list Q)) :
  forall (start idx : nat),
  nth_error (detectFrom sampleRate threshold maxPeaks start spectrogram) idx
  = option_map (detectFrame sampleRate threshold maxPeaks (start + idx))
               (nth_error spectrogram idx).
Proof.
  induction spectrogram as [|frame rest IH]; intros start idx.
  - now destruct idx.
  - destruct idx as [|idx]; cbn [detectFrom nth_error option_map].
    + now rewrite Nat.add_0_r.
    + rewrite IH. now rewrite Nat.add_succ_r.
Qed.





Lemma detectFrom_In (sampleRate threshold : Q) (maxPeaks : option nat)
    (spectrogram : list (list Q)) (start : nat) (framePeaks : list Peak) :
  In framePeaks (detectFrom sampleRate threshold maxPeaks start spectrogram) ->
  exists idx frame,
    framePeaks = detectFrame sampleRate threshold maxPeaks idx frame.
Proof.
  revert start. induction spectrogram as [|frame rest IH]; intros start H;
    [destruct H|].
  destruct H as [<-|H]; [now exists start, frame|exact (IH _ H)].
Qed.

Lemma detectFrom_capped (sampleRate threshold : Q) (n : nat)
    (spectrogram : list (list Q)) (start : nat) :
  detectFrom sampleRate threshold (Some n) start spectrogram
  = map (fun framePeaks => lastN framePeaks n)
        (detectFrom sampleRate threshold None start spectrogram).
Proof.
  revert start. induction spectrogram as [|frame rest IH]; intro start;
    [reflexivity|].
  cbn [detectFrom map]. now rewrite IH.
Qed.

(** In an array ascending by the key, no element of a front part has a
    larger key than an element of the rest. *)
Lemma ascendingb_split {A : Type} (key : A -> Q) (front back : list A) :
  ascendingb (map key (front ++ back)) = true ->
  forall d k, In d front -> In k back -> key d <= key k.
Proof.
  induction front as [|x front IH]; intros H d k Hd Hk; [destruct Hd|].
  destruct Hd as [<-|Hd].
  - cbn [app map] in H.
    assert (In (key k) (map key (front ++ back))) as Hin.
    { apply in_map. apply in_or_app. now right. }
    destruct (In_nth _ _ 0 Hin) as (j & Hj & <-).
    now apply ascendingb_head.
  - apply IH; [exact (ascendingb_tail _ _ H)|exact Hd|exact Hk].
Qed.

(** C7.  With [maxPeaks = n], [detectPeaks] keeps of every frame's
    ascending list of peaks the last [n] entries, which are its [n] peaks of
    highest frequency (no dropped peak has a higher frequency than a kept
    one), whatever the amplitudes; a frame with at most [n] peaks is
    returned in full. *)
Theorem detectPeaks_maxPeaks (spectrogram : list (list Q))
    (sampleRate threshold : Q) (n : nat) :
  detectPeaks spectrogram sampleRate threshold (Some n)
  = map (fun framePeaks => lastN framePeaks n)
        (detectPeaks spectrogram sampleRate threshold None)
  /\ forall framePeaks,
       In framePeaks (detectPeaks spectrogram sampleRate threshold None) ->
       let kept := lastN framePeaks n in
       ascendingb (map freq framePeaks) = true
       /\ length kept = Nat.min n (length framePeaks)
       /\ (exists dropped,
             framePeaks = dropped ++ kept
             /\ forall d k, In d dropped -> In k kept -> freq d <= freq k)
       /\ ((length framePeaks <= n)%nat -> kept = framePeaks).
Proof.
  split; [apply detectFrom_capped|].
  intros framePeaks Hin kept.
  assert (ascendingb (map freq framePeaks) = true) as Hasc.
  { apply detectFrom_In in Hin. destruct Hin as (idx & frame & ->).
    apply sortBy_ascending. }
  assert (framePeaks
          = firstn (length framePeaks - n) framePeaks ++ kept) as Hsplit.
  { unfold kept, lastN. now rewrite firstn_skipn. }
  split; [exact Hasc|]. split.
  { unfold kept, lastN. rewrite length_skipn. lia. }
  split.
  - exists (firstn (length framePeaks - n) framePeaks).
    split; [exact Hsplit|].
    apply ascendingb_split. now rewrite <- Hsplit.
  - intro Hle. unfold kept, lastN.
    now replace (length framePeaks - n)%nat with 0%nat by lia.
Qed.

(** The cap looks at frequencies only: of the three peaks of this frame
    (amplitudes 9, 1 and 2 at bins 1, 3 and 5), [maxPeaks = 2] drops the
    strongest. *)
Example detectPeaks_maxPeaks_drops_strongest :
  map (map (fun p => (ident p, amp p)))
      (detectPeaks [[0; 9; 0; 1; 0; 2; 0]] 14 0 (Some 2%nat))
  = [[(AtBin 0 3, 1); (AtBin 0 5, 2)]].
Proof. vm_compute. reflexivity. Qed.

(** ** _.max *)

Lemma max_loop_cases (l : list num) (r : num) :
  max_loop l r = r \/ In (max_loop l r) l.
Proof.
  revert r. induction l as [|x l IH]; intro r; cbn [max_loop]; [now left|].
  destruct (num_gtb x r).
  - destruct (IH x) as [E|H]; right; [left; congruence|right; exact H].
  - destruct (IH r) as [E|H]; [left; exact E|right; right; exact H].
Qed.

(** The maximum is never NaN: a NaN never passes the test [value > result]. *)
Lemma max_loop_not_NaN (l : list num) (r : num) :
  r <> NaN -> max_loop l r <> NaN.
Proof.
  revert r. induction l as [|x l IH]; intros r Hr; cbn [max_loop]; [exact Hr|].
  apply IH. destruct (num_gtb x r) eqn:E; [|exact Hr].
  intros ->. discriminate.
Qed.

(** "Does not exceed" on numbers: reflexive off NaN, and transitive through a
    number that is not NaN. *)
Lemma num_gtb_irrefl (a : num) : num_gtb a a = false.
Proof.
  destruct a as [q| | |]; cbn; try reflexivity.
  apply Qgtb_le. apply Qle_refl.
Qed.

Lemma num_gtb_asym (a b : num) : num_gtb a b = true -> num_gtb b a = false.
Proof.
  destruct a as [x| | |], b as [y| | |]; cbn; try reflexivity; try discriminate.
  intro H. to_Q. apply Qgtb_le. lra.
Qed.

Lemma num_gtb_trans (a b c : num) :
  b <> NaN -> num_gtb a b = false -> num_gtb b c = false -> num_gtb a c = false.
Proof.
  destruct a as [x| | |], b as [y| | |], c as [z| | |]; cbn;
    try reflexivity; try discriminate; try congruence.
  intros _ H1 H2. to_Q. apply Qgtb_le. lra.
Qed.

(** Neither the starting value nor any element exceeds the maximum. *)
Lemma max_loop_upper (l : list num) (r : num) :
  r <> NaN ->
  num_gtb r (max_loop l r) = false
  /\ forall x, In x l -> num_gtb x (max_loop l r) = false.
Proof.
  revert r. induction l as [|y l IH]; intros r Hr; cbn [max_loop].
  - split; [apply num_gtb_irrefl|intros x []].
  - destruct (num_gtb y r) eqn:E.
    + assert (y <> NaN) as Hy by (intros ->; discriminate).
      destruct (IH y Hy) as [H1 H2]. split.
      * apply num_gtb_trans with y; [exact Hy|now apply num_gtb_asym|exact H1].
      * intros x [<-|Hx]; [exact H1|exact (H2 x Hx)].
    + destruct (IH r Hr) as [H1 H2]. split; [exact H1|].
      intros x [<-|Hx]; [|exact (H2 x Hx)].
      apply num_gtb_trans with r; [exact Hr|exact E|exact H1].
Qed.

Lemma lodash_max_upper (l : list num) (x : num) :
  In x l -> num_gtb x (lodash_max l) = false.
Proof.
  intro H. unfold lodash_max.
  now apply (max_loop_upper l NegInf); [discriminate|].
Qed.

Lemma lodash_max_not_NaN (l : list num) : lodash_max l <> NaN.
Proof. apply max_loop_not_NaN. discriminate. Qed.

(** A finite maximum is one of the elements. *)
Lemma lodash_max_Fin_In (l : list num) (m : Q) :
  lodash_max l = Fin m -> In (Fin m) l.
Proof.
  intro H. unfold lodash_max in H.
  destruct (max_loop_cases l NegInf) as [E|Hin]; [congruence|].
  now rewrite H in Hin.
Qed.

(** ** The normalization pass *)

Lemma map_all_NaN (f : num -> num) (l : list num) :
  (forall x, In x l -> f x = NaN) -> map f l = repeat NaN (length l).
Proof.
  induction l as [|x l IH]; intro H; [reflexivity|].
  cbn [map length repeat]. rewrite H by now left.
  f_equal. apply IH. intros y Hy. apply H. now right.
Qed.

(** What the samples can be under a finite maximum [m] of their absolute
    values: NaN, or finite and no larger than [m] in magnitude. *)
Lemma sample_under_max (audioBuffer : list num) (m : Q) (x : num) :
  maxAmpOf audioBuffer = Fin m -> In x audioBuffer ->
  x = NaN \/ exists y, x = Fin y /\ Qabs y <= m.
Proof.
  intros Hmax Hx.
  pose proof (lodash_max_upper (map num_abs audioBuffer) (num_abs x)
                (in_map num_abs _ _ Hx)) as Hle.
  fold (maxAmpOf audioBuffer) in Hle. rewrite Hmax in Hle.
  destruct x as [y| | |]; cbn in Hle; try discriminate; [right|now left].
  exists y. split; [reflexivity|]. now to_Q.
Qed.

(** A finite maximum is the magnitude of one of the samples. *)
Lemma max_is_attained (audioBuffer : list num) (m : Q) :
  maxAmpOf audioBuffer = Fin m ->
  exists y, In (Fin y) audioBuffer /\ Qabs y = m.
Proof.
  intro Hmax. apply lodash_max_Fin_In in Hmax. apply in_map_iff in Hmax.
  destruct Hmax as (x & Hx & Hin).
  destruct x as [y| | |]; cbn in Hx; try discriminate.
  exists y. split; [exact Hin|congruence].
Qed.

Lemma num_div_zero_by_zero (y m : Q) :
  y == 0 -> m == 0 -> num_div (Fin y) (Fin m) = NaN.
Proof.
  intros Hy Hm. unfold num_div.
  assert (Qeqb m 0 = true) as -> by now apply Qeqb_eq.
  unfold signOf. apply Qeq_alt in Hy. now rewrite Hy.
Qed.

(** A quotient of magnitude at most 1 stays so once rounded, and [+-1]
    is exact. *)
Lemma round64_unit (q : Q) :
  Qabs q <= 1 ->
  Qabs (round64 q) <= 1 /\ (Qabs q == 1 -> Qabs (round64 q) == 1).
Proof.
  intro H.
  assert (round64 1 == 1) as H1 by (apply (round64_Z 1); cbn; lia).
  assert (round64 (- (1)) == - (1)) as H2 by (apply (round64_Z (-1)); cbn; lia).
  assert (- (1) <= q /\ q <= 1) as [Hlo Hhi].
  { split; [|apply Qle_trans with (Qabs q); [apply Qle_Qabs|exact H]].
    pose proof (Qle_Qabs (- q)). rewrite Qabs_opp in H0. lra. }
  pose proof (round64_le _ _ Hlo) as Rlo. pose proof (round64_le _ _ Hhi) as Rhi.
  split.
  - apply Qabs_Qle_condition. lra.
  - intro E. destruct (Qlt_le_dec q 0) as [Hq|Hq].
    + rewrite (Qabs_neg q) in E by lra.
      rewrite (round64_comp q (- (1))) by lra. rewrite H2. reflexivity.
    + rewrite (Qabs_pos q) in E by lra.
      rewrite (round64_comp q 1) by lra. rewrite H1. reflexivity.
Qed.

(** A sample no larger than the nonzero finite maximum [m], divided by
    [m]. *)
Lemma num_div_under (y m : Q) :
  0 < m -> Qabs y <= m ->
  exists r, num_div (Fin y) (Fin m) = Fin r
            /\ Qabs r <= 1 /\ (Qabs y == m -> Qabs r == 1).
Proof.
  intros Hm Hy.
  assert (0 < / m) as Hinv by now apply Qinv_lt_0_compat.
  assert (Qabs (y / m) == Qabs y * / m) as Hdiv.
  { unfold Qdiv. rewrite Qabs_Qmult. now rewrite (Qabs_pos (/ m)) by lra. }
  assert (Qabs (y / m) <= 1) as Hle.
  { rewrite Hdiv. apply Qle_trans with (m * / m).
    - apply Qmult_le_compat_r; [exact Hy|lra].
    - rewrite Qmult_inv_r by lra. apply Qle_refl. }
  destruct (round64_unit (y / m) Hle) as [R1 R2].
  exists (round64 (y / m)). split; [|split].
  - unfold num_div.
    assert (Qeqb m 0 = false) as ->.
    { destruct (Qeqb m 0) eqn:E; [|reflexivity]. to_Q. lra. }
    apply toDouble_Fin. pose proof maxDouble_large. lra.
  - exact R1.
  - intro E. apply R2. rewrite Hdiv, E. apply Qmult_inv_r. lra.
Qed.

(** Zero over a maximum that is neither zero nor NaN is zero. *)
Lemma num_div_zero (y : Q) (d : num) :
  y == 0 -> d <> NaN -> isZero d = false ->
  exists q, num_div (Fin y) d = Fin q /\ q == 0.
Proof.
  intros Hy Hnan Hz. destruct d as [m| | |]; cbn [isZero] in Hz.
  - exists (round64 (y / m)).
    assert (round64 (y / m) == 0) as E.
    { apply round64_zero. rewrite Hy. unfold Qdiv. ring. }
    split; [|exact E]. unfold num_div. rewrite Hz.
    apply toDouble_Fin. rewrite E. pose proof maxDouble_large. cbn. lra.
  - now exists 0.
  - now exists 0.
  - contradiction.
Qed.

(** C4 (as amended).  The last loop of [synthesize] divides every sample by
    the maximum of the samples' absolute values.  When that maximum is a
    nonzero finite number, some sample of the result has magnitude exactly 1
    and no sample exceeds 1 in magnitude.  When the maximum is zero the
    division is not guarded: every sample of the result is NaN (0/0).  When
    it is Infinity (a sample overflowed) every sample of the result is 0 or
    NaN, and when it is -Infinity (no sample is a number) every one is
    NaN. *)
Theorem synthesize_normalization (sin : num -> num) (maxLength : nat)
    (tracks0 : list Track) (frameLen : nat) (samplingRate : Q)
    (audioBuffer : list num) :
  rendered sin maxLength tracks0 frameLen samplingRate = Some audioBuffer ->
  let maxAmp := maxAmpOf audioBuffer in
  let result := map (fun x => num_div x maxAmp) audioBuffer in
  synthesize sin maxLength tracks0 frameLen samplingRate = Returned result
  /\ (forall m, maxAmp = Fin m -> ~ m == 0 ->
        (exists y, In (Fin y) result /\ Qabs y == 1)
        /\ forall x, In x result ->
             x = NaN \/ exists y, x = Fin y /\ Qabs y <= 1)
  /\ (forall m, maxAmp = Fin m -> m == 0 ->
        result = repeat NaN (length audioBuffer))
  /\ (maxAmp = PosInf ->
        forall x, In x result -> x = NaN \/ exists y, x = Fin y /\ y == 0)
  /\ (maxAmp = NegInf -> result = repeat NaN (length audioBuffer))
  /\ maxAmp <> NaN.
Proof.
  intros Hr maxAmp result.
  split; [unfold synthesize; now rewrite Hr|].
  split; [|split; [|split; [|split]]].
  - intros m Hmax Hm.
    destruct (max_is_attained audioBuffer m Hmax) as (y0 & Hy0 & Habs0).
    assert (0 < m) as Hpos.
    { pose proof (Qabs_nonneg y0) as H. rewrite Habs0 in H.
      destruct (Qlt_le_dec 0 m) as [|Hle]; [assumption|].
      exfalso. apply Hm. lra. }
    split.
    + destruct (num_div_under y0 m Hpos ltac:(rewrite Habs0; apply Qle_refl))
        as (r & Hdiv & _ & Hone).
      exists r. split; [|apply Hone; rewrite Habs0; reflexivity].
      unfold result. apply in_map_iff. exists (Fin y0).
      split; [|exact Hy0]. fold maxAmp. rewrite Hmax. exact Hdiv.
    + intros x Hx. unfold result in Hx. apply in_map_iff in Hx.
      destruct Hx as (x0 & <- & Hx0). fold maxAmp. rewrite Hmax.
      destruct (sample_under_max audioBuffer m x0 Hmax Hx0)
        as [->|(y & -> & Hy)]; [now left|right].
      destruct (num_div_under y m Hpos Hy) as (r & Hdiv & Hle & _).
      exists r. split; [exact Hdiv|exact Hle].
  - intros m Hmax Hm. unfold result. apply map_all_NaN.
    intros x Hx. fold maxAmp. rewrite Hmax.
    destruct (sample_under_max audioBuffer m x Hmax Hx)
      as [->|(y & -> & Hy)]; [reflexivity|].
    apply num_div_zero_by_zero; [|exact Hm].
    pose proof (Qabs_nonneg y). abs_of y; lra.
  - intros Hmax x Hx. unfold result in Hx. apply in_map_iff in Hx.
    destruct Hx as (x0 & <- & _). fold maxAmp. rewrite Hmax.
    destruct x0 as [y| | |]; cbn [num_div]; [right|now left..].
    now exists 0.
  - intro Hmax. unfold result. apply map_all_NaN.
    intros x Hx. fold maxAmp. rewrite Hmax.
    pose proof (lodash_max_upper (map num_abs audioBuffer) (num_abs x)
                  (in_map num_abs _ _ Hx)) as Hle.
    fold (maxAmpOf audioBuffer) in Hle. fold maxAmp in Hle. rewrite Hmax in Hle.
    destruct x as [y| | |]; cbn in Hle; try discriminate. reflexivity.
  - apply lodash_max_not_NaN.
Qed.

(** C4, witness: one track of two peaks at 440 Hz, amplitudes 1 and 1/2,
    two samples a frame; a constant 1 stands for the sine. *)
Lemma synthesize_normalization_witness :
  let sin := fun _ : num => Fin 1 in
  let tracks0 := [mkTrack 0 [mkPeak (Given 0) 440 1; mkPeak (Given 1) 440 (1 # 2)]] in
  exists audioBuffer,
    rendered sin 16 tracks0 2 44100 = Some audioBuffer
    /\ let maxAmp := maxAmpOf audioBuffer in
       let result := map (fun x => num_div x maxAmp) audioBuffer in
       synthesize sin 16 tracks0 2 44100 = Returned result
       /\ (forall m, maxAmp = Fin m -> ~ m == 0 ->
             (exists y, In (Fin y) result /\ Qabs y == 1)
             /\ forall x, In x result ->
                  x = NaN \/ exists y, x = Fin y /\ Qabs y <= 1)
       /\ (forall m, maxAmp = Fin m -> m == 0 ->
             result = repeat NaN (length audioBuffer))
       /\ (maxAmp = PosInf ->
             forall x, In x result -> x = NaN \/ exists y, x = Fin y /\ y == 0)
       /\ (maxAmp = NegInf -> result = repeat NaN (length audioBuffer))
       /\ maxAmp <> NaN.
Proof.
  eexists. split.
  - vm_compute. reflexivity.
  - exact (synthesize_normalization (fun _ => Fin 1) 16
             [mkTrack 0 [mkPeak (Given 0) 440 1; mkPeak (Given 1) 440 (1 # 2)]]
             2 44100 _ ltac:(vm_compute; reflexivity)).
Defined.

(** ** The empty input *)

(** C5 (as amended).  [trackPartials] of an empty frame sequence returns an
    empty track list.  [synthesize] of that empty list takes the maximum of
    no frame count, -Infinity, as [numFrames]: with [frameLen >= 1] the
    buffer size is -Infinity and [new Float64Array] throws a RangeError;
    only with [frameLen = 0] (size NaN, read as 0) is a zero-length buffer
    returned. *)
Theorem empty_input (sin : num -> num) (maxLength frameLen : nat)
    (samplingRate : Q) :
  trackPartials [] = []
  /\ synthesize sin maxLength (trackPartials []) frameLen samplingRate
     = match frameLen with
       | O => Returned []
       | S _ => RangeError
       end.
Proof.
  split; [reflexivity|].
  destruct frameLen as [|n]; reflexivity.
Qed.

(** C5, counterexample to the claim as stated: with 100 samples a frame,
    [synthesize] of the tracks of no frames returns no buffer; it ends in a
    RangeError, whatever the sine and whatever length the engine grants. *)
Lemma empty_input_is_a_RangeError :
  trackPartials [] = []
  /\ lodash_max (map (fun track => num_of_nat (extent track)) (trackPartials []))
     = NegInf
  /\ (forall maxLength : nat,
        newFloat64Array maxLength (num_mul NegInf (num_of_nat 100)) = None)
  /\ (forall (sin : num -> num) (maxLength : nat),
        synthesize sin maxLength (trackPartials []) 100 44100 = RangeError)
  /\ RangeError <> Returned [].
Proof.
  repeat split; try reflexivity. discriminate.
Qed.

(** ** The buffer and what rendering writes *)

Lemma num_gtb_of_nat (a b : nat) :
  num_gtb (num_of_nat a) (num_of_nat b) = (b <? a)%nat.
Proof.
  unfold num_of_nat, num_gtb.
  destruct (Nat.ltb_spec b a) as [H|H].
  - apply Qgtb_gt. rewrite <- Zlt_Qlt. lia.
  - apply Qgtb_le. rewrite <- Zle_Qle. lia.
Qed.

Lemma max_loop_of_nat (l : list nat) (r : nat) :
  max_loop (map num_of_nat l) (num_of_nat r)
  = num_of_nat (Nat.max r (list_max l)).
Proof.
  revert r. induction l as [|x l IH]; intro r.
  - cbn. now rewrite Nat.max_0_r.
  - cbn [map max_loop list_max fold_right]. rewrite num_gtb_of_nat.
    fold (list_max l).
    destruct (Nat.ltb_spec r x); rewrite IH; f_equal; lia.
Qed.

(** [numFrames] of a non-empty array of tracks is the largest extent. *)
Lemma numFrames_of_tracks (tracks0 : list Track) :
  tracks0 <> [] ->
  lodash_max (map (fun track => num_of_nat (birth track + length (peaks track)))
                  tracks0)
  = num_of_nat (list_max (map extent tracks0)).
Proof.
  intro H. destruct tracks0 as [|t rest]; [contradiction|].
  change (fun track => num_of_nat (birth track + length (peaks track)))
    with (fun track => num_of_nat (extent track)).
  rewrite <- (map_map extent num_of_nat).
  unfold lodash_max. cbn [map max_loop num_gtb num_of_nat].
  fold (num_of_nat (extent t)). rewrite max_loop_of_nat.
  f_equal.
Qed.

(** The integer part of a number that is a non-negative integer, or above
    one. *)
Lemma Qtrunc_nonneg (q : Q) :
  0 <= q -> Z.quot (Qnum q) (Zpos (Qden q)) = Qfloor q.
Proof.
  intro H. destruct q as [n d]. unfold Qle in H. cbn in *.
  apply Z.quot_div_nonneg; lia.
Qed.

Lemma Qtrunc_Z (q : Q) (z : Z) :
  (0 <= z)%Z -> q == inject_Z z -> Z.quot (Qnum q) (Zpos (Qden q)) = z.
Proof.
  intros Hz E. rewrite Qtrunc_nonneg.
  - rewrite E. apply Qfloor_Z.
  - rewrite E. change 0 with (inject_Z 0). rewrite <- Zle_Qle. exact Hz.
Qed.

Lemma Qtrunc_ge (q : Q) (z : Z) :
  (0 <= z)%Z -> inject_Z z <= q -> (z <= Z.quot (Qnum q) (Zpos (Qden q)))%Z.
Proof.
  intros Hz H. rewrite Qtrunc_nonneg.
  - rewrite <- (Qfloor_Z z). apply Qfloor_resp_le. exact H.
  - apply Qle_trans with (inject_Z z); [|exact H].
    change 0 with (inject_Z 0). rewrite <- Zle_Qle. exact Hz.
Qed.

(** [numFrames * frameLen] on two counts is their product when that is
    below [2^53]. *)
Lemma bufferSize_exact (n frameLen : nat) :
  (Z.of_nat (n * frameLen) < 2 ^ 53)%Z ->
  exists q, num_mul (num_of_nat n) (num_of_nat frameLen) = Fin q
            /\ q == inject_Z (Z.of_nat (n * frameLen)).
Proof.
  intro H. unfold num_of_nat, num_mul.
  assert (round64 (inject_Z (Z.of_nat n) * inject_Z (Z.of_nat frameLen))
          == inject_Z (Z.of_nat (n * frameLen))) as E.
  { rewrite <- inject_Z_mult, <- Nat2Z.inj_mul. apply round64_Z. lia. }
  eexists. split; [|exact E].
  apply toDouble_Fin. rewrite E. unfold maxDouble.
  rewrite Qabs_pos by (change 0 with (inject_Z 0); rewrite <- Zle_Qle; lia).
  rewrite <- Zle_Qle.
  apply Z.le_trans with (2 ^ 53)%Z; [lia|]. vm_compute. discriminate.
Qed.

(** And from [2^53] on it is no length [new Float64Array] accepts. *)
Lemma bufferSize_beyond (maxLength n frameLen : nat) :
  (2 ^ 53 <= Z.of_nat (n * frameLen))%Z ->
  newFloat64Array maxLength (num_mul (num_of_nat n) (num_of_nat frameLen)) = None.
Proof.
  intro H. unfold num_of_nat, num_mul.
  assert (inject_Z (2 ^ 53)
          <= round64 (inject_Z (Z.of_nat n) * inject_Z (Z.of_nat frameLen))) as E.
  { rewrite <- (round64_Z (2 ^ 53)) by (cbn; lia).
    apply round64_le. rewrite <- inject_Z_mult, <- Nat2Z.inj_mul.
    rewrite <- Zle_Qle. exact H. }
  unfold toDouble. cbv zeta.
  set (r := round64 (inject_Z (Z.of_nat n) * inject_Z (Z.of_nat frameLen))) in *.
  destruct (Qgtb (Qabs r) maxDouble).
  - destruct (Qltb r 0); reflexivity.
  - unfold newFloat64Array. cbv zeta.
    pose proof (Qtrunc_ge r (2 ^ 53) ltac:(lia) E) as Hq.
    destruct (Z.ltb_spec (2 ^ 53 - 1) (Z.quot (Qnum r) (Z.pos (Qden r)))) as [|Hle];
      [now rewrite orb_true_r|lia].
Qed.

(** The buffer of [n * frameLen] samples is granted exactly when that
    length is below [2^53] and within what the engine grants. *)
Lemma newFloat64Array_of_nat (maxLength n frameLen : nat) :
  (Z.of_nat (n * frameLen) < 2 ^ 53)%Z -> (n * frameLen <= maxLength)%nat ->
  newFloat64Array maxLength (num_mul (num_of_nat n) (num_of_nat frameLen))
  = Some (repeat (Fin 0) (n * frameLen)).
Proof.
  intros H53 Hmax.
  destruct (bufferSize_exact n frameLen H53) as (q & -> & E).
  unfold newFloat64Array. cbv zeta.
  rewrite (Qtrunc_Z q (Z.of_nat (n * frameLen))) by (lia || exact E).
  destruct (Z.ltb_spec (Z.of_nat (n * frameLen)) 0); [lia|].
  destruct (Z.ltb_spec (2 ^ 53 - 1) (Z.of_nat (n * frameLen))); [lia|].
  destruct (Z.ltb_spec (Z.of_nat maxLength) (Z.of_nat (n * frameLen))); [lia|].
  cbn [orb]. now rewrite Nat2Z.id.
Qed.

Lemma newFloat64Array_granted (maxLength n frameLen : nat) (zeros : list num) :
  newFloat64Array maxLength (num_mul (num_of_nat n) (num_of_nat frameLen))
  = Some zeros ->
  zeros = repeat (Fin 0) (n * frameLen)
  /\ (Z.of_nat (n * frameLen) < 2 ^ 53)%Z /\ (n * frameLen <= maxLength)%nat.
Proof.
  intro H.
  destruct (Z.lt_ge_cases (Z.of_nat (n * frameLen)) (2 ^ 53)) as [H53|H53];
    [|rewrite bufferSize_beyond in H by exact H53; discriminate].
  destruct (bufferSize_exact n frameLen H53) as (q & Hq & E).
  rewrite Hq in H. unfold newFloat64Array in H. cbv zeta in H.
  rewrite (Qtrunc_Z q (Z.of_nat (n * frameLen))) in H by (lia || exact E).
  destruct (Z.ltb_spec (Z.of_nat (n * frameLen)) 0); [lia|].
  destruct (Z.ltb_spec (2 ^ 53 - 1) (Z.of_nat (n * frameLen))); [lia|].
  destruct (Z.ltb_spec (Z.of_nat maxLength) (Z.of_nat (n * frameLen)));
    cbn [orb] in H; [discriminate|].
  injection H as <-. rewrite Nat2Z.id. repeat split; [exact H53|lia].
Qed.

Lemma addAt_length (audioBuffer : list num) (i : nat) (v : num) :
  length (addAt audioBuffer i v) = length audioBuffer.
Proof.
  revert i. induction audioBuffer as [|x rest IH]; intro i; [reflexivity|].
  destruct i; cbn [addAt length]; [reflexivity|now rewrite IH].
Qed.

Lemma addAt_other (audioBuffer : list num) (i j : nat) (v : num) :
  j <> i -> nth_error (addAt audioBuffer i v) j = nth_error audioBuffer j.
Proof.
  revert i j. induction audioBuffer as [|x rest IH]; intros i j H; [reflexivity|].
  destruct i, j; cbn [addAt nth_error]; try reflexivity; [lia|].
  apply IH. lia.
Qed.

Section Rendering.

Variable sin : num -> num.
Variable maxLength : nat.

Lemma renderSamples_length (n : nat) (FREQ_FACTOR peakFreq stepFreq stepAmp : num)
    (audioBuffer : list num) (i : nat) (instAmp : num) (t : nat) :
  length (renderSamples sin n FREQ_FACTOR peakFreq stepFreq stepAmp
            audioBuffer i instAmp t)
  = length audioBuffer.
Proof.
  revert audioBuffer i instAmp t.
  induction n as [|n IH]; intros audioBuffer i instAmp t; [reflexivity|].
  cbn [renderSamples]. rewrite IH. apply addAt_length.
Qed.

(** A segment of [n] samples from [i] writes inside [i, i + n) only. *)
Lemma renderSamples_outside (n : nat) (FREQ_FACTOR peakFreq stepFreq stepAmp : num)
    (audioBuffer : list num) (i : nat) (instAmp : num) (t j : nat) :
  (j < i \/ i + n <= j)%nat ->
  nth_error (renderSamples sin n FREQ_FACTOR peakFreq stepFreq stepAmp
               audioBuffer i instAmp t) j
  = nth_error audioBuffer j.
Proof.
  revert audioBuffer i instAmp t.
  induction n as [|n IH]; intros audioBuffer i instAmp t H; [reflexivity|].
  cbn [renderSamples]. rewrite IH by lia. apply addAt_other. lia.
Qed.

(** The loop over the peaks, one turn unfolded. *)
Lemma renderPeaks_segment (frameLen : nat) (FREQ_FACTOR : num)
    (peak next : Peak) (rest : list Peak) (audioBuffer : list num) (i : nat) :
  renderPeaks sin frameLen FREQ_FACTOR (peak :: next :: rest) audioBuffer i
  = renderPeaks sin frameLen FREQ_FACTOR (next :: rest)
      (renderSamples sin frameLen FREQ_FACTOR (Fin (freq peak))
         (num_div (num_sub (Fin (freq next)) (Fin (freq peak)))
                  (num_of_nat frameLen))
         (num_div (num_sub (Fin (amp next)) (Fin (amp peak)))
                  (num_of_nat frameLen))
         audioBuffer i (Fin (amp peak)) 0)
      (i + frameLen).
Proof. reflexivity. Qed.

Lemma renderPeaks_length (frameLen : nat) (FREQ_FACTOR : num) (colp : list Peak) :
  forall (audioBuffer : list num) (i : nat),
  length (renderPeaks sin frameLen FREQ_FACTOR colp audioBuffer i)
  = length audioBuffer.
Proof.
  induction colp as [|peak rest IH]; intros audioBuffer i; [reflexivity|].
  destruct rest as [|next rest]; [reflexivity|].
  rewrite renderPeaks_segment, IH. apply renderSamples_length.
Qed.

(** The peaks of a track, rendered from [i], write inside
    [i, i + (length colp - 1) * frameLen) only: the last peak starts no
    segment. *)
Lemma renderPeaks_outside (frameLen : nat) (FREQ_FACTOR : num) (colp : list Peak) :
  forall (audioBuffer : list num) (i j : nat),
  (j < i \/ i + (length colp - 1) * frameLen <= j)%nat ->
  nth_error (renderPeaks sin frameLen FREQ_FACTOR colp audioBuffer i) j
  = nth_error audioBuffer j.
Proof.
  induction colp as [|peak rest IH]; intros audioBuffer i j H; [reflexivity|].
  destruct rest as [|next rest]; [reflexivity|].
  rewrite renderPeaks_segment. cbn [length] in *.
  rewrite IH by (cbn [length]; lia).
  apply renderSamples_outside. lia.
Qed.

Lemma renderTracks_length (frameLen : nat) (FREQ_FACTOR : num)
    (tracks0 : list Track) (audioBuffer : list num) :
  length (renderTracks sin frameLen FREQ_FACTOR tracks0 audioBuffer)
  = length audioBuffer.
Proof.
  unfold renderTracks. revert audioBuffer.
  induction tracks0 as [|t rest IH]; intro audioBuffer; [reflexivity|].
  cbn [fold_left]. rewrite IH. apply renderPeaks_length.
Qed.

(** No track writes into the last [frameLen] samples of a buffer that is
    [numFrames * frameLen] long, [numFrames] bounding every extent. *)
Lemma renderTracks_last_frame (frameLen numFrames : nat) (FREQ_FACTOR : num)
    (tracks0 : list Track) (audioBuffer : list num) (j : nat) :
  (forall t, In t tracks0 -> (extent t <= numFrames)%nat) ->
  (numFrames * frameLen - frameLen <= j)%nat ->
  nth_error (renderTracks sin frameLen FREQ_FACTOR tracks0 audioBuffer) j
  = nth_error audioBuffer j.
Proof.
  unfold renderTracks. revert audioBuffer.
  induction tracks0 as [|t rest IH]; intros audioBuffer Hext Hj; [reflexivity|].
  cbn [fold_left]. rewrite IH; [|intros t' Ht'; apply Hext; now right|exact Hj].
  destruct (peaks t) as [|p ps] eqn:Ep; [reflexivity|].
  apply renderPeaks_outside. right.
  pose proof (Hext t (or_introl eq_refl)) as Ht. unfold extent in Ht.
  rewrite Ep in Ht. cbn [length] in *.
  replace (S (length ps) - 1)%nat with (length ps) by lia.
  assert ((birth t + length ps) * frameLen <= (numFrames - 1) * frameLen)%nat
    as Hle by (apply Nat.mul_le_mono_r; lia).
  rewrite Nat.mul_sub_distr_r, Nat.mul_1_l in Hle. lia.
Qed.

(** The buffer [synthesize] renders for a non-empty array of tracks, when
    it is granted: [numFrames * frameLen] zeros, then the tracks. *)
Lemma rendered_granted (tracks0 : list Track) (frameLen : nat) (samplingRate : Q)
    (audioBuffer : list num) :
  tracks0 <> [] ->
  rendered sin maxLength tracks0 frameLen samplingRate = Some audioBuffer ->
  let numFrames := list_max (map extent tracks0) in
  let FREQ_FACTOR := num_div (num_mul (Fin 2) (Fin PI)) (Fin samplingRate) in
  audioBuffer
  = renderTracks sin frameLen FREQ_FACTOR tracks0
      (repeat (Fin 0) (numFrames * frameLen))
  /\ (Z.of_nat (numFrames * frameLen) < 2 ^ 53)%Z
  /\ (numFrames * frameLen <= maxLength)%nat.
Proof.
  intros H Hr numFrames FREQ_FACTOR. unfold rendered in Hr.
  rewrite (numFrames_of_tracks tracks0 H) in Hr. fold numFrames in Hr.
  destruct (newFloat64Array maxLength _) as [zeros|] eqn:Hnew; [|discriminate].
  apply newFloat64Array_granted in Hnew. destruct Hnew as (-> & H53 & Hmax).
  split; [|split; assumption].
  symmetry. exact (f_equal (fun o => match o with
                                     | Some b => b
                                     | None => audioBuffer
                                     end) Hr).
Qed.

(** It is granted when that length is below [2^53] and within what the
    engine grants. *)
Lemma rendered_tracks (tracks0 : list Track) (frameLen : nat) (samplingRate : Q) :
  tracks0 <> [] ->
  let numFrames := list_max (map extent tracks0) in
  let FREQ_FACTOR := num_div (num_mul (Fin 2) (Fin PI)) (Fin samplingRate) in
  (Z.of_nat (numFrames * frameLen) < 2 ^ 53)%Z ->
  (numFrames * frameLen <= maxLength)%nat ->
  rendered sin maxLength tracks0 frameLen samplingRate
  = Some (renderTracks sin frameLen FREQ_FACTOR tracks0
            (repeat (Fin 0) (numFrames * frameLen))).
Proof.
  intros H numFrames FREQ_FACTOR H53 Hmax. unfold rendered.
  rewrite (numFrames_of_tracks tracks0 H). fold numFrames.
  now rewrite newFloat64Array_of_nat.
Qed.

(** The last [frameLen] samples of the rendered buffer are still 0. *)
Lemma rendered_last_frame (tracks0 : list Track) (frameLen : nat)
    (FREQ_FACTOR : num) (j : nat) :
  let numFrames := list_max (map extent tracks0) in
  (numFrames * frameLen - frameLen <= j < numFrames * frameLen)%nat ->
  nth_error (renderTracks sin frameLen FREQ_FACTOR tracks0
               (repeat (Fin 0) (numFrames * frameLen))) j
  = Some (Fin 0).
Proof.
  intros numFrames Hj. rewrite (renderTracks_last_frame frameLen numFrames).
  - rewrite nth_error_repeat; [reflexivity|lia].
  - intros t Ht. unfold numFrames.
    pose proof (list_max_le (map extent tracks0) (list_max (map extent tracks0)))
      as [Hmax _].
    specialize (Hmax (Nat.le_refl _)). rewrite Forall_forall in Hmax.
    apply Hmax. now apply in_map.
  - lia.
Qed.

(** C10.  For every non-empty array of tracks whose rendered buffer has a
    nonzero maximum magnitude, the buffer [synthesize] returns has length
    [frameLen * max (birth + len (peaks))] and its last [frameLen] samples
    are all 0: a track renders [len (peaks) - 1] segments, so none writes
    there, and 0 over the nonzero maximum is 0. *)
Theorem last_frame_silent (tracks0 : list Track) (frameLen : nat)
    (samplingRate : Q) (audioBuffer : list num) :
  tracks0 <> [] ->
  rendered sin maxLength tracks0 frameLen samplingRate = Some audioBuffer ->
  isZero (maxAmpOf audioBuffer) = false ->
  let numFrames := list_max (map extent tracks0) in
  exists result,
    synthesize sin maxLength tracks0 frameLen samplingRate = Returned result
    /\ length result = (frameLen * numFrames)%nat
    /\ (forall j, (numFrames * frameLen - frameLen <= j < numFrames * frameLen)%nat ->
          nth_error audioBuffer j = Some (Fin 0))
    /\ (forall j, (numFrames * frameLen - frameLen <= j < numFrames * frameLen)%nat ->
          exists q, nth_error result j = Some (Fin q) /\ q == 0).
Proof.
  intros Hne Hr Hmax numFrames.
  destruct (rendered_granted tracks0 frameLen samplingRate audioBuffer Hne Hr)
    as (Hbuf & _ & _).
  fold numFrames in Hbuf.
  assert (length audioBuffer = (numFrames * frameLen)%nat) as Hlen.
  { rewrite Hbuf. now rewrite renderTracks_length, repeat_length. }
  assert (forall j, (numFrames * frameLen - frameLen <= j < numFrames * frameLen)%nat ->
            nth_error audioBuffer j = Some (Fin 0)) as Hzero.
  { intros j Hj. rewrite Hbuf. now apply rendered_last_frame. }
  exists (normalize audioBuffer).
  split; [unfold synthesize; now rewrite Hr|].
  split; [unfold normalize; rewrite length_map; lia|].
  split; [exact Hzero|].
  intros j Hj. unfold normalize. rewrite nth_error_map, (Hzero j Hj).
  cbn [option_map].
  pose proof (lodash_max_not_NaN (map num_abs audioBuffer)) as Hnan.
  fold (maxAmpOf audioBuffer) in Hnan.
  destruct (num_div_zero 0 (maxAmpOf audioBuffer) (Qeq_refl 0) Hnan Hmax)
    as (q & -> & Hq).
  now exists q.
Qed.

End Rendering.

(** C10, witness: one track of two peaks at 440 Hz, two samples a frame; a
    constant 1 stands for the sine. *)
Lemma last_frame_silent_witness :
  let sin := fun _ : num => Fin 1 in
  let tracks0 := [mkTrack 0 [mkPeak (Given 0) 440 1; mkPeak (Given 1) 440 (1 # 2)]] in
  let numFrames := list_max (map extent tracks0) in
  exists audioBuffer,
    rendered sin 16 tracks0 2 44100 = Some audioBuffer
    /\ exists result,
         synthesize sin 16 tracks0 2 44100 = Returned result
         /\ length result = (2 * numFrames)%nat
         /\ (forall j, (numFrames * 2 - 2 <= j < numFrames * 2)%nat ->
               nth_error audioBuffer j = Some (Fin 0))
         /\ (forall j, (numFrames * 2 - 2 <= j < numFrames * 2)%nat ->
               exists q, nth_error result j = Some (Fin q) /\ q == 0).
Proof.
  eexists. split.
  - vm_compute. reflexivity.
  - refine (last_frame_silent (fun _ => Fin 1) 16
              [mkTrack 0 [mkPeak (Given 0) 440 1; mkPeak (Given 1) 440 (1 # 2)]]
              2 44100 _ _ ltac:(vm_compute; reflexivity)
              ltac:(vm_compute; reflexivity)).
    discriminate.
Defined.

(** ** A buffer no track writes into *)

Lemma renderTracks_short (sin : num -> num) (frameLen : nat) (FREQ_FACTOR : num)
    (tracks0 : list Track) (audioBuffer : list num) :
  (forall t, In t tracks0 -> (length (peaks t) <= 1)%nat) ->
  renderTracks sin frameLen FREQ_FACTOR tracks0 audioBuffer = audioBuffer.
Proof.
  unfold renderTracks. revert audioBuffer.
  induction tracks0 as [|t rest IH]; intros audioBuffer H; [reflexivity|].
  cbn [fold_left].
  assert (renderPeaks sin frameLen FREQ_FACTOR (peaks t) audioBuffer
            (birth t * frameLen) = audioBuffer) as ->.
  { specialize (H t (or_introl eq_refl)).
    destruct (peaks t) as [|p [|q ps]]; [reflexivity|reflexivity|].
    cbn [length] in H. lia. }
  apply IH. intros t' Ht'. apply H. now right.
Qed.

(** A buffer of zeros is normalized into a buffer of NaN. *)
Lemma normalize_zeros (n : nat) :
  normalize (repeat (Fin 0) n) = repeat NaN n.
Proof.
  destruct n as [|n]; [reflexivity|].
  assert (maxAmpOf (repeat (Fin 0) (S n)) = Fin (Qabs 0)) as Hmax.
  { unfold maxAmpOf, lodash_max. cbn [repeat map max_loop num_abs num_gtb].
    induction n as [|n IH]; [reflexivity|].
    cbn [repeat map max_loop num_abs]. exact IH. }
  unfold normalize. rewrite Hmax. rewrite map_repeat.
  now rewrite (num_div_zero_by_zero 0 (Qabs 0)) by reflexivity.
Qed.

(** Tracks of at most one peak each, once their buffer is granted. *)
Lemma synthesize_short (sin : num -> num) (maxLength : nat)
    (tracks0 : list Track) (frameLen : nat) (samplingRate : Q) :
  tracks0 <> [] ->
  forallb (fun t => (length (peaks t) <=? 1)%nat) tracks0 = true ->
  let size := (list_max (map extent tracks0) * frameLen)%nat in
  (Z.of_nat size < 2 ^ 53)%Z -> (size <= maxLength)%nat ->
  rendered sin maxLength tracks0 frameLen samplingRate
  = Some (repeat (Fin 0) size)
  /\ synthesize sin maxLength tracks0 frameLen samplingRate
     = Returned (repeat NaN size).
Proof.
  intros Hne Hall size H53 Hmax.
  assert (rendered sin maxLength tracks0 frameLen samplingRate
          = Some (repeat (Fin 0) size)) as Hr.
  { rewrite (rendered_tracks sin maxLength tracks0 frameLen samplingRate Hne
               H53 Hmax).
    rewrite renderTracks_short; [reflexivity|].
    intros t Ht. rewrite forallb_forall in Hall.
    apply Nat.leb_le. now apply Hall. }
  split; [exact Hr|].
  unfold synthesize. rewrite Hr. now rewrite normalize_zeros.
Qed.

(** C4, counterexample to the claim as stated.  The single frame [[peak]]
    gives one track of one peak; no segment is rendered, whatever the sine,
    so the buffer is two zeros and its maximum is 0.  The buffer returned is
    not that zero buffer: both samples are NaN. *)
Lemma silent_buffer_becomes_NaN :
  let peak := mkPeak (Given 0) 440 1 in
  trackPartials [[peak]] = [mkTrack 0 [peak]]
  /\ (forall (sin : num -> num) (maxLength : nat),
        (2 <= maxLength)%nat ->
        rendered sin maxLength (trackPartials [[peak]]) 2 44100
        = Some [Fin 0; Fin 0]
        /\ synthesize sin maxLength (trackPartials [[peak]]) 2 44100
           = Returned [NaN; NaN])
  /\ maxAmpOf [Fin 0; Fin 0] = Fin 0
  /\ Returned [NaN; NaN] <> Returned [Fin 0; Fin 0].
Proof.
  split; [reflexivity|]. split; [|split; [reflexivity|discriminate]].
  intros sin maxLength Hmax.
  exact (synthesize_short sin maxLength [mkTrack 0 [mkPeak (Given 0) 440 1]]
           2 44100 ltac:(discriminate) eq_refl ltac:(vm_compute; reflexivity)
           Hmax).
Qed.

(** ** Every peak ends in one track *)

Lemma Ident_eqb_eq (a b : Ident) : Ident_eqb a b = true <-> a = b.
Proof.
  destruct a, b; cbn; try (split; [discriminate|congruence]).
  - rewrite Nat.eqb_eq. split; congruence.
  - rewrite andb_true_iff, !Nat.eqb_eq. split; [intros []|intro E; injection E];
      intros; subst; auto.
  - tauto.
Qed.

Lemma Permutation_filter {A : Type} (P : A -> bool) (l l' : list A) :
  Permutation l l' -> Permutation (filter P l) (filter P l').
Proof.
  induction 1 as [|x l l' H IH|x y l|l l' l'' H1 IH1 H2 IH2]; cbn [filter].
  - constructor.
  - destruct (P x); [now constructor|exact IH].
  - destruct (P x), (P y); try reflexivity. constructor.
  - now transitivity (filter P l').
Qed.

Lemma insertBy_Permutation {A : Type} (key : A -> Q) (x : A) (l : list A) :
  Permutation (insertBy key x l) (x :: l).
Proof.
  induction l as [|y l IH]; cbn [insertBy]; [reflexivity|].
  destruct (Qleb (key x) (key y)); [reflexivity|].
  rewrite IH. constructor.
Qed.

Lemma sortBy_Permutation {A : Type} (key : A -> Q) (l : list A) :
  Permutation (sortBy key l) l.
Proof.
  induction l as [|x l IH]; [reflexivity|].
  cbn [sortBy fold_right]. fold (sortBy key l).
  rewrite insertBy_Permutation. now constructor.
Qed.

Lemma distinctPeaks_NoDup (frame : list Peak) :
  distinctPeaks frame = true -> NoDup (map ident frame).
Proof.
  induction frame as [|p rest IH]; intro H; [constructor|].
  cbn [distinctPeaks] in H. apply andb_true_iff in H. destruct H as [Hp Hrest].
  cbn [map]. constructor; [|now apply IH].
  intro Hin. apply in_map_iff in Hin. destruct Hin as (q & Hq & Hin).
  apply negb_true_iff in Hp.
  assert (existsb (sameObject p) rest = true) as E; [|congruence].
  apply existsb_exists. exists q. split; [exact Hin|].
  unfold sameObject. now apply Ident_eqb_eq.
Qed.

(** With pairwise distinct objects in the pool, [_.pull] of the peak at an
    index removes that entry and nothing else. *)
Lemma pull_nth (pool : list Peak) (k : nat) :
  NoDup (map ident pool) -> (k < length pool)%nat ->
  Permutation pool (nth k pool noPeak :: pull pool (nth k pool noPeak)).
Proof.
  revert k. induction pool as [|p pool IH]; intros k Hnd Hk; [cbn in Hk; lia|].
  cbn [map] in Hnd. inversion Hnd as [|? ? Hnotin Hnd']; subst.
  assert (forall q, In q pool -> sameObject q p = false) as Hother.
  { intros q Hq. destruct (sameObject q p) eqn:E; [|reflexivity].
    exfalso. apply Hnotin. unfold sameObject in E. apply Ident_eqb_eq in E.
    rewrite <- E. now apply in_map. }
  destruct k as [|k]; cbn [nth].
  - unfold pull. cbn [filter]. unfold sameObject at 1.
    rewrite Ident_eqb_refl. cbn [negb]. constructor.
    rewrite forallb_filter_id; [reflexivity|].
    apply forallb_forall. intros q Hq. now rewrite (Hother q Hq).
  - cbn [length] in Hk.
    assert (In (nth k pool noPeak) pool) as Hin by (apply nth_In; lia).
    unfold pull. cbn [filter].
    assert (sameObject p (nth k pool noPeak) = false) as ->.
    { specialize (Hother _ Hin). unfold sameObject in *.
      destruct (Ident_eqb (ident p) (ident (nth k pool noPeak))) eqn:E;
        [|reflexivity].
      apply Ident_eqb_eq in E. rewrite E, Ident_eqb_refl in Hother.
      discriminate. }
    cbn [negb]. rewrite perm_swap. constructor.
    apply IH; [exact Hnd'|lia].
Qed.

Lemma pull_NoDup (pool : list Peak) (value : Peak) :
  NoDup (map ident pool) -> NoDup (map ident (pull pool value)).
Proof.
  intro H. unfold pull. induction pool as [|p pool IH]; [constructor|].
  cbn [map] in H. inversion H as [|? ? Hnotin Hnd]; subst.
  cbn [filter]. destruct (negb (sameObject p value)); [|now apply IH].
  cbn [map]. constructor; [|now apply IH].
  intro Hin. apply Hnotin. apply in_map_iff in Hin.
  destruct Hin as (q & Hq & Hin). apply filter_In in Hin.
  rewrite <- Hq. apply in_map. tauto.
Qed.

Lemma pull_incl (pool : list Peak) (value q : Peak) :
  In q (pull pool value) -> In q pool.
Proof. unfold pull. intro H. apply filter_In in H. tauto. Qed.

Lemma entryAt_pushPeak_old (t : Track) (e : Peak) (f : nat) :
  (f < extent t)%nat -> entryAt (pushPeak t e) f = entryAt t f.
Proof.
  unfold entryAt, pushPeak, extent. cbn [birth peaks]. intro H.
  destruct (Nat.ltb_spec f (birth t)); [reflexivity|].
  apply nth_error_app1. lia.
Qed.

Lemma entryAt_pushPeak_new (t : Track) (e : Peak) :
  entryAt (pushPeak t e) (extent t) = Some e.
Proof.
  unfold entryAt, pushPeak, extent. cbn [birth peaks].
  destruct (Nat.ltb_spec (birth t + length (peaks t)) (birth t)); [lia|].
  rewrite nth_error_app2 by lia.
  now replace (birth t + length (peaks t) - birth t - length (peaks t))%nat
    with 0%nat by lia.
Qed.

Lemma entryAt_beyond (t : Track) (f : nat) :
  (extent t <= f)%nat -> entryAt t f = None.
Proof.
  unfold entryAt, extent. intro H.
  destruct (Nat.ltb_spec f (birth t)); [reflexivity|].
  apply nth_error_None. lia.
Qed.

Lemma extent_pushPeak (t : Track) (e : Peak) :
  extent (pushPeak t e) = S (extent t).
Proof.
  unfold extent, pushPeak. cbn [birth peaks]. rewrite length_app. cbn. lia.
Qed.

Lemma column_app (f : nat) (a b : list Track) :
  column f (a ++ b) = column f a ++ column f b.
Proof. unfold column. apply flat_map_app. Qed.

Lemma column_Permutation (f : nat) (a b : list Track) :
  Permutation a b -> Permutation (column f a) (column f b).
Proof. unfold column. apply Permutation_flat_map. Qed.

Lemma realEntries_app (f : nat) (a b : list Track) :
  realEntries f (a ++ b) = realEntries f a ++ realEntries f b.
Proof. unfold realEntries. now rewrite column_app, filter_app. Qed.

Lemma realEntries_Permutation (f : nat) (a b : list Track) :
  Permutation a b -> Permutation (realEntries f a) (realEntries f b).
Proof.
  intro H. unfold realEntries. apply Permutation_filter.
  now apply column_Permutation.
Qed.

(** The index the candidate search returns is inside the array. *)
Lemma findCandidateIndex_bound (c : Q) (l : list Q) (k : nat) :
  findCandidateIndex c l = Some k -> (k < length l)%nat.
Proof.
  intro H. pose proof (findCandidateIndex_candidates c l) as Hf.
  rewrite H in Hf. destruct Hf as (Hin & _).
  now apply (candidatesOf_examined c l k).
Qed.

Lemma matchTrack_cases_bound (track : Track) (later : list Track) (st : Matching) :
  matchTrack track later st = die st track
  \/ exists k, (k < length (nextPeaks st))%nat
               /\ matchTrack track later st = takePeak st track k.
Proof.
  unfold matchTrack.
  destruct (findCandidateIndex _ _) as [k|] eqn:Hk; [|now left].
  apply findCandidateIndex_bound in Hk. rewrite length_map in Hk.
  destruct (definitiveMatch _ _ _); [right; now exists k|].
  destruct k as [|k]; [now left|].
  destruct (Qgtb _ _); [now left|right; exists k; split; [lia|reflexivity]].
Qed.

(** One step of the inner loop files the track in hand with one more
    entry [e]; when [e] is a peak of the pool, the pool loses exactly that
    peak. *)
Lemma matchTrack_step (track : Track) (later : list Track) (st : Matching) :
  NoDup (map ident (nextPeaks st)) ->
  (forall q, In q (nextPeaks st) -> isReal q = true) ->
  let st' := matchTrack track later st in
  exists e,
    ((tracks st' = tracks st ++ [pushPeak track e]
      /\ curTracks st' = curTracks st)
     \/ (tracks st' = tracks st
         /\ curTracks st' = curTracks st ++ [pushPeak track e]))
    /\ Permutation (nextPeaks st) (filter isReal [e] ++ nextPeaks st')
    /\ NoDup (map ident (nextPeaks st'))
    /\ (forall q, In q (nextPeaks st') -> In q (nextPeaks st)).
Proof.
  intros Hnd Hreal st'. unfold st'.
  destruct (matchTrack_cases_bound track later st) as [->|(k & Hk & ->)].
  - exists (fade (lastFreq track)). cbn [die tracks curTracks nextPeaks].
    split; [now left|]. split; [reflexivity|]. split; [exact Hnd|auto].
  - exists (nth k (nextPeaks st) noPeak).
    cbn [takePeak tracks curTracks nextPeaks].
    split; [now right|].
    assert (isReal (nth k (nextPeaks st) noPeak) = true) as Hr.
    { apply Hreal. now apply nth_In. }
    cbn [filter]. rewrite Hr. cbn [app].
    split; [now apply pull_nth|]. split; [now apply pull_NoDup|].
    intros q. apply pull_incl.
Qed.

Lemma column_pushPeak_old (t : Track) (e : Peak) (f : nat) :
  (f < extent t)%nat -> column f [pushPeak t e] = column f [t].
Proof.
  intro H. unfold column. cbn [flat_map].
  now rewrite entryAt_pushPeak_old.
Qed.

Lemma realEntries_pushPeak_new (t : Track) (e : Peak) :
  realEntries (extent t) [pushPeak t e] = filter isReal [e].
Proof.
  unfold realEntries, column. cbn [flat_map].
  now rewrite entryAt_pushPeak_new.
Qed.

(** The inner loop as a ledger, [N] being the frame the loop fills: the
    tracks of the snapshot join the tracks on file with their entries for
    the frames before [N] unchanged, and the peaks of the pool are split
    between the entries for frame [N] and the pool that is left. *)
Lemma matchTracks_ledger (N : nat) (collection : list Track) :
  forall st : Matching,
  (forall t, In t collection -> extent t = N) ->
  NoDup (map ident (nextPeaks st)) ->
  (forall q, In q (nextPeaks st) -> isReal q = true) ->
  let st' := matchTracks collection st in
  (forall f, (f < N)%nat ->
     Permutation (column f (onFile st'))
                 (column f (onFile st) ++ column f collection))
  /\ Permutation (realEntries N (onFile st) ++ nextPeaks st)
                 (realEntries N (onFile st') ++ nextPeaks st')
  /\ (forall t, In t (tracks st') -> In t (tracks st) \/ extent t = S N)
  /\ (forall t, In t (curTracks st') -> In t (curTracks st) \/ extent t = S N)
  /\ (forall q, In q (nextPeaks st') -> In q (nextPeaks st)).
Proof.
  induction collection as [|track later IH]; intros st Hext Hnd Hreal.
  - cbn [matchTracks]. repeat split; auto.
    intros f _. cbn. now rewrite app_nil_r.
  - cbn [matchTracks].
    destruct (matchTrack_step track later st Hnd Hreal)
      as (e & Hfile & Hpool & Hnd1 & Hincl1).
    set (st1 := matchTrack track later st) in *.
    assert (extent track = N) as HN by (apply Hext; now left).
    subst N.
    assert (Permutation (onFile st1) (onFile st ++ [pushPeak track e])) as Hon.
    { unfold onFile. destruct Hfile as [[-> ->]|[-> ->]].
      - rewrite <- !app_assoc. apply Permutation_app_head.
        apply Permutation_app_comm.
      - now rewrite app_assoc. }
    destruct (IH st1) as (H1 & H2 & H3 & H4 & H5).
    { intros t Ht. apply Hext. now right. }
    { exact Hnd1. }
    { intros q Hq. apply Hreal. now apply Hincl1. }
    repeat split.
    + intros f Hf. rewrite (H1 f Hf).
      rewrite (column_Permutation f _ _ Hon), column_app.
      rewrite column_pushPeak_old by lia.
      rewrite <- app_assoc. now rewrite <- column_app.
    + rewrite <- H2.
      rewrite (realEntries_Permutation _ _ _ Hon), realEntries_app.
      rewrite realEntries_pushPeak_new.
      rewrite <- app_assoc. apply Permutation_app_head. exact Hpool.
    + intros t Ht. destruct (H3 t Ht) as [Hin|E]; [|now right].
      destruct Hfile as [[Ht1 _]|[Ht1 _]]; rewrite Ht1 in Hin; [|now left].
      apply in_app_or in Hin. destruct Hin as [Hin|[<-|[]]]; [now left|right].
      now rewrite extent_pushPeak.
    + intros t Ht. destruct (H4 t Ht) as [Hin|E]; [|now right].
      destruct Hfile as [[_ Hc1]|[_ Hc1]]; rewrite Hc1 in Hin; [now left|].
      apply in_app_or in Hin. destruct Hin as [Hin|[<-|[]]]; [now left|right].
      now rewrite extent_pushPeak.
    + intros q Hq. apply Hincl1. now apply H5.
Qed.

(** The tracks born of the pool in the frame after [n]: nothing real for
    the frames up to [n], and the pool itself for frame [n + 1]. *)
Lemma realEntries_born_old (n f : nat) (pool : list Peak) :
  (f <= n)%nat -> realEntries f (map (bornAt n) pool) = [].
Proof.
  intro H. unfold realEntries, column.
  induction pool as [|p pool IH]; [reflexivity|].
  cbn [map flat_map]. rewrite filter_app, IH, app_nil_r.
  unfold entryAt, bornAt. cbn [birth peaks].
  destruct (Nat.ltb_spec f n); [reflexivity|].
  now replace (f - n)%nat with 0%nat by lia.
Qed.

Lemma realEntries_born_new (n : nat) (pool : list Peak) :
  (forall q, In q pool -> isReal q = true) ->
  realEntries (S n) (map (bornAt n) pool) = pool.
Proof.
  intro H. unfold realEntries, column.
  induction pool as [|p pool IH]; [reflexivity|].
  cbn [map flat_map]. rewrite filter_app, IH by (intros q Hq; apply H; now right).
  unfold entryAt, bornAt. cbn [birth peaks].
  destruct (Nat.ltb_spec (S n) n); [lia|].
  replace (S n - n)%nat with 1%nat by lia. cbn [nth_error filter].
  now rewrite (H p (or_introl eq_refl)).
Qed.

Lemma realEntries_beyond (f : nat) (l : list Track) :
  (forall t, In t l -> (extent t <= f)%nat) -> realEntries f l = [].
Proof.
  intro H. unfold realEntries, column.
  induction l as [|t l IH]; [reflexivity|].
  cbn [flat_map]. rewrite (entryAt_beyond t f) by (apply H; now left).
  apply IH. intros t' Ht'. apply H. now right.
Qed.

Lemma processFrame_settled (peaksFrames : list (list Peak)) (n : nat)
    (frame : list Peak) (tracks0 curTracks0 : list Track) :
  settled peaksFrames n (tracks0, curTracks0) ->
  nth (S n) peaksFrames [] = frame ->
  NoDup (map ident frame) ->
  (forall q, In q frame -> isReal q = true) ->
  settled peaksFrames (S n) (processFrame n frame tracks0 curTracks0).
Proof.
  intros (Hcur & Hdone & Hcols) Hframe Hnd Hreal. cbn [fst snd] in *.
  unfold processFrame.
  set (st0 := mkMatching frame tracks0 []).
  set (snapshot := sortBy lastFreq curTracks0).
  destruct (matchTracks_ledger (S n) snapshot st0) as (H1 & H2 & H3 & H4 & H5).
  { intros t Ht. apply Hcur. now apply (sortBy_In lastFreq). }
  { exact Hnd. }
  { exact Hreal. }
  set (st' := matchTracks snapshot st0) in *.
  cbn [nextPeaks tracks curTracks] in *.
  assert (onFile st0 = tracks0) as Hon0
    by (unfold onFile, st0; cbn; now rewrite app_nil_r).
  unfold settled. cbn [fst snd]. repeat split.
  - intros t Ht. apply in_app_or in Ht. destruct Ht as [Ht|Ht].
    + destruct (H4 t Ht) as [[]|E]. exact E.
    + apply in_map_iff in Ht. destruct Ht as (p & <- & _).
      unfold extent, bornAt. cbn. lia.
  - intros t Ht. destruct (H3 t Ht) as [Hin|E]; [|lia].
    specialize (Hdone t Hin). lia.
  - intros f Hf. rewrite app_assoc. fold (onFile st'). rewrite realEntries_app.
    destruct (Nat.eq_dec f (S n)) as [->|Hne].
    + rewrite realEntries_born_new by (intros q Hq; apply Hreal; now apply H5).
      rewrite <- H2, Hon0, Hframe.
      now rewrite realEntries_beyond by exact Hdone.
    + rewrite realEntries_born_old, app_nil_r by lia.
      rewrite <- (Hcols f) by lia.
      unfold realEntries. apply Permutation_filter.
      rewrite (H1 f) by lia. rewrite Hon0, column_app.
      apply Permutation_app_head. apply column_Permutation.
      apply sortBy_Permutation.
Qed.

Lemma distinctInput_frame (peaksFrames : list (list Peak)) (frame : list Peak) :
  distinctInput peaksFrames = true -> In frame peaksFrames ->
  NoDup (map ident frame) /\ forall q, In q frame -> isReal q = true.
Proof.
  intros H Hin. unfold distinctInput in H.
  rewrite forallb_forall in H. specialize (H frame Hin).
  apply andb_true_iff in H. destruct H as [Hd Hr].
  split; [now apply distinctPeaks_NoDup|].
  now apply forallb_forall.
Qed.

Lemma realEntries_first (frame : list Peak) :
  (forall q, In q frame -> isReal q = true) ->
  realEntries 0 (map (fun peak => mkTrack 0 [peak]) frame) = frame.
Proof.
  intro H. unfold realEntries, column.
  induction frame as [|p frame IH]; [reflexivity|].
  cbn [map flat_map]. rewrite filter_app, IH by (intros q Hq; apply H; now right).
  unfold entryAt. cbn [birth peaks Nat.ltb Nat.leb Nat.sub nth_error filter].
  now rewrite (H p (or_introl eq_refl)).
Qed.

(** The invariant holds after every frame of a well-formed input. *)
Lemma stateAfter_settled (peaksFrames : list (list Peak)) (n : nat) :
  distinctInput peaksFrames = true ->
  (n < length peaksFrames)%nat ->
  settled peaksFrames n (stateAfter peaksFrames n).
Proof.
  intro Hwf. induction n as [|n IH]; intro Hn.
  - unfold stateAfter. cbn [firstn processFrames].
    assert (In (nth 0 peaksFrames []) peaksFrames) as Hin by now apply nth_In.
    destruct (distinctInput_frame _ _ Hwf Hin) as [_ Hreal].
    unfold settled. cbn [fst snd app]. repeat split.
    + intros t Ht. apply in_map_iff in Ht. destruct Ht as (p & <- & _).
      reflexivity.
    + intros t [].
    + intros f Hf. assert (f = 0)%nat as -> by lia.
      now rewrite realEntries_first.
  - assert (In (nth (S n) peaksFrames []) peaksFrames) as Hin by now apply nth_In.
    destruct (distinctInput_frame _ _ Hwf Hin) as [Hnd Hreal].
    rewrite (stateAfter_step peaksFrames n (nth (S n) peaksFrames [])).
    + specialize (IH ltac:(lia)).
      destruct (stateAfter peaksFrames n) as [tracks0 curTracks0].
      now apply processFrame_settled.
    + now apply nth_error_nth'.
Qed.

Lemma trackPartials_stateAfter (peaksFrames : list (list Peak)) :
  trackPartials peaksFrames
  = fst (stateAfter peaksFrames (length peaksFrames - 1))
    ++ snd (stateAfter peaksFrames (length peaksFrames - 1)).
Proof.
  unfold trackPartials, stateAfter.
  replace (length peaksFrames - 1)%nat with (length (tl peaksFrames))
    by (destruct peaksFrames; cbn; lia).
  rewrite firstn_all.
  now destruct (processFrames 0 (tl peaksFrames) [] _).
Qed.

(** Counting the tracks that hold [p] for frame [f] is counting [p] among
    the entries for frame [f]. *)
Lemma holdsAt_column (f : nat) (p : Peak) (l : list Track) :
  length (filter (holdsAt f p) l)
  = length (filter (fun q => sameObject q p) (column f l)).
Proof.
  unfold column. induction l as [|t l IH]; [reflexivity|].
  cbn [filter flat_map]. rewrite filter_app, length_app, <- IH.
  unfold holdsAt. destruct (entryAt t f) as [q|]; [|reflexivity].
  cbn [filter]. now destruct (sameObject q p).
Qed.

Lemma sameObject_real (p : Peak) (l : list Peak) :
  isReal p = true ->
  filter (fun q => sameObject q p) (filter isReal l)
  = filter (fun q => sameObject q p) l.
Proof.
  intro Hp. induction l as [|q l IH]; [reflexivity|].
  cbn [filter]. destruct (isReal q) eqn:Hq; cbn [filter]; [now rewrite IH|].
  rewrite IH.
  destruct (sameObject q p) eqn:E; [|reflexivity].
  unfold sameObject in E. apply Ident_eqb_eq in E.
  unfold isReal in *. rewrite E in Hq. congruence.
Qed.

Lemma filter_none {A : Type} (P : A -> bool) (l : list A) :
  (forall x, In x l -> P x = false) -> filter P l = [].
Proof.
  induction l as [|x l IH]; intro H; [reflexivity|].
  cbn [filter]. rewrite (H x (or_introl eq_refl)).
  apply IH. intros y Hy. apply H. now right.
Qed.

Lemma distinct_once (frame : list Peak) (p : Peak) :
  NoDup (map ident frame) -> In p frame ->
  length (filter (fun q => sameObject q p) frame) = 1%nat.
Proof.
  induction frame as [|q frame IH]; intros Hnd Hin; [destruct Hin|].
  cbn [map] in Hnd. inversion Hnd as [|? ? Hnotin Hnd']; subst.
  cbn [filter]. destruct Hin as [->|Hin].
  - unfold sameObject at 1. rewrite Ident_eqb_refl. cbn [length]. f_equal.
    rewrite filter_none; [reflexivity|].
    intros q Hq. destruct (sameObject q p) eqn:E; [|reflexivity].
    exfalso. apply Hnotin. unfold sameObject in E. apply Ident_eqb_eq in E.
    rewrite <- E. now apply in_map.
  - destruct (sameObject q p) eqn:E; [|now apply IH].
    exfalso. apply Hnotin. unfold sameObject in E. apply Ident_eqb_eq in E.
    rewrite E. now apply in_map.
Qed.

(** C9.  For every input whose frames hold pairwise distinct peaks (objects
    of the input, which the tracker's own zero-amplitude literals never
    are), the peaks of frame [f] are, each once, the real entries that the
    tracks returned hold for frame [f]: every peak of every frame is held by
    exactly one track returned, at the place that stands for its frame.  A
    peak a track takes leaves the pool, and a peak left in the pool is the
    real entry of one new track. *)
Theorem every_peak_in_one_track (peaksFrames : list (list Peak)) (f : nat)
    (frame : list Peak) :
  distinctInput peaksFrames = true ->
  nth_error peaksFrames f = Some frame ->
  Permutation (realEntries f (trackPartials peaksFrames)) frame
  /\ forall p, In p frame ->
       length (filter (holdsAt f p) (trackPartials peaksFrames)) = 1%nat.
Proof.
  intros Hwf Hf.
  assert (f < length peaksFrames)%nat as Hlen
    by (apply nth_error_Some; congruence).
  assert (nth f peaksFrames [] = frame) as Hnth by now apply nth_error_nth.
  destruct (distinctInput_frame peaksFrames frame Hwf) as [Hnd Hreal].
  { rewrite <- Hnth. now apply nth_In. }
  assert (Permutation (realEntries f (trackPartials peaksFrames)) frame) as Hperm.
  { rewrite trackPartials_stateAfter.
    destruct (stateAfter_settled peaksFrames (length peaksFrames - 1) Hwf)
      as (_ & _ & Hcols); [lia|].
    rewrite (Hcols f) by lia. now rewrite Hnth. }
  split; [exact Hperm|].
  intros p Hp. rewrite holdsAt_column.
  rewrite <- (sameObject_real p) by now apply Hreal.
  fold (realEntries f (trackPartials peaksFrames)).
  rewrite (Permutation_length (Permutation_filter _ _ _ Hperm)).
  now apply distinct_once.
Qed.

(** C9, witness: three frames; the peak of frame 1 is taken by the track
    at 100, the two peaks of frame 2 go to that track and to a new one. *)
Lemma every_peak_in_one_track_witness :
  let peaksFrames := [[mkPeak (Given 0) 100 1; mkPeak (Given 1) 900 1];
                      [mkPeak (Given 2) 120 1];
                      [mkPeak (Given 3) 130 1; mkPeak (Given 4) 500 1]] in
  let frame := [mkPeak (Given 3) 130 1; mkPeak (Given 4) 500 1] in
  Permutation (realEntries 2 (trackPartials peaksFrames)) frame
  /\ forall p, In p frame ->
       length (filter (holdsAt 2 p) (trackPartials peaksFrames)) = 1%nat.
Proof.
  exact (every_peak_in_one_track
           [[mkPeak (Given 0) 100 1; mkPeak (Given 1) 900 1];
            [mkPeak (Given 2) 120 1];
            [mkPeak (Given 3) 130 1; mkPeak (Given 4) 500 1]]
           2 [mkPeak (Given 3) 130 1; mkPeak (Given 4) 500 1]
           eq_refl eq_refl).
Defined.

(** * Further properties *)

(** ** The candidate search *)

(** X1.  On any array, ascending or not, an index [findCandidateIndex]
    returns is inside the array and its frequency is within the matching
    radius of [curPeak] by the source's own test
    ([abs (nextPeaks[k] - curPeak) <= 200] as computed), also when it is the
    [m+1] pushed on the test of [m]. *)
Theorem findCandidateIndex_within (c : Q) (l : list Q) (k : nat) :
  findCandidateIndex c l = Some k ->
  (k < length l)%nat /\ Qabs (sub64 (nth k l 0) c) <= matchingThreshold.
Proof.
  intro H. pose proof (findCandidateIndex_candidates c l) as Hf.
  rewrite H in Hf. destruct Hf as (Hin & Hd & _).
  split; [|exact Hd].
  now apply (candidatesOf_examined c l k).
Qed.

(** X1, witness: 100 against the unsorted array [300; 50; 120]. *)
Lemma findCandidateIndex_within_witness :
  (2 < length [300; 50; 120])%nat
  /\ Qabs (sub64 (nth 2 [300; 50; 120] 0) 100) <= matchingThreshold.
Proof.
  exact (findCandidateIndex_within 100 [300; 50; 120] 2 eq_refl).
Defined.

(** X2.  On an ascending array the three positions examined are enough: the
    index returned is that of a frequency nearest to [curPeak] in the whole
    array, it is the insertion point or the position before it, and no
    candidate is returned only when every frequency of the array is farther
    than the matching radius; nearest and farther are by the computed
    distance [abs (nextPeaks[i] - curPeak)], which rounding keeps monotone. *)
Theorem findCandidateIndex_nearest_of_all (c : Q) (l : list Q) :
  ascendingb l = true ->
  match findCandidateIndex c l with
  | Some k =>
      (k = sortedIndex l c \/ (k + 1)%nat = sortedIndex l c)
      /\ forall i, (i < length l)%nat -> distance c l k <= distance c l i
  | None =>
      forall i, (i < length l)%nat -> matchingThreshold < distance c l i
  end.
Proof.
  intro Hs.
  pose proof (sortedIndex_bound l c) as Hb.
  pose proof (findCandidateIndex_candidates c l) as Hf.
  destruct (findCandidateIndex c l) as [k|] eqn:Hk.
  - destruct Hf as (Hin & Hd & _ & Hfirst).
    destruct (candidatesOf_examined c l k Hin) as [Hex Hkl].
    set (m := sortedIndex l c) in *.
    assert (forall i, (i < length l)%nat -> distance c l k <= distance c l i)
      as Hall.
    { intros i Hi. exact (findCandidateIndex_global c l k i Hs Hk Hi). }
    split; [|exact Hall].
    destruct Hex as [E|[E|E]]; [now right|now left|exfalso].
    (* [m+1] is pushed after [m], which is then no farther *)
    assert (exists rest, candidatesOf c l = m :: rest) as [rest Hrest].
    { revert Hin. unfold candidatesOf. fold m. subst k.
      destruct ((m <? length l)%nat && withinThreshold c l m) eqn:E1;
        [intros _; cbn [app]; eexists; reflexivity|].
      assert ((m + 1 <? length l)%nat && withinThreshold c l m = false) as ->.
      { apply andb_false_iff. apply andb_false_iff in E1.
        destruct E1 as [E1|E1]; [left|now right].
        apply Nat.ltb_ge in E1. apply Nat.ltb_ge. lia. }
      cbn [app]. rewrite app_nil_r.
      destruct ((0 <? m)%nat && withinThreshold c l (m - 1));
        [intros [E|[]]; lia|intros []]. }
    destruct (Hfirst m rest Hrest) as [E'|Hlt]; [lia|].
    destruct (distance_outwards c l k Hs Hkl) as [_ Hhigh]. fold m in Hhigh.
    assert (m <= k)%nat as Hmk by lia. specialize (Hhigh Hmk). lra.
  - intros i Hi. set (m := sortedIndex l c) in *.
    destruct (distance_outwards c l i Hs Hi) as [Hlow Hhigh]. fold m in Hlow, Hhigh.
    assert (forall e, examined m e -> (e < length l)%nat ->
                      matchingThreshold < distance c l e) as Hout.
    { intros e Hex He.
      destruct (Qlt_le_dec matchingThreshold (distance c l e)) as [|Hinr];
        [assumption|exfalso].
      pose proof (examined_candidate c l e Hs Hex He Hinr) as Hin.
      rewrite Hf in Hin. destruct Hin. }
    destruct (Nat.lt_ge_cases i m) as [Him|Him].
    + specialize (Hlow Him).
      specialize (Hout (m - 1)%nat ltac:(unfold examined; lia) ltac:(lia)). lra.
    + specialize (Hhigh Him).
      specialize (Hout m ltac:(unfold examined; lia) ltac:(lia)). lra.
Qed.

(** X2, witness: 260 against the ascending array [10; 100; 250; 300; 900]. *)
Lemma findCandidateIndex_nearest_of_all_witness :
  match findCandidateIndex 260 [10; 100; 250; 300; 900] with
  | Some k =>
      (k = sortedIndex [10; 100; 250; 300; 900] 260
       \/ (k + 1)%nat = sortedIndex [10; 100; 250; 300; 900] 260)
      /\ forall i, (i < length [10; 100; 250; 300; 900])%nat ->
           distance 260 [10; 100; 250; 300; 900] k
           <= distance 260 [10; 100; 250; 300; 900] i
  | None =>
      forall i, (i < length [10; 100; 250; 300; 900])%nat ->
        matchingThreshold < distance 260 [10; 100; 250; 300; 900] i
  end.
Proof.
  exact (findCandidateIndex_nearest_of_all 260 [10; 100; 250; 300; 900] eq_refl).
Defined.

(** X3.  The snapshot being sorted, the track in hand is the lowest of
    those still to process: when its candidate lies at or below its own
    frequency no other track is nearer, and the track takes the candidate. *)
Theorem lowest_track_takes_lower_peak (track : Track) (later : list Track)
    (st : Matching) (k : nat) :
  ascendingb (map lastFreq (track :: later)) = true ->
  findCandidateIndex (lastFreq track) (map freq (nextPeaks st)) = Some k ->
  nth k (map freq (nextPeaks st)) 0 <= lastFreq track ->
  matchTrack track later st = takePeak st track k.
Proof.
  intros Hs Hk Hle.
  pose proof (findCandidateIndex_candidates (lastFreq track)
                (map freq (nextPeaks st))) as Hf.
  rewrite Hk in Hf. destruct Hf as (_ & Hd & _). unfold distance in Hd.
  unfold matchTrack. rewrite Hk.
  set (c := lastFreq track) in *.
  set (p := nth k (map freq (nextPeaks st)) 0) in *.
  assert (definitiveMatch c p (map lastFreq (track :: later)) = true) as ->;
    [|reflexivity].
  cbn [map]. fold c. apply definitiveMatch_below.
  - exact Hs.
  - rewrite absdiff_sym. exact Hd.
  - exact Hle.
Qed.

(** X3, witness: tracks at 300 and 350, pool [280]: the lower track takes
    the peak although the higher one is within the radius too. *)
Lemma lowest_track_takes_lower_peak_witness :
  matchTrack (mkTrack 0 [mkPeak (Given 0) 300 1])
             [mkTrack 0 [mkPeak (Given 1) 350 1]]
             (mkMatching [mkPeak (Given 2) 280 1] [] [])
  = takePeak (mkMatching [mkPeak (Given 2) 280 1] [] [])
             (mkTrack 0 [mkPeak (Given 0) 300 1]) 0.
Proof.
  refine (lowest_track_takes_lower_peak
            (mkTrack 0 [mkPeak (Given 0) 300 1])
            [mkTrack 0 [mkPeak (Given 1) 350 1]]
            (mkMatching [mkPeak (Given 2) 280 1] [] []) 0 eq_refl eq_refl _).
  cbn. discriminate.
Defined.

(** ** What every track of trackPartials looks like *)

(** The two ways the body of the inner loop ends for a track: it dies, or it
    takes a peak of the pool within the matching radius of its frequency. *)
Lemma matchTrack_outcome (track : Track) (later : list Track) (st : Matching) :
  matchTrack track later st = die st track
  \/ exists k,
       (k < length (nextPeaks st))%nat
       /\ Qabs (sub64 (freq (nth k (nextPeaks st) noPeak)) (lastFreq track))
          <= matchingThreshold
       /\ matchTrack track later st = takePeak st track k.
Proof.
  unfold matchTrack.
  destruct (findCandidateIndex _ _) as [k|] eqn:Hk; [|now left].
  pose proof (findCandidateIndex_candidates (lastFreq track)
                (map freq (nextPeaks st))) as Hf.
  rewrite Hk in Hf. destruct Hf as (Hin & Hd & _).
  apply candidatesOf_examined in Hin. destruct Hin as [_ Hkl].
  rewrite length_map in Hkl. unfold distance in Hd.
  change 0 with (freq noPeak) in Hd at 1. rewrite map_nth in Hd.
  destruct (definitiveMatch _ _ _); [right; now exists k|].
  destruct k as [|k]; [now left|].
  destruct (Qgtb _ _) eqn:E; [now left|right].
  exists k. split; [lia|]. split; [|reflexivity].
  to_Q. change 0 with (freq noPeak) in E at 1. now rewrite map_nth in E.
Qed.

Section TrackerRule.

(** A proof rule for [trackPartials] on the input [peaksFrames]: [A n] is to
    hold of the tracks active once frame [n] is processed, [D n] of the
    finalized ones. *)
Variable peaksFrames : list (list Peak).
Variables D A : nat -> Track -> Prop.

Hypothesis first_track :
  forall p, In p (nth 0 peaksFrames []) -> A 0 (mkTrack 0 [p]).
Hypothesis finalized_stays :
  forall n t, D n t -> D (S n) t.
Hypothesis track_dies :
  forall n t, A n t -> D (S n) (pushPeak t (fade (lastFreq t))).
Hypothesis track_takes :
  forall n t e, A n t -> In e (nth (S n) peaksFrames []) ->
    Qabs (sub64 (freq e) (lastFreq t)) <= matchingThreshold ->
    A (S n) (pushPeak t e).
Hypothesis track_born :
  forall n p, In p (nth (S n) peaksFrames []) -> A (S n) (bornAt n p).

Lemma matchTracks_rule (n : nat) (collection : list Track) :
  forall st : Matching,
  (forall t, In t collection -> A n t) ->
  (forall q, In q (nextPeaks st) -> In q (nth (S n) peaksFrames [])) ->
  (forall t, In t (tracks st) -> D (S n) t) ->
  (forall t, In t (curTracks st) -> A (S n) t) ->
  (forall t, In t (tracks (matchTracks collection st)) -> D (S n) t)
  /\ (forall t, In t (curTracks (matchTracks collection st)) -> A (S n) t)
  /\ (forall q, In q (nextPeaks (matchTracks collection st)) ->
        In q (nth (S n) peaksFrames [])).
Proof.
  induction collection as [|track later IH]; intros st Hcol Hpool Hd Ha;
    [now repeat split|].
  cbn [matchTracks]. apply IH.
  - intros t Ht. apply Hcol. now right.
  - destruct (matchTrack_outcome track later st) as [->|(k & _ & _ & ->)];
      cbn [die takePeak nextPeaks]; [exact Hpool|].
    intros q Hq. apply Hpool. exact (pull_incl _ _ _ Hq).
  - destruct (matchTrack_outcome track later st) as [->|(k & _ & _ & ->)];
      cbn [die takePeak tracks]; [|exact Hd].
    intros t Ht. apply in_app_or in Ht. destruct Ht as [Ht|[<-|[]]]; [auto|].
    apply track_dies. apply Hcol. now left.
  - destruct (matchTrack_outcome track later st) as [->|(k & Hk & Hnear & ->)];
      cbn [die takePeak curTracks]; [exact Ha|].
    intros t Ht. apply in_app_or in Ht. destruct Ht as [Ht|[<-|[]]]; [auto|].
    apply track_takes; [apply Hcol; now left| |exact Hnear].
    apply Hpool. now apply nth_In.
Qed.

Lemma stateAfter_rule (n : nat) :
  (n < length peaksFrames)%nat ->
  (forall t, In t (fst (stateAfter peaksFrames n)) -> D n t)
  /\ (forall t, In t (snd (stateAfter peaksFrames n)) -> A n t).
Proof.
  induction n as [|n IH]; intro Hn.
  - unfold stateAfter. cbn [firstn processFrames fst snd].
    split; [intros t []|].
    intros t Ht. apply in_map_iff in Ht. destruct Ht as (p & <- & Hp).
    now apply first_track.
  - destruct (IH ltac:(lia)) as [Hd Ha].
    rewrite (stateAfter_step peaksFrames n (nth (S n) peaksFrames []))
      by now apply nth_error_nth'.
    destruct (stateAfter peaksFrames n) as [tracks0 curTracks0].
    cbn [fst snd] in *. unfold processFrame.
    destruct (matchTracks_rule n (sortBy lastFreq curTracks0)
                (mkMatching (nth (S n) peaksFrames []) tracks0 []))
      as (H1 & H2 & H3); cbn [nextPeaks tracks curTracks]; auto.
    + intros t Ht. apply Ha. now apply (sortBy_In lastFreq).
    + intros t [].
    + cbn [fst snd]. split; [exact H1|].
      intros t Ht. apply in_app_or in Ht. destruct Ht as [Ht|Ht]; [auto|].
      apply in_map_iff in Ht. destruct Ht as (p & <- & Hp).
      apply track_born. now apply H3.
Qed.

(** Every track returned is a finalized or an active track of the state
    after the last frame. *)
Lemma trackPartials_rule (t : Track) :
  In t (trackPartials peaksFrames) ->
  D (length peaksFrames - 1) t \/ A (length peaksFrames - 1) t.
Proof.
  intro Ht.
  destruct (Nat.eq_dec (length peaksFrames) 0) as [E|E].
  - apply length_zero_iff_nil in E. rewrite E in Ht. destruct Ht.
  - rewrite trackPartials_stateAfter in Ht.
    destruct (stateAfter_rule (length peaksFrames - 1)) as [Hd Ha]; [lia|].
    apply in_app_or in Ht. destruct Ht as [Ht|Ht]; [left|right]; auto.
Qed.

End TrackerRule.

Lemma smoothb_push (ps : list Peak) (e : Peak) :
  smoothb ps = true ->
  Qabs (sub64 (freq e) (freq (last ps noPeak))) <= matchingThreshold ->
  smoothb (ps ++ [e]) = true.
Proof.
  induction ps as [|p ps IH]; intros Hs He; [reflexivity|].
  destruct ps as [|q ps].
  - cbn [app smoothb last] in *. apply andb_true_iff. split; [|reflexivity].
    now apply Qleb_le.
  - cbn [smoothb] in Hs. apply andb_true_iff in Hs. destruct Hs as [Hpq Hs].
    change ((p :: q :: ps) ++ [e]) with (p :: (q :: ps) ++ [e]).
    change (smoothb (p :: (q :: ps) ++ [e]))
      with (Qleb (Qabs (sub64 (freq q) (freq p))) matchingThreshold
            && smoothb ((q :: ps) ++ [e])).
    rewrite Hpq. apply IH; [exact Hs|exact He].
Qed.

(** X4.  In every track [trackPartials] returns, on any input, two
    consecutive peaks are within the matching radius of each other, by the
    test the source applies ([abs] of the computed difference at most 200):
    a track only takes a peak that passes it against its last one, and the
    zero-amplitude entries repeat the frequency next to them. *)
Theorem tracks_are_smooth (peaksFrames : list (list Peak)) :
  Forall (fun t => smoothb (peaks t) = true) (trackPartials peaksFrames).
Proof.
  apply Forall_forall. intros t Ht.
  destruct (trackPartials_rule peaksFrames
              (fun _ t => smoothb (peaks t) = true)
              (fun _ t => smoothb (peaks t) = true)) with (t := t)
    as [H|H]; try exact H; try exact Ht; clear t Ht.
  - reflexivity.
  - auto.
  - intros n t Hs. cbn [pushPeak peaks]. apply smoothb_push; [exact Hs|].
    unfold lastFreq, fade. cbn [freq].
    rewrite absdiff_same by reflexivity. discriminate.
  - intros n t e Hs _ He. cbn [pushPeak peaks].
    apply smoothb_push; [exact Hs|exact He].
  - intros n p _. cbn [bornAt peaks smoothb fade freq].
    apply andb_true_iff. split; [|reflexivity].
    apply Qleb_le. rewrite absdiff_same by reflexivity. discriminate.
Qed.

(** X5.  Every track [trackPartials] returns has at least one peak and fits
    in the input: [birth + peaks.length] is at most the number of frames. *)
Theorem tracks_fit_the_input (peaksFrames : list (list Peak)) :
  Forall (fun t => peaks t <> [] /\ (extent t <= length peaksFrames)%nat)
         (trackPartials peaksFrames).
Proof.
  apply Forall_forall. intros t Ht.
  assert (forall (ps : list Peak) (e : Peak), ps ++ [e] <> []) as Hne
    by (intros [|? ?] e; discriminate).
  destruct (trackPartials_rule peaksFrames
              (fun n t => peaks t <> [] /\ (extent t <= S n)%nat)
              (fun n t => peaks t <> [] /\ extent t = S n)) with (t := t)
    as [[H1 H2]|[H1 H2]]; try exact Ht.
  - intros p _. split; [discriminate|reflexivity].
  - intros n t' [H1 H2]. split; [exact H1|lia].
  - intros n t' [H1 H2]. rewrite extent_pushPeak. split; [apply Hne|lia].
  - intros n t' e [H1 H2] _ _. rewrite extent_pushPeak. split; [apply Hne|lia].
  - intros n p _. split; [discriminate|]. unfold extent, bornAt. cbn. lia.
  - split; [exact H1|].
    destruct peaksFrames; [destruct Ht|]. cbn [length] in *. lia.
  - split; [exact H1|].
    destruct peaksFrames; [destruct Ht|]. cbn [length] in *. lia.
Qed.

(** X6.  Every track [trackPartials] returns either reaches the last frame
    ([birth + peaks.length] is the number of frames) or was finalized by a
    death, and then its last entry is a zero-amplitude literal at the
    frequency of the entry before it. *)
Theorem finalized_tracks_fade_out (peaksFrames : list (list Peak)) :
  Forall (fun t => fadedOut t \/ extent t = length peaksFrames)
         (trackPartials peaksFrames).
Proof.
  apply Forall_forall. intros t Ht.
  assert (forall (ps : list Peak) (e : Peak), ps ++ [e] <> []) as Hne
    by (intros [|? ?] e; discriminate).
  destruct (trackPartials_rule peaksFrames
              (fun _ t => fadedOut t)
              (fun n t => peaks t <> [] /\ extent t = S n)) with (t := t)
    as [H|[H1 H2]]; try exact Ht.
  - intros p _. split; [discriminate|reflexivity].
  - auto.
  - intros n t' [H1 _].
    destruct (exists_last H1) as (init & p & Hp).
    exists init, p. unfold lastFreq. cbn [pushPeak peaks].
    rewrite Hp, last_last, <- app_assoc. reflexivity.
  - intros n t' e [H1 H2] _ _. rewrite extent_pushPeak. split; [apply Hne|lia].
  - intros n p _. split; [discriminate|]. unfold extent, bornAt. cbn. lia.
  - now left.
  - right. destruct peaksFrames; [destruct Ht|]. cbn [length] in *. lia.
Qed.

Lemma matchTracks_empty_pool (collection : list Track) :
  forall tracks0 curTracks0 : list Track,
  matchTracks collection (mkMatching [] tracks0 curTracks0)
  = mkMatching []
      (tracks0 ++ map (fun t => pushPeak t (fade (lastFreq t))) collection)
      curTracks0.
Proof.
  induction collection as [|track later IH]; intros tracks0 curTracks0.
  - cbn. now rewrite app_nil_r.
  - cbn [matchTracks map].
    change (matchTrack track later (mkMatching [] tracks0 curTracks0))
      with (die (mkMatching [] tracks0 curTracks0) track).
    unfold die. cbn [nextPeaks tracks curTracks].
    rewrite IH, <- app_assoc. reflexivity.
Qed.

(** X7.  A frame without peaks ends every active track: each one, in the
    order of the sorted snapshot, gets a zero-amplitude entry at its last
    frequency and is finalized; no track stays active and none is born.  So
    when the last frame of an input is empty, [trackPartials] returns the
    tracks finalized before it followed by the faded active ones. *)
Theorem empty_frame_ends_every_track (frameIdx : nat)
    (tracks0 curTracks0 : list Track) (peaksFrames : list (list Peak)) :
  let fadeOut := fun t => pushPeak t (fade (lastFreq t)) in
  processFrame frameIdx [] tracks0 curTracks0
  = (tracks0 ++ map fadeOut (sortBy lastFreq curTracks0), [])
  /\ (peaksFrames <> [] ->
      trackPartials (peaksFrames ++ [[]])
      = fst (stateAfter peaksFrames (length peaksFrames - 1))
        ++ map fadeOut
             (sortBy lastFreq
                (snd (stateAfter peaksFrames (length peaksFrames - 1))))).
Proof.
  intro fadeOut.
  assert (forall i t c, processFrame i [] t c
                        = (t ++ map fadeOut (sortBy lastFreq c), [])) as Hframe.
  { intros i t c. unfold processFrame. now rewrite matchTracks_empty_pool. }
  split; [apply Hframe|].
  intro Hne. destruct peaksFrames as [|frame rest]; [contradiction|].
  unfold trackPartials, stateAfter.
  cbn [app tl nth length]. replace (S (length rest) - 1)%nat with (length rest) by lia.
  rewrite firstn_all, processFrames_app. cbn [processFrames].
  rewrite Hframe. now rewrite app_nil_r.
Qed.

(** X7, witness: two tracks alive after frame 0, then an empty frame. *)
Lemma empty_frame_ends_every_track_witness :
  let fadeOut := fun t => pushPeak t (fade (lastFreq t)) in
  let peaksFrames := [[mkPeak (Given 0) 500 1; mkPeak (Given 1) 100 1]] in
  processFrame 0 [] [] [mkTrack 0 [mkPeak (Given 0) 500 1]]
  = ([] ++ map fadeOut (sortBy lastFreq [mkTrack 0 [mkPeak (Given 0) 500 1]]), [])
  /\ trackPartials (peaksFrames ++ [[]])
     = fst (stateAfter peaksFrames (length peaksFrames - 1))
       ++ map fadeOut
            (sortBy lastFreq
               (snd (stateAfter peaksFrames (length peaksFrames - 1)))).
Proof.
  destruct (empty_frame_ends_every_track 0 []
              [mkTrack 0 [mkPeak (Given 0) 500 1]]
              [[mkPeak (Given 0) 500 1; mkPeak (Given 1) 100 1]]) as [H1 H2].
  split; [exact H1|]. apply H2. discriminate.
Defined.

(** ** detectPeaks *)

(** Two neighbouring bins are never both peaks, so the loop finds at most
    one peak for every two bins it has still to visit. *)
Lemma scanBins_count (idx : nat) (binFactor threshold : Q) (rest : list Q) :
  forall (i : nat) (prevMag curMag : Q),
  (2 * length (scanBins idx binFactor threshold i prevMag curMag rest)
   <= length rest + (if Qgtb curMag prevMag then 1 else 0))%nat.
Proof.
  induction rest as [|nextMag rest IH]; intros i prevMag curMag;
    [cbn; lia|].
  cbn [scanBins length]. rewrite length_app.
  specialize (IH (S i) curMag nextMag).
  destruct (Qgtb curMag prevMag) eqn:E1; cbn [andb].
  - destruct (Qgtb curMag nextMag) eqn:E2; cbn [andb].
    + assert (Qgtb nextMag curMag = false) as E3.
      { to_Q. apply Qgtb_le. lra. }
      rewrite E3 in IH. destruct (Qgtb curMag threshold); cbn [length]; lia.
    + cbn [length]. destruct (Qgtb nextMag curMag); lia.
  - cbn [length]. destruct (Qgtb nextMag curMag); lia.
Qed.

Lemma lastN_length {A : Type} (l : list A) (n : nat) :
  (length (lastN l n) <= length l)%nat.
Proof. unfold lastN. rewrite length_skipn. lia. Qed.

(** X8.  Whatever the sample rate, the threshold and the cap, a frame of
    [numBins] bins yields at most [(numBins - 1) / 2] peaks: a peak
    strictly exceeds both neighbours, so two neighbouring bins are never both
    peaks. *)
Theorem detectPeaks_count (spectrogram : list (list Q))
    (sampleRate threshold : Q) (maxPeaks : option nat) (idx : nat)
    (frame : list Q) :
  nth_error spectrogram idx = Some frame ->
  exists framePeaks,
    nth_error (detectPeaks spectrogram sampleRate threshold maxPeaks) idx
    = Some framePeaks
    /\ (2 * length framePeaks <= length frame - 1)%nat.
Proof.
  intro H. unfold detectPeaks. rewrite detectFrom_nth, H. cbn [option_map Nat.add].
  eexists. split; [reflexivity|].
  unfold detectFrame.
  set (framePeaks := match frame with
                     | prevMag :: curMag :: rest => _
                     | _ => []
                     end).
  assert (2 * length framePeaks <= length frame - 1)%nat as Hscan.
  { unfold framePeaks. destruct frame as [|prevMag [|curMag rest]];
      [cbn; lia|cbn; lia|].
    pose proof (scanBins_count idx
                  (div64 sampleRate
                     (inject_Z (Z.of_nat (length (prevMag :: curMag :: rest))) * 2))
                  threshold rest 1 prevMag curMag) as Hc.
    cbn [length] in *. destruct (Qgtb curMag prevMag); lia. }
  assert (length (sortBy freq framePeaks) = length framePeaks) as Hsort
    by (apply Permutation_length, sortBy_Permutation).
  destruct maxPeaks as [n|]; [|lia].
  pose proof (lastN_length (sortBy freq framePeaks) n). lia.
Qed.

(** X8, witness: a frame of 7 bins with peaks at bins 1, 3 and 5. *)
Lemma detectPeaks_count_witness :
  exists framePeaks,
    nth_error (detectPeaks [[0; 9; 0; 1; 0; 2; 0]] 14 0 None) 0
    = Some framePeaks
    /\ (2 * length framePeaks <= length [0; 9; 0; 1; 0; 2; 0] - 1)%nat.
Proof.
  exact (detectPeaks_count [[0; 9; 0; 1; 0; 2; 0]] 14 0 None 0
           [0; 9; 0; 1; 0; 2; 0] eq_refl).
Defined.

(** ** detectPeaks into trackPartials *)

Lemma NoDup_distinctPeaks (frame : list Peak) :
  NoDup (map ident frame) -> distinctPeaks frame = true.
Proof.
  induction frame as [|p rest IH]; intro H; [reflexivity|].
  cbn [map] in H. inversion H as [|? ? Hnotin Hnd]; subst.
  cbn [distinctPeaks]. rewrite IH by exact Hnd. rewrite andb_true_r.
  apply negb_true_iff. destruct (existsb (sameObject p) rest) eqn:E;
    [|reflexivity].
  exfalso. apply Hnotin. apply existsb_exists in E.
  destruct E as (q & Hq & Hpq). unfold sameObject in Hpq.
  apply Ident_eqb_eq in Hpq. rewrite Hpq. now apply in_map.
Qed.

Lemma NoDup_skipn {A : Type} (l : list A) (k : nat) :
  NoDup l -> NoDup (skipn k l).
Proof.
  intro H. rewrite <- (firstn_skipn k l) in H.
  now apply NoDup_app_remove_l in H.
Qed.

Lemma ascendingb_skipn (l : list Q) (k : nat) :
  ascendingb l = true -> ascendingb (skipn k l) = true.
Proof.
  revert l. induction k as [|k IH]; intros l H; [exact H|].
  destruct l as [|x l]; [reflexivity|].
  cbn [skipn]. apply IH. exact (ascendingb_tail _ _ H).
Qed.

(** The peaks [detectPeaks] builds for a frame are literals of their own,
    one for each bin found, and the frame comes out ascending. *)
Lemma detectFrame_wellformed (sampleRate threshold : Q) (maxPeaks : option nat)
    (idx : nat) (frame : list Q) :
  let framePeaks := detectFrame sampleRate threshold maxPeaks idx frame in
  NoDup (map ident framePeaks)
  /\ (forall p, In p framePeaks -> isReal p = true)
  /\ ascendingb (map freq framePeaks) = true.
Proof.
  rewrite detectFrame_scan. cbv zeta.
  set (found := filter (isLocalPeak frame threshold) (seq 1 (length frame - 2))).
  set (sorted := sortBy freq (map (peakAtBin sampleRate idx frame) found)).
  assert (NoDup (map ident sorted)) as Hnd.
  { apply (Permutation_NoDup
             (l := map ident (map (peakAtBin sampleRate idx frame) found))).
    - apply Permutation_map. symmetry. apply sortBy_Permutation.
    - rewrite map_map. cbn [peakAtBin ident].
      assert (NoDup found) as Hf by (apply NoDup_filter, seq_NoDup).
      clear -Hf. induction Hf as [|i l Hi Hl IH]; [constructor|].
      cbn [map]. constructor; [|exact IH].
      intro Hin. apply in_map_iff in Hin. destruct Hin as (j & E & Hj).
      injection E as ->. contradiction. }
  assert (forall p, In p sorted -> isReal p = true) as Hreal.
  { intros p Hp. unfold sorted in Hp.
    apply (proj1 (sortBy_In freq p _)) in Hp. apply in_map_iff in Hp.
    destruct Hp as (i & <- & _). reflexivity. }
  assert (ascendingb (map freq sorted) = true) as Hasc by apply sortBy_ascending.
  destruct maxPeaks as [n|]; [|now repeat split].
  unfold lastN. repeat split.
  - rewrite <- skipn_map. now apply NoDup_skipn.
  - intros p Hp. apply Hreal.
    rewrite <- (firstn_skipn (length sorted - n) sorted).
    apply in_or_app. now right.
  - rewrite <- skipn_map. now apply ascendingb_skipn.
Qed.

Lemma detectPeaks_distinctInput (spectrogram : list (list Q))
    (sampleRate threshold : Q) (maxPeaks : option nat) :
  distinctInput (detectPeaks spectrogram sampleRate threshold maxPeaks) = true.
Proof.
  unfold distinctInput. apply forallb_forall. intros framePeaks Hin.
  apply detectFrom_In in Hin. destruct Hin as (idx & frame & ->).
  destruct (detectFrame_wellformed sampleRate threshold maxPeaks idx frame)
    as (Hnd & Hreal & _).
  apply andb_true_iff. split; [now apply NoDup_distinctPeaks|].
  now apply forallb_forall.
Qed.

(** X10.  What [detectPeaks] returns is an input [trackPartials] is made
    for: every frame is ascending by frequency, as [findCandidateIndex]
    assumes, and its peaks are distinct objects.  Hence in
    [trackPartials (detectPeaks (...))] the peaks detected in frame [f] are,
    each once, the real entries the tracks hold for frame [f]. *)
Theorem detected_peaks_are_tracked (spectrogram : list (list Q))
    (sampleRate threshold : Q) (maxPeaks : option nat) (f : nat)
    (framePeaks : list Peak) :
  let peaksFrames := detectPeaks spectrogram sampleRate threshold maxPeaks in
  nth_error peaksFrames f = Some framePeaks ->
  ascendingb (map freq framePeaks) = true
  /\ distinctPeaks framePeaks = true
  /\ Permutation (realEntries f (trackPartials peaksFrames)) framePeaks
  /\ forall p, In p framePeaks ->
       length (filter (holdsAt f p) (trackPartials peaksFrames)) = 1%nat.
Proof.
  intros peaksFrames Hf.
  pose proof (detectPeaks_distinctInput spectrogram sampleRate threshold maxPeaks)
    as Hwf. fold peaksFrames in Hwf.
  assert (In framePeaks peaksFrames) as Hin by exact (nth_error_In _ _ Hf).
  assert (f < length peaksFrames)%nat as Hlen
    by (apply nth_error_Some; congruence).
  destruct (distinctInput_frame peaksFrames framePeaks Hwf Hin) as [Hnd Hreal].
  assert (ascendingb (map freq framePeaks) = true) as Hasc.
  { unfold peaksFrames, detectPeaks in Hin. apply detectFrom_In in Hin.
    destruct Hin as (idx & frame & ->). apply detectFrame_wellformed. }
  assert (Permutation (realEntries f (trackPartials peaksFrames)) framePeaks)
    as Hperm.
  { rewrite trackPartials_stateAfter.
    destruct (stateAfter_settled peaksFrames (length peaksFrames - 1) Hwf)
      as (_ & _ & Hcols); [lia|].
    rewrite (Hcols f) by lia. now rewrite (nth_error_nth _ _ _ Hf). }
  split; [exact Hasc|]. split; [now apply NoDup_distinctPeaks|].
  split; [exact Hperm|].
  intros p Hp. rewrite holdsAt_column.
  rewrite <- (sameObject_real p) by now apply Hreal.
  fold (realEntries f (trackPartials peaksFrames)).
  rewrite (Permutation_length (Permutation_filter _ _ _ Hperm)).
  now apply distinct_once.
Qed.

(** X10, witness: three frames of five bins at 8 Hz, threshold 0. *)
Lemma detected_peaks_are_tracked_witness :
  let peaksFrames :=
    detectPeaks [[1; 3; 2; 5; 1]; [1; 4; 2; 1; 0]; [0; 1; 0; 6; 2]] 8 0 None in
  let framePeaks := nth 2 peaksFrames [] in
  ascendingb (map freq framePeaks) = true
  /\ distinctPeaks framePeaks = true
  /\ Permutation (realEntries 2 (trackPartials peaksFrames)) framePeaks
  /\ forall p, In p framePeaks ->
       length (filter (holdsAt 2 p) (trackPartials peaksFrames)) = 1%nat.
Proof.
  exact (detected_peaks_are_tracked
           [[1; 3; 2; 5; 1]; [1; 4; 2; 1; 0]; [0; 1; 0; 6; 2]] 8 0 None 2 _
           eq_refl).
Defined.

(** ** synthesize *)





Lemma newFloat64Array_zeros (maxLength : nat) (bufferSize : num)
    (audioBuffer : list num) :
  newFloat64Array maxLength bufferSize = Some audioBuffer ->
  audioBuffer = repeat (Fin 0) (length audioBuffer).
Proof.
  unfold newFloat64Array.
  destruct bufferSize as [q| | |]; try discriminate.
  - destruct (_ || _); [discriminate|].
    intro H. injection H as <-. now rewrite repeat_length.
  - intro H. injection H as <-. reflexivity.
Qed.

(** The tracks write into a sample only when one of them covers it. *)
Lemma renderTracks_uncovered (sin : num -> num) (frameLen : nat)
    (FREQ_FACTOR : num) (tracks0 : list Track) (audioBuffer : list num)
    (j : nat) :
  forallb (fun t => negb (covers frameLen t j)) tracks0 = true ->
  nth_error (renderTracks sin frameLen FREQ_FACTOR tracks0 audioBuffer) j
  = nth_error audioBuffer j.
Proof.
  unfold renderTracks. revert audioBuffer.
  induction tracks0 as [|t rest IH]; intros audioBuffer H; [reflexivity|].
  cbn [forallb] in H. apply andb_true_iff in H. destruct H as [Ht Hrest].
  cbn [fold_left]. rewrite IH by exact Hrest.
  apply negb_true_iff in Ht. unfold covers, extent in Ht.
  destruct (peaks t) as [|p [|q ps]] eqn:Ep; [reflexivity|reflexivity|].
  apply renderPeaks_outside. cbn [length] in *.
  cbn [Nat.leb andb] in Ht.
  destruct (Nat.leb_spec (birth t * frameLen) j) as [Hb|Hb]; [|lia].
  cbn [andb] in Ht. apply Nat.ltb_ge in Ht. right.
  replace (birth t + S (S (length ps)) - 1)%nat
    with (birth t + S (length ps))%nat in Ht by lia.
  replace (S (S (length ps)) - 1)%nat with (S (length ps)) by lia.
  rewrite Nat.mul_add_distr_r in Ht. exact Ht.
Qed.

(** X13.  A track writes only into the samples of its own segments,
    [birth * frameLen] up to [(birth + peaks.length - 1) * frameLen].  A
    sample of the buffer that no track covers is 0 after rendering, and 0 in
    the buffer returned when the maximum is nonzero: the silence before the
    first birth, the gaps between tracks, and the last frame. *)
Theorem uncovered_samples_are_silent (sin : num -> num) (maxLength : nat)
    (tracks0 : list Track) (frameLen : nat) (samplingRate : Q)
    (audioBuffer : list num) (j : nat) :
  rendered sin maxLength tracks0 frameLen samplingRate = Some audioBuffer ->
  (j < length audioBuffer)%nat ->
  forallb (fun t => negb (covers frameLen t j)) tracks0 = true ->
  nth_error audioBuffer j = Some (Fin 0)
  /\ (isZero (maxAmpOf audioBuffer) = false ->
      exists result q,
        synthesize sin maxLength tracks0 frameLen samplingRate = Returned result
        /\ nth_error result j = Some (Fin q) /\ q == 0).
Proof.
  intros Hr Hj Hcov.
  assert (nth_error audioBuffer j = Some (Fin 0)) as Hzero.
  { unfold rendered in Hr.
    destruct (newFloat64Array _ _) as [zeros|] eqn:Hnew; [|discriminate].
    assert (audioBuffer = renderTracks sin frameLen
              (num_div (num_mul (Fin 2) (Fin PI)) (Fin samplingRate))
              tracks0 zeros) as Hbuf.
    { symmetry. exact (f_equal (fun o => match o with
                                         | Some b => b
                                         | None => audioBuffer
                                         end) Hr). }
    rewrite Hbuf in Hj |- *. rewrite renderTracks_length in Hj.
    rewrite renderTracks_uncovered by exact Hcov.
    rewrite (newFloat64Array_zeros _ _ _ Hnew).
    now apply nth_error_repeat. }
  split; [exact Hzero|].
  intro Hmax. exists (normalize audioBuffer).
  unfold synthesize. rewrite Hr.
  unfold normalize. rewrite nth_error_map, Hzero. cbn [option_map].
  pose proof (lodash_max_not_NaN (map num_abs audioBuffer)) as Hnan.
  fold (maxAmpOf audioBuffer) in Hnan.
  destruct (num_div_zero 0 (maxAmpOf audioBuffer) (Qeq_refl 0) Hnan Hmax)
    as (q & Hq & Hq0).
  exists q. split; [reflexivity|]. split; [now rewrite Hq|exact Hq0].
Qed.

(** X13, witness: a track over frames 1 to 2; sample 1 lies before its
    birth. *)
Lemma uncovered_samples_are_silent_witness :
  let tracks0 := [mkTrack 1 [mkPeak Synth 440 0; mkPeak (Given 0) 440 1]] in
  exists audioBuffer,
    rendered (fun _ => Fin 1) 16 tracks0 2 44100 = Some audioBuffer
    /\ nth_error audioBuffer 1 = Some (Fin 0)
    /\ (isZero (maxAmpOf audioBuffer) = false ->
        exists result q,
          synthesize (fun _ => Fin 1) 16 tracks0 2 44100 = Returned result
          /\ nth_error result 1 = Some (Fin q) /\ q == 0).
Proof.
  eexists. split.
  - vm_compute. reflexivity.
  - refine (uncovered_samples_are_silent (fun _ => Fin 1) 16
              [mkTrack 1 [mkPeak Synth 440 0; mkPeak (Given 0) 440 1]]
              2 44100 _ 1 ltac:(vm_compute; reflexivity) _
              ltac:(vm_compute; reflexivity)).
    cbn [length]. lia.
Defined.

(** ** trackPartials into synthesize *)



